(** * Local-AI: ordered message ledger and streaming ingestion pipeline

    A shallow embedding of the parts of the repository that the
    specification's testable properties talk about:

    - [JsStr]    JavaScript strings as sequences of UTF-16 code units, with
                 the string methods the sources call;
    - [Text]     the text helpers of [react-ui/src/App.js]
                 ([normalizeText], [sanitizeAssistant], [hasOpenCodeFence]);
    - [Json]     [JSON.parse] and the property accesses made on its result;
    - [Ollama]   [chatWithOllama] of [react-ui/src/lib/ollama.js];
    - [Session]  [sendChat] and [stop] of [react-ui/src/App.js];
    - [Backend]  the chat storage API (Express + MySQL), sequentially;
    - [Ledger]   the same append handler as interleaved transactions;

    and, around them, of the code they call and are called by:

    - [Events]   the calls of [chatWithOllama], read as a text;
    - [Markdown] [repairMarkdown] of [components/MarkdownMessage.jsx];
    - [Server]   all routes of the storage API, with [auth] and the tables
                 of users and drafts;
    - [Client]   [react-ui/src/lib/api.js], talking to that server;
    - [History]  what [loadChat] shows of a listing;
    - [Sd]       [react-ui/src/lib/sd.js] and [sendImage];
    - [Lock]     the append handler on an engine whose locking read
                 excludes. *)

From Stdlib Require Import ZArith NArith List String Ascii Lia Bool.
From stdpp Require Import base list gmap strings.
Import ListNotations.

(* ===================================================================== *)
(** * JavaScript strings *)
(* ===================================================================== *)

Module JsStr.

(** A JavaScript string is a finite sequence of UTF-16 code units. *)
Abbreviation jsstring := (list N) (only parsing).

(** Literals: every character of the Rocq literal is one code unit, so
    literals below are kept to ASCII and other code units are written by
    number. *)
Definition str (s : string) : jsstring :=
  map N_of_ascii (list_ascii_of_string s).

(** The same with every apostrophe of the literal standing for a quotation
    mark, to write JSON texts. *)
Definition quoted (s : string) : jsstring :=
  map (fun c => if (c =? 39)%N then 34%N else c) (str s).

Definition NL : N := 10%N.
Definition CR : N := 13%N.
Definition BACKTICK : N := 96%N.

(** [WhiteSpace] and [LineTerminator] of ECMAScript, the code units that
    [String.prototype.trim] removes. *)
Definition is_ws (c : N) : bool :=
  ((9 <=? c) && (c <=? 13) || (c =? 32) || (c =? 160) || (c =? 5760)
   || (8192 <=? c) && (c <=? 8202) || (c =? 8232) || (c =? 8233)
   || (c =? 8239) || (c =? 8287) || (c =? 12288) || (c =? 65279))%N.

(** [s.trimStart()] *)
Fixpoint trimStart (t : jsstring) : jsstring :=
  match t with
  | [] => []
  | c :: t' => if is_ws c then trimStart t' else t
  end.

(** [s.trimEnd()], by recursion on the text: the tail is trimmed first, and
    a character in front of an all-blank tail is dropped when it is blank. *)
Fixpoint trimEnd (t : jsstring) : jsstring :=
  match t with
  | [] => []
  | c :: t' =>
      match trimEnd t' with
      | [] => if is_ws c then [] else [c]
      | r => c :: r
      end
  end.

(** [s.trim()] *)
Definition trim (t : jsstring) : jsstring := trimEnd (trimStart t).

(** [s.indexOf(c)] for a one-character needle: the index of the first
    occurrence, or -1. *)
Fixpoint indexOf (c : N) (t : jsstring) : Z :=
  match t with
  | [] => (-1)%Z
  | d :: t' =>
      if (d =? c)%N then 0%Z
      else let i := indexOf c t' in if (i <? 0)%Z then (-1)%Z else (i + 1)%Z
  end.

(** [s.slice(start, end)]: negative indices count from the end, both are
    clamped to the string, and an end before the start gives the empty
    string. [None] is an omitted [end]. *)
Definition clamp_index (len i : Z) : Z :=
  if (i <? 0)%Z then Z.max (len + i) 0 else Z.min i len.

Definition slice (t : jsstring) (start : Z) (stop : option Z) : jsstring :=
  let len := Z.of_nat (length t) in
  let from := clamp_index len start in
  let to := match stop with None => len | Some e => clamp_index len e end in
  take (Z.to_nat (to - from)) (drop (Z.to_nat from) t).

(** [s.split('\n')]: the lines of a text; never empty. *)
Fixpoint split_nl (t : jsstring) : list jsstring :=
  match t with
  | [] => [[]]
  | c :: t' =>
      if (c =? NL)%N then [] :: split_nl t'
      else match split_nl t' with
           | [] => [[c]]
           | l :: ls => (c :: l) :: ls
           end
  end.

(** [s.split('\n')[0]] *)
Definition first_line (t : jsstring) : jsstring :=
  match split_nl t with
  | [] => []
  | l :: _ => l
  end.

(** [s.replace(/\r/g, '')] *)
Definition remove_cr (t : jsstring) : jsstring :=
  filter (fun c => c ≠ CR) t.

(** [s.replace(/\n{3,}/g, '\n\n')]. The regular expression is greedy, so each
    maximal run of line feeds is one match; [pending] counts the line feeds
    of the run being read, and [emit_run] writes the run out when it ends. *)
Definition emit_run (pending : nat) : jsstring :=
  if (3 <=? pending)%nat then [NL; NL] else repeat NL pending.

Fixpoint collapse_from (pending : nat) (t : jsstring) : jsstring :=
  match t with
  | [] => emit_run pending
  | c :: t' =>
      if (c =? NL)%N then collapse_from (S pending) t'
      else emit_run pending ++ c :: collapse_from 0 t'
  end.

Definition collapse_newlines (t : jsstring) : jsstring := collapse_from 0 t.

(** [(s.match(/```/g) || []).length]: matches are found left to right and do
    not overlap. *)
Fixpoint count_fences (t : jsstring) : nat :=
  match t with
  | [] => 0
  | c1 :: t1 =>
      match t1 with
      | c2 :: (c3 :: rest) =>
          if ((c1 =? BACKTICK) && (c2 =? BACKTICK) && (c3 =? BACKTICK))%N
          then S (count_fences rest)
          else count_fences t1
      | _ => 0
      end
  end.

(** [Canonicalize] of a case-insensitive regular expression without the
    [u] flag, as far as it stays below 256: a letter below 256 goes to its
    upper case when that is one code unit below 256 (so 223, whose upper
    case is two code units, stays). The code units whose canonical form is
    256 or more (181, 255, and those from 256 on) are left as they are:
    the canonical form of no code unit from 256 on is below 256, and the
    patterns of [ci_prefix] and their canonical forms are below 256 and are
    neither 181 nor 255, so no comparison with a pattern is changed. *)
Definition canonicalize (c : N) : N :=
  if ((97 <=? c) && (c <=? 122))%N then (c - 32)%N
  else if ((224 <=? c) && (c <=? 254) && negb (c =? 247))%N then (c - 32)%N
  else c.

(** Does the text start with the pattern, ignoring case? *)
Fixpoint ci_prefix (pat t : jsstring) : bool :=
  match pat, t with
  | [], _ => true
  | _ :: _, [] => false
  | p :: pat', c :: t' =>
      (canonicalize p =? canonicalize c)%N && ci_prefix pat' t'
  end.

(** No run of three line feeds or more in [t], when [t] comes after [k]
    line feeds. *)
Fixpoint short_runs (k : nat) (t : jsstring) : bool :=
  match t with
  | [] => (k <? 3)%nat
  | c :: t' =>
      if (c =? NL)%N then short_runs (S k) t'
      else (k <? 3)%nat && short_runs 0 t'
  end.

End JsStr.
Export JsStr.

(* ===================================================================== *)
(** * Text helpers of [App.js] *)
(* ===================================================================== *)

Module Text.

(** [const normalizeText = (t = '') =>
       t.replace(/\r/g, '').replace(/\n{3,}/g, '\n\n').trim();] *)
Definition normalizeText (t : jsstring) : jsstring :=
  trim (collapse_newlines (remove_cr t)).

(** The alternatives of the regular expression [metaLine]; 228 is the code
    unit of a-umlaut. *)
Definition meta_prefixes : list jsstring :=
  [ str "antwort:";
    str "die erste zeile sollte";
    str "keine erkl" ++ [228%N] ++ str "rungen";
    str "keine aufz" ++ [228%N] ++ str "hlungen";
    str "nur die nackte wahrheit";
    str "nur zwei einzelne s" ++ [228%N] ++ str "tze";
    str "no explanation";
    str "just the answer";
    str "format:" ].

(** [metaLine.test(line)]: the expression is anchored at the start. *)
Definition metaLine_test (line : jsstring) : bool :=
  existsb (fun p => ci_prefix p line) meta_prefixes.

(** The loop of [sanitizeAssistant]
    [while (removed < 2) {
       const firstLine = t.split('\n')[0]?.trim() ?? '';
       if (metaLine.test(firstLine)) { t = t.slice(t.indexOf('\n') + 1); removed++; }
       else break; }]
    with [budget] the number of rounds left, [2 - removed]. *)
Fixpoint meta_loop (budget : nat) (t : jsstring) : jsstring :=
  match budget with
  | 0 => t
  | S budget' =>
      if metaLine_test (trim (first_line t))
      then meta_loop budget' (slice t (indexOf NL t + 1) None)
      else t
  end.

(** [function sanitizeAssistant(s = '')] *)
Definition sanitizeAssistant (s : jsstring) : jsstring :=
  trim (meta_loop 2 (trimStart s)).

(** [function hasOpenCodeFence(text = '')] *)
Definition hasOpenCodeFence (text : jsstring) : bool :=
  Nat.odd (count_fences text).

(** The pass applied to the assistant's text on completion, in both
    [onDone] callbacks of [sendChat]:
    [const cleaned = normalizeText(sanitizeAssistant(last.content));] *)
Definition normalization_pass (s : jsstring) : jsstring :=
  normalizeText (sanitizeAssistant s).

End Text.
Export Text.

(* ===================================================================== *)
(** * JSON *)
(* ===================================================================== *)

Module Json.

#[local] Set Warnings "-register-all".

(** The values [JSON.parse] returns. A number keeps the text it was written
    with: what the engine makes of it is floating-point arithmetic, which
    the development takes as given ([JsEngine] below). In an object the
    fields are in source order, repeated keys included. *)
Inductive json :=
| JNull
| JBool (b : bool)
| JNum (lexeme : jsstring)
| JStr (s : jsstring)
| JArr (items : list json)
| JObj (fields : list (jsstring * json)).

(** ** The grammar of ECMA-404 *)

Definition is_json_ws (c : N) : bool :=
  ((c =? 32) || (c =? 9) || (c =? 10) || (c =? 13))%N.

Fixpoint skip_ws (t : jsstring) : jsstring :=
  match t with
  | c :: t' => if is_json_ws c then skip_ws t' else t
  | [] => []
  end.

Definition is_digit (c : N) : bool := ((48 <=? c) && (c <=? 57))%N.

Definition hex_value (c : N) : option N :=
  if is_digit c then Some (c - 48)%N
  else if ((97 <=? c) && (c <=? 102))%N then Some (c - 87)%N
  else if ((65 <=? c) && (c <=? 70))%N then Some (c - 55)%N
  else None.

Definition hex4 (h1 h2 h3 h4 : N) : option N :=
  match hex_value h1, hex_value h2, hex_value h3, hex_value h4 with
  | Some a, Some b, Some c, Some d => Some (((a * 16 + b) * 16 + c) * 16 + d)%N
  | _, _, _, _ => None
  end.

(** The character an escape stands for, [u] apart. *)
Definition simple_escape (e : N) : option N :=
  if (e =? 34)%N then Some 34%N            (* quotation mark *)
  else if (e =? 92)%N then Some 92%N       (* reverse solidus *)
  else if (e =? 47)%N then Some 47%N       (* solidus *)
  else if (e =? 98)%N then Some 8%N        (* b: backspace *)
  else if (e =? 102)%N then Some 12%N      (* f: form feed *)
  else if (e =? 110)%N then Some 10%N      (* n: line feed *)
  else if (e =? 114)%N then Some 13%N      (* r: carriage return *)
  else if (e =? 116)%N then Some 9%N       (* t: tab *)
  else None.

Definition push_char (c : N) (r : option (jsstring * jsstring))
  : option (jsstring * jsstring) :=
  match r with
  | Some (s, rest) => Some (c :: s, rest)
  | None => None
  end.

(** The characters of a string literal, after its opening quote, up to and
    including the closing quote. *)
Fixpoint parse_chars (t : jsstring) : option (jsstring * jsstring) :=
  match t with
  | [] => None
  | c :: t1 =>
      if (c =? 34)%N then Some ([], t1)
      else if (c =? 92)%N then
        match t1 with
        | [] => None
        | e :: t2 =>
            if (e =? 117)%N then
              match t2 with
              | h1 :: (h2 :: (h3 :: (h4 :: t6))) =>
                  match hex4 h1 h2 h3 h4 with
                  | Some u => push_char u (parse_chars t6)
                  | None => None
                  end
              | _ => None
              end
            else
              match simple_escape e with
              | Some x => push_char x (parse_chars t2)
              | None => None
              end
        end
      else if (c <? 32)%N then None
      else push_char c (parse_chars t1)
  end.

Fixpoint span_digits (t : jsstring) : jsstring * jsstring :=
  match t with
  | c :: t' =>
      if is_digit c then let (ds, rest) := span_digits t' in (c :: ds, rest)
      else ([], t)
  | [] => ([], [])
  end.

(** A number: an optional minus sign; a zero, or a digit from 1 to 9 and any
    digits; then optionally a point and one digit or more; then optionally
    an [e] or [E], an optional sign and one digit or more. It is returned as
    written. *)
Definition parse_int_part (t : jsstring) : option (jsstring * jsstring) :=
  match t with
  | c :: t' =>
      if (c =? 48)%N then Some ([c], t')
      else if is_digit c then let (ds, rest) := span_digits t' in Some (c :: ds, rest)
      else None
  | [] => None
  end.

Definition parse_frac_part (t : jsstring) : option (jsstring * jsstring) :=
  match t with
  | c :: t' =>
      if (c =? 46)%N then
        match span_digits t' with
        | ([], _) => None
        | (ds, rest) => Some (c :: ds, rest)
        end
      else Some ([], t)
  | [] => Some ([], [])
  end.

Definition parse_exp_part (t : jsstring) : option (jsstring * jsstring) :=
  match t with
  | c :: t' =>
      if ((c =? 101) || (c =? 69))%N then
        let '(sign, t'') :=
          match t' with
          | s :: u => if ((s =? 43) || (s =? 45))%N then ([s], u) else ([], t')
          | [] => ([], [])
          end in
        match span_digits t'' with
        | ([], _) => None
        | (ds, rest) => Some (c :: sign ++ ds, rest)
        end
      else Some ([], t)
  | [] => Some ([], [])
  end.

Definition parse_number (t : jsstring) : option (jsstring * jsstring) :=
  let '(minus, t0) :=
    match t with
    | c :: t' => if (c =? 45)%N then ([c], t') else ([], t)
    | [] => ([], [])
    end in
  match parse_int_part t0 with
  | None => None
  | Some (i, t1) =>
      match parse_frac_part t1 with
      | None => None
      | Some (f, t2) =>
          match parse_exp_part t2 with
          | None => None
          | Some (e, t3) => Some (minus ++ i ++ f ++ e, t3)
          end
      end
  end.

(** Does the text start with the word? Then the rest. *)
Fixpoint strip_word (w t : jsstring) : option jsstring :=
  match w, t with
  | [], _ => Some t
  | _ :: _, [] => None
  | a :: w', c :: t' => if (a =? c)%N then strip_word w' t' else None
  end.

(** A value, the elements of an array after its first bracket, and the
    members of an object after its first brace. Every call of one of the
    three uses up one unit of [fuel]. *)
Fixpoint parse_value (fuel : nat) (t : jsstring) : option (json * jsstring) :=
  match fuel with
  | 0 => None
  | S f =>
      match skip_ws t with
      | [] => None
      | c :: r =>
          if (c =? 123)%N then
            match skip_ws r with
            | d :: r' => if (d =? 125)%N then Some (JObj [], r')
                         else parse_members f (d :: r') []
            | [] => None
            end
          else if (c =? 91)%N then
            match skip_ws r with
            | d :: r' => if (d =? 93)%N then Some (JArr [], r')
                         else parse_elements f (d :: r') []
            | [] => None
            end
          else if (c =? 34)%N then
            match parse_chars r with
            | Some (s, r') => Some (JStr s, r')
            | None => None
            end
          else
            match strip_word (str "true") (c :: r) with
            | Some r' => Some (JBool true, r')
            | None =>
                match strip_word (str "false") (c :: r) with
                | Some r' => Some (JBool false, r')
                | None =>
                    match strip_word (str "null") (c :: r) with
                    | Some r' => Some (JNull, r')
                    | None =>
                        match parse_number (c :: r) with
                        | Some (n, r') => Some (JNum n, r')
                        | None => None
                        end
                    end
                end
            end
      end
  end
with parse_elements (fuel : nat) (t : jsstring) (acc : list json)
  : option (json * jsstring) :=
  match fuel with
  | 0 => None
  | S f =>
      match parse_value f t with
      | None => None
      | Some (v, r) =>
          match skip_ws r with
          | d :: r' =>
              if (d =? 44)%N then parse_elements f r' (v :: acc)
              else if (d =? 93)%N then Some (JArr (rev (v :: acc)), r')
              else None
          | [] => None
          end
      end
  end
with parse_members (fuel : nat) (t : jsstring) (acc : list (jsstring * json))
  : option (json * jsstring) :=
  match fuel with
  | 0 => None
  | S f =>
      match skip_ws t with
      | q :: r =>
          if (q =? 34)%N then
            match parse_chars r with
            | None => None
            | Some (k, r1) =>
                match skip_ws r1 with
                | colon :: r2 =>
                    if (colon =? 58)%N then
                      match parse_value f r2 with
                      | None => None
                      | Some (v, r3) =>
                          match skip_ws r3 with
                          | d :: r4 =>
                              if (d =? 44)%N then parse_members f r4 ((k, v) :: acc)
                              else if (d =? 125)%N
                                   then Some (JObj (rev ((k, v) :: acc)), r4)
                              else None
                          | [] => None
                          end
                      end
                    else None
                | [] => None
                end
            end
          else None
      | [] => None
      end
  end.

(** [JSON.parse(text)]; [None] is the [SyntaxError]. Each unit of fuel is
    spent on a call that reads at least one character before the next call
    of its kind, so twice the length is more than is ever used: more fuel
    gives the same result ([JsonFacts.JSON_parse_fuel]). *)
Definition JSON_parse (t : jsstring) : option json :=
  match parse_value (2 * length t + 2) t with
  | Some (v, r) => match skip_ws r with [] => Some v | _ :: _ => None end
  | None => None
  end.

(** ** Reading the parsed value *)

(** What is left to the JavaScript engine: the floating-point reading of a
    number's text, and the wording of its own error messages. *)
Class JsEngine := {
  (** [ToBoolean]: is the number neither zero nor [NaN]? *)
  number_truthy : jsstring -> bool;
  (** [ToString] of the number. *)
  number_to_string : jsstring -> jsstring;
  (** The message of the [TypeError] for reading a property of [null]. *)
  null_deref_message : jsstring
}.

(** The last field of that name, as a repeated key overwrites. *)
Fixpoint lookup_field (k : jsstring) (fields : list (jsstring * json))
  : option json :=
  match fields with
  | [] => None
  | (k', v) :: rest =>
      match lookup_field k rest with
      | Some w => Some w
      | None => if bool_decide (k' = k) then Some v else None
      end
  end.

(** [v.k] for a value that is not [null], and a name [k] that no prototype
    defines (the sources read [message], [content], [response] and [done]):
    [None] is [undefined]. *)
Definition get_prop (v : json) (k : jsstring) : option json :=
  match v with
  | JObj fields => lookup_field k fields
  | _ => None
  end.

Section Coercions.
Context `{JsEngine}.

(** [ToBoolean] *)
Definition truthy (v : json) : bool :=
  match v with
  | JNull => false
  | JBool b => b
  | JNum n => number_truthy n
  | JStr s => match s with [] => false | _ :: _ => true end
  | JArr _ | JObj _ => true
  end.

Definition truthy_opt (v : option json) : bool :=
  match v with Some w => truthy w | None => false end.

Fixpoint join_with (sep : jsstring) (parts : list jsstring) : jsstring :=
  match parts with
  | [] => []
  | [p] => p
  | p :: rest => p ++ sep ++ join_with sep rest
  end.

(** [ToString], as the [+=] of a string and the value applies it; an
    array joins its elements with commas, [null] elements as empty. *)
Fixpoint to_string (v : json) : jsstring :=
  match v with
  | JNull => str "null"
  | JBool true => str "true"
  | JBool false => str "false"
  | JNum n => number_to_string n
  | JStr s => s
  | JArr items =>
      join_with (str ",")
        ((fix elems (l : list json) : list jsstring :=
            match l with
            | [] => []
            | x :: l' =>
                (match x with JNull => [] | _ => to_string x end) :: elems l'
            end) items)
  | JObj _ => str "[object Object]"
  end.
End Coercions.

End Json.
Export Json.

(* ===================================================================== *)
(** * The stream frame decoder: [chatWithOllama] *)
(* ===================================================================== *)

Module Ollama.

(** What a rejected promise carries: the sources only tell an [AbortError]
    from everything else, of which they show the message. *)
Inductive exn :=
| AbortError
| Failure (message : jsstring).

Record ChatMsg := { role : jsstring; content : jsstring }.

(** The argument [payload]; its [options] are passed on to the backend and
    read by nothing here, so they are left out. *)
Record Payload := { p_model : jsstring; p_messages : list ChatMsg }.

(** What the network does during one call. [fetch] rejects, or answers with
    a status that is not ok (the record carries the message of the [Error]
    the decoder then throws), or answers with a body. The body is read chunk
    by chunk, as [TextDecoder] hands the text over; between two reads the
    page goes on running, which [Meanwhile] events of a type [E] of the
    caller's choice stand for. The body ends or the connection breaks. *)
Inductive FetchResult :=
| FetchRejects (e : exn)
| FetchNotOk (message : jsstring)
| FetchOk.

Inductive ReadItem (E : Type) :=
| Chunk (text : jsstring)
| Meanwhile (ev : E).
Arguments Chunk {E} text.
Arguments Meanwhile {E} ev.

Inductive Ending :=
| Eof
| Breaks (e : exn).

Record Transport (E : Type) := {
  response : FetchResult;
  reads : list (ReadItem E);
  ending : Ending
}.
Arguments response {E} _.
Arguments reads {E} _.
Arguments ending {E} _.

(** [obj.message?.content ?? obj.response ?? ''], for [obj] other than
    [null]: never [null] or [undefined]. *)
Definition nullish (v : option json) : bool :=
  match v with
  | None | Some JNull => true
  | Some _ => false
  end.

Definition coalesce (a b : option json) : option json :=
  if nullish a then b else a.

Definition fragment_of (obj : json) : json :=
  let content :=
    match get_prop obj (str "message") with
    | None | Some JNull => None
    | Some m => get_prop m (str "content")
    end in
  match coalesce (coalesce content (get_prop obj (str "response")))
                 (Some (JStr [])) with
  | Some v => v
  | None => JStr []
  end.

Section Decoder.
Context `{JsEngine}.
(** The caller's state, and the caller's events. *)
Context {S E : Type}.
(** The callbacks, each optional. *)
Variable onDelta : option (json -> jsstring -> S -> S).
Variable onDone : option (jsstring -> S -> S).
(** What an event between two reads does to the caller's state, and
    whether the [signal] passed to [fetch] is aborted in a state. *)
Variable meanwhile : E -> S -> S.
Variable signal_aborted : S -> bool.
(** [fetch] sending the request. *)
Variable send : Payload -> S -> S.

Definition call_delta (piece : json) (acc : jsstring) (s : S) : S :=
  match onDelta with Some f => f piece acc s | None => s end.

Definition call_done (acc : jsstring) (s : S) : S :=
  match onDone with Some f => f acc s | None => s end.

(** Where the loop over the lines of a chunk stands. *)
Inductive Step :=
| Next (s : S) (acc : jsstring)
| Finished (s : S) (acc : jsstring)
| Threw (s : S) (e : exn).

(** [if (piece) { acc += piece; onDelta?.(piece, acc); }] *)
Definition take_fragment (obj : json) (s : S) (acc : jsstring) : S * jsstring :=
  let piece := fragment_of obj in
  if truthy piece
  then (call_delta piece (acc ++ to_string piece) s, acc ++ to_string piece)
  else (s, acc).

(** The body of the loop for a line that parsed:
    [const piece = obj.message?.content ?? obj.response ?? '';
     if (piece) { acc += piece; onDelta?.(piece, acc); }
     if (obj.done) { onDone?.(acc); return acc; }]
    Reading [obj.message] of [null] throws, outside any [try]. *)
Definition on_record (obj : json) (s : S) (acc : jsstring) : Step :=
  match obj with
  | JNull => Threw s (Failure null_deref_message)
  | _ =>
      let '(s1, acc1) := take_fragment obj s acc in
      if truthy_opt (get_prop obj (str "done"))
      then Finished (call_done acc1 s1) acc1
      else Next s1 acc1
  end.

(** [const s = line.trim(); if (!s) continue;
     let obj; try { obj = JSON.parse(s); } catch { continue; }] *)
Definition on_line (line : jsstring) (s : S) (acc : jsstring) : Step :=
  match trim line with
  | [] => Next s acc
  | t => match JSON_parse t with
         | None => Next s acc
         | Some obj => on_record obj s acc
         end
  end.


(** [for (const line of lines)] *)
Fixpoint on_lines (lines : list jsstring) (s : S) (acc : jsstring) : Step :=
  match lines with
  | [] => Next s acc
  | l :: ls =>
      match on_line l s acc with
      | Next s' acc' => on_lines ls s' acc'
      | r => r
      end
  end.

(** Where the [while (true)] loop stands once the script of reads is used
    up: still reading, with its three variables, or left by [return] or
    by an exception. *)
Inductive Pumped :=
| Reading (s : S) (acc buf : jsstring)
| Left (s : S) (r : exn + jsstring).


(** [buf += dec.decode(value, { stream: true });
     const lines = buf.split('\n');
     buf = lines.pop() || '';] and the loop over [lines]. A read that
    is pending when the signal is aborted rejects with [AbortError]. *)
Fixpoint pump (items : list (ReadItem E)) (s : S) (acc buf : jsstring) : Pumped :=
  match items with
  | [] => Reading s acc buf
  | Meanwhile ev :: rest =>
      let s' := meanwhile ev s in
      if signal_aborted s' then Left s' (inl AbortError)
      else pump rest s' acc buf
  | Chunk text :: rest =>
      let lines := split_nl (buf ++ text) in
      match on_lines (removelast lines) s acc with
      | Next s' acc' => pump rest s' acc' (List.last lines [])
      | Finished s' acc' => Left s' (inr acc')
      | Threw s' e => Left s' (inl e)
      end
  end.

(** After the loop:
    [if (buf.trim()) { try { const obj = JSON.parse(buf.trim());
       const piece = ...; if (piece) { acc += piece; onDelta?.(piece, acc); }
     } catch {} }]
    Here the [try] spans the property reads too. *)
Definition flush_tail (buf : jsstring) (s : S) (acc : jsstring) : S * jsstring :=
  match trim buf with
  | [] => (s, acc)
  | t => match JSON_parse t with
         | None | Some JNull => (s, acc)
         | Some obj => take_fragment obj s acc
         end
  end.

(** From [const reader = res.body.getReader()] to the end of the
    function. *)
Definition read_body (items : list (ReadItem E)) (e : Ending) (s : S)
  : S * (exn + jsstring) :=
  match pump items s [] [] with
  | Left s' r => (s', r)
  | Reading s' acc buf =>
      match e with
      | Breaks x => (s', inl x)
      | Eof =>
          let '(s1, acc1) := flush_tail buf s' acc in
          (call_done acc1 s1, inr acc1)
      end
  end.

(** [export async function chatWithOllama(base, payload,
      { signal, onDelta, onDone } = {})] *)
Definition chatWithOllama (payload : Payload) (net : Transport E) (s : S)
  : S * (exn + jsstring) :=
  match p_model payload, p_messages payload with
  | [], _ | _, [] =>
      (s, inl (Failure (str "Invalid payload: model and messages are required")))
  | _ :: _, _ :: _ =>
      let s0 := send payload s in
      match response net with
      | FetchRejects e => (s0, inl e)
      | FetchNotOk msg => (s0, inl (Failure msg))
      | FetchOk => read_body (reads net) (ending net) s0
      end
  end.
End Decoder.

(** ** The decoder as a producer of events

    The callbacks that only write down what they are called with. *)
Inductive StreamEvent :=
| Delta (piece : json) (acc : jsstring)
| Done (acc : jsstring).

Definition is_done (e : StreamEvent) : bool :=
  match e with Done _ => true | Delta _ _ => false end.

Section Events.
Context `{JsEngine}.

Definition log_delta : option (json -> jsstring -> list StreamEvent -> list StreamEvent) :=
  Some (fun piece acc log => log ++ [Delta piece acc]).
Definition log_done : option (jsstring -> list StreamEvent -> list StreamEvent) :=
  Some (fun acc log => log ++ [Done acc]).

Definition chunks_of (texts : list jsstring) : list (ReadItem Empty_set) :=
  map Chunk texts.

(** Nothing happens between the reads, and nothing aborts. *)
Definition no_event (ev : Empty_set) (log : list StreamEvent) : list StreamEvent := log.
Definition never_aborted (log : list StreamEvent) : bool := false.

(** The loop over the chunks of a body. *)
Definition feed (texts : list jsstring) : Pumped (S := list StreamEvent) :=
  pump log_delta log_done no_event never_aborted (chunks_of texts) [] [] [].

(** The events of a body that is read to its end. *)
Definition decode (texts : list jsstring) : list StreamEvent * (exn + jsstring) :=
  read_body log_delta log_done no_event never_aborted (chunks_of texts) Eof [].

End Events.

(** The texts of the chunks of a script, without what happens between. *)
Definition texts_of {E : Type} (items : list (ReadItem E)) : list jsstring :=
  flat_map (fun it => match it with Chunk text => [text] | Meanwhile _ => [] end) items.

End Ollama.
Export Ollama.

(* ===================================================================== *)
(** * The conversation session: [sendChat] and [stop] *)
(* ===================================================================== *)

Module Session.

Inductive UiRole := Du | Assistent.

Record UiMessage := { ui_role : UiRole; ui_content : jsstring }.

(** The calls of [lib/api.js] that [sendChat] makes. *)
Inductive ApiCall :=
| CreateChat (title : option jsstring) (model : jsstring)
| AppendMessage (chatId role content : jsstring)
| UpdateChat (chatId title model : jsstring)
| DeleteDraft
| ListChats.

(** The state of the component that [sendChat] reads and writes: React
    state, refs, and, to observe them, the requests and calls sent so far.
    The state is what the setters called so far make of it: the code
    reads [messages] only inside the updaters that it gives to
    [setMessages], and React gives an updater what the updaters before it
    have made. What an updater writes to [lastAssistantTextRef] besides is
    written when React runs the updater, which may be later than the call
    of [setMessages]: until then [lastAssistantText] is what the ref held
    before, and [unwritten] what the last updater not yet run has to write
    there. *)
Record App := {
  messages : list UiMessage;
  currentChatId : option jsstring;
  prompt : jsstring;
  error : jsstring;
  loading : bool;
  attachedDoc : bool;              (* is a document attached? *)
  liveBuffer : jsstring;           (* liveBufferRef.current *)
  flushTimer : bool;               (* is flushTimerRef.current set? *)
  lastAssistantText : jsstring;    (* lastAssistantTextRef.current *)
  unwritten : option jsstring;     (* what React has yet to write there *)
  abortRef : option bool;          (* abortRef.current: a controller, aborted or not *)
  requests : list Payload;         (* sent to the inference backend *)
  calls : list ApiCall             (* made on the storage API *)
}.

Definition setMessages (f : list UiMessage -> list UiMessage) (a : App) : App :=
  {| messages := f (messages a); currentChatId := currentChatId a;
     prompt := prompt a; error := error a; loading := loading a;
     attachedDoc := attachedDoc a; liveBuffer := liveBuffer a;
     flushTimer := flushTimer a; lastAssistantText := lastAssistantText a;
     unwritten := unwritten a;
     abortRef := abortRef a; requests := requests a; calls := calls a |}.

Definition setCurrentChatId (v : option jsstring) (a : App) : App :=
  {| messages := messages a; currentChatId := v;
     prompt := prompt a; error := error a; loading := loading a;
     attachedDoc := attachedDoc a; liveBuffer := liveBuffer a;
     flushTimer := flushTimer a; lastAssistantText := lastAssistantText a;
     unwritten := unwritten a;
     abortRef := abortRef a; requests := requests a; calls := calls a |}.

Definition setPrompt (v : jsstring) (a : App) : App :=
  {| messages := messages a; currentChatId := currentChatId a;
     prompt := v; error := error a; loading := loading a;
     attachedDoc := attachedDoc a; liveBuffer := liveBuffer a;
     flushTimer := flushTimer a; lastAssistantText := lastAssistantText a;
     unwritten := unwritten a;
     abortRef := abortRef a; requests := requests a; calls := calls a |}.

Definition setError (v : jsstring) (a : App) : App :=
  {| messages := messages a; currentChatId := currentChatId a;
     prompt := prompt a; error := v; loading := loading a;
     attachedDoc := attachedDoc a; liveBuffer := liveBuffer a;
     flushTimer := flushTimer a; lastAssistantText := lastAssistantText a;
     unwritten := unwritten a;
     abortRef := abortRef a; requests := requests a; calls := calls a |}.

Definition setLoading (v : bool) (a : App) : App :=
  {| messages := messages a; currentChatId := currentChatId a;
     prompt := prompt a; error := error a; loading := v;
     attachedDoc := attachedDoc a; liveBuffer := liveBuffer a;
     flushTimer := flushTimer a; lastAssistantText := lastAssistantText a;
     unwritten := unwritten a;
     abortRef := abortRef a; requests := requests a; calls := calls a |}.

Definition setAttachedDoc (v : bool) (a : App) : App :=
  {| messages := messages a; currentChatId := currentChatId a;
     prompt := prompt a; error := error a; loading := loading a;
     attachedDoc := v; liveBuffer := liveBuffer a;
     flushTimer := flushTimer a; lastAssistantText := lastAssistantText a;
     unwritten := unwritten a;
     abortRef := abortRef a; requests := requests a; calls := calls a |}.

Definition set_liveBuffer (v : jsstring) (a : App) : App :=
  {| messages := messages a; currentChatId := currentChatId a;
     prompt := prompt a; error := error a; loading := loading a;
     attachedDoc := attachedDoc a; liveBuffer := v;
     flushTimer := flushTimer a; lastAssistantText := lastAssistantText a;
     unwritten := unwritten a;
     abortRef := abortRef a; requests := requests a; calls := calls a |}.

Definition set_flushTimer (v : bool) (a : App) : App :=
  {| messages := messages a; currentChatId := currentChatId a;
     prompt := prompt a; error := error a; loading := loading a;
     attachedDoc := attachedDoc a; liveBuffer := liveBuffer a;
     flushTimer := v; lastAssistantText := lastAssistantText a;
     unwritten := unwritten a;
     abortRef := abortRef a; requests := requests a; calls := calls a |}.

Definition set_lastAssistantText (v : jsstring) (a : App) : App :=
  {| messages := messages a; currentChatId := currentChatId a;
     prompt := prompt a; error := error a; loading := loading a;
     attachedDoc := attachedDoc a; liveBuffer := liveBuffer a;
     flushTimer := flushTimer a; lastAssistantText := v;
     unwritten := unwritten a;
     abortRef := abortRef a; requests := requests a; calls := calls a |}.

Definition set_unwritten (v : option jsstring) (a : App) : App :=
  {| messages := messages a; currentChatId := currentChatId a;
     prompt := prompt a; error := error a; loading := loading a;
     attachedDoc := attachedDoc a; liveBuffer := liveBuffer a;
     flushTimer := flushTimer a; lastAssistantText := lastAssistantText a;
     unwritten := v;
     abortRef := abortRef a; requests := requests a; calls := calls a |}.

Definition set_abortRef (v : option bool) (a : App) : App :=
  {| messages := messages a; currentChatId := currentChatId a;
     prompt := prompt a; error := error a; loading := loading a;
     attachedDoc := attachedDoc a; liveBuffer := liveBuffer a;
     flushTimer := flushTimer a; lastAssistantText := lastAssistantText a;
     unwritten := unwritten a;
     abortRef := v; requests := requests a; calls := calls a |}.

Definition send_request (p : Payload) (a : App) : App :=
  {| messages := messages a; currentChatId := currentChatId a;
     prompt := prompt a; error := error a; loading := loading a;
     attachedDoc := attachedDoc a; liveBuffer := liveBuffer a;
     flushTimer := flushTimer a; lastAssistantText := lastAssistantText a;
     unwritten := unwritten a;
     abortRef := abortRef a; requests := requests a ++ [p]; calls := calls a |}.

Definition call_api (c : ApiCall) (a : App) : App :=
  {| messages := messages a; currentChatId := currentChatId a;
     prompt := prompt a; error := error a; loading := loading a;
     attachedDoc := attachedDoc a; liveBuffer := liveBuffer a;
     flushTimer := flushTimer a; lastAssistantText := lastAssistantText a;
     unwritten := unwritten a;
     abortRef := abortRef a; requests := requests a; calls := calls a ++ [c] |}.

(** [ms[ms.length - 1]] and [ms.slice(0, -1)] *)
Definition last_message (ms : list UiMessage) : option UiMessage := List.last (map Some ms) None.

(** React runs the updaters it was given and has not run yet: the last
    of them leaves its text in the ref. *)
Definition render (a : App) : App :=
  match unwritten a with
  | Some text => set_unwritten None (set_lastAssistantText text a)
  | None => a
  end.

(** The callback of the interval that [startFlush] sets:
    [const chunk = liveBufferRef.current; if (!chunk) return;
     liveBufferRef.current = '';
     setMessages(ms => {
       const last = ms[ms.length - 1];
       if (!last || last.role !== 'Assistent') {
         lastAssistantTextRef.current = chunk;
         return [...ms, { role: 'Assistent', content: chunk }]; }
       const merged = last.content + chunk;
       lastAssistantTextRef.current = merged;
       return [...ms.slice(0, -1), { ...last, content: merged }]; });]
    The updater's write to the ref waits for React to run the updater. *)
Definition flush (a : App) : App :=
  match liveBuffer a with
  | [] => a
  | chunk =>
      let a1 := set_liveBuffer [] a in
      match last_message (messages a1) with
      | Some {| ui_role := Assistent; ui_content := c |} =>
          let merged := c ++ chunk in
          setMessages (fun ms => removelast ms ++ [{| ui_role := Assistent; ui_content := merged |}])
            (set_unwritten (Some merged) a1)
      | _ =>
          setMessages (fun ms => ms ++ [{| ui_role := Assistent; ui_content := chunk |}])
            (set_unwritten (Some chunk) a1)
      end
  end.

(** [startFlush] and [stopFlush] *)
Definition startFlush (a : App) : App := set_flushTimer true a.
Definition stopFlush (a : App) : App := set_flushTimer false a.

(** [function stop() { abortRef.current?.abort(); stopFlush(); }] *)
Definition stop (a : App) : App :=
  stopFlush (match abortRef a with
             | Some _ => set_abortRef (Some true) a
             | None => a
             end).

(** What happens on the page while a stream is read or a request is
    awaited: the interval fires, the user presses the stop button, or
    React renders the component, which is when it runs the updaters it
    has been given since it last did. *)
Inductive PageEvent := TimerTick | StopClicked | Rendered.

Definition page_event (ev : PageEvent) (a : App) : App :=
  match ev with
  | TimerTick => if flushTimer a then flush a else a
  | StopClicked => stop a
  | Rendered => render a
  end.

Definition page_events (evs : list PageEvent) (a : App) : App :=
  foldl (fun s ev => page_event ev s) a evs.

Definition signal_aborted (a : App) : bool :=
  match abortRef a with Some b => b | None => false end.

(** What a call of [sendChat] closes over and does not change. The texts
    that lines 201 to 222 put together from the settings, the attached
    document and the prompt are taken as given. *)
Record Turn := {
  sendModel : jsstring;          (* resolveModelId(model, models) *)
  incognito : bool;
  keepDoc : bool;
  systemText : jsstring;         (* makeSystemText() *)
  contextMessages : list ChatMsg; (* the message of the attached document *)
  turnSuffix : jsstring;         (* extra + (suffixKeep || '') *)
  contextNote : jsstring         (* the note about the attachment *)
}.

(** How a call of the storage API ends. *)
Inductive ApiResult (A : Type) :=
| Ok (v : A)
| Err (message : jsstring).
Arguments Ok {A} v.
Arguments Err {A} message.

(** When React runs the updater that [setMessages] is given: inside the
    call, which it may do when the component has no update pending, or
    when it renders the component next, which it does not do while the
    code that called [setMessages] runs on. The scripts of page events
    say when React renders; for the first [onDone], whose updater is
    followed by a look at the ref with nothing awaited in between, the
    world says whether the updater has run by then. *)
Inductive Scheduling := AtOnce | AtNextRender.

(** What the outside world does during the call: how the calls of the
    storage API end, what the two kinds of stream carry and what happens
    on the page while they are read, what happens on the page while the
    append of the user's text is awaited, the one await after which
    [sendChat] reads the ref, and when React runs the updater of the
    first [onDone]. *)
Record World := {
  createChat : ApiResult jsstring;           (* the [id] of the new chat *)
  mainStream : Transport PageEvent;
  repairStream : nat -> Transport PageEvent; (* by the value of [tries] *)
  appendUser : ApiResult unit;
  whileAppending : list PageEvent;
  appendAssistant : ApiResult unit;
  updateChat : ApiResult unit;
  deleteDraft : ApiResult unit;
  onDoneUpdater : Scheduling                 (* of the updater of the first [onDone] *)
}.

Section Turn.
Context `{JsEngine}.
Variable t : Turn.
Variable w : World.

(** [onDelta: (piece) => { liveBufferRef.current += piece; startFlush(); }] *)
Definition onDelta (piece : json) (acc : jsstring) (a : App) : App :=
  startFlush (set_liveBuffer (liveBuffer a ++ to_string piece) a).

(** What both [onDone] callbacks start with:
    [stopFlush(); setMessages(ms => { const last = ms[ms.length - 1];
      if (!last || last.role !== 'Assistent') return ms;
      const cleaned = normalizeText(sanitizeAssistant(last.content));
      lastAssistantTextRef.current = cleaned;
      return [...ms.slice(0, -1), { ...last, content: cleaned }]; });]
    Here too the write to the ref waits for React to run the updater. *)
Definition clean (a : App) : App :=
  match last_message (messages a) with
  | Some {| ui_role := Assistent; ui_content := c |} =>
      let cleaned := normalization_pass c in
      setMessages (fun ms => removelast ms ++ [{| ui_role := Assistent; ui_content := cleaned |}])
        (set_unwritten (Some cleaned) a)
  | _ => a
  end.

Definition settle (a : App) : App := clean (stopFlush a).

Definition repair_prompt (excerpt : jsstring) : jsstring :=
  str "Fahre **nahtlos** fort und **schlie" ++ [223%N]
  ++ str "e den offenen Code-Block**. Keine Meta-Texte, keine Einleitung."
  ++ [NL] ++ str "Vorheriger Ausschnitt:" ++ [NL] ++ str "<<<" ++ [NL]
  ++ excerpt ++ [NL] ++ str ">>>".

Definition repair_payload (excerpt : jsstring) : Payload :=
  {| p_model := sendModel t;
     p_messages := [ {| role := str "system"; content := systemText t |};
                     {| role := str "user"; content := repair_prompt excerpt |} ] |}.

(** [let tries = 0;
     while (tries < 1 && hasOpenCodeFence(lastAssistantTextRef.current)) {
       const excerpt = lastAssistantTextRef.current.slice(-800);
       const ctrl2 = new AbortController(); abortRef.current = ctrl2;
       await chatWithOllama(host, { ... }, { signal: ctrl2.signal, onDelta, onDone });
       tries++; }]
    inside [try { ... } catch {}]: a call that throws ends the loop.
    [fuel] bounds the rounds of the model; [repair_loop_fuel] shows that
    one is as good as any. *)
Fixpoint repair_loop (fuel tries : nat) (a : App) : App :=
  match fuel with
  | 0 => a
  | S fuel' =>
      if (tries <? 1)%nat && hasOpenCodeFence (lastAssistantText a) then
        let excerpt := slice (lastAssistantText a) (-800) None in
        let a1 := set_abortRef (Some false) a in
        match chatWithOllama (Some onDelta) (Some (fun _ => settle))
                page_event signal_aborted send_request
                (repair_payload excerpt) (repairStream w tries) a1 with
        | (a2, inr _) => repair_loop fuel' (S tries) a2
        | (a2, inl _) => a2
        end
      else a
  end.

Definition truthy_id (chatId : option jsstring) : bool :=
  match chatId with Some (_ :: _) => true | _ => false end.

(** One awaited call of the storage API inside [try { ... } catch {}]: the
    call is made, and what follows runs when it succeeded. *)
Definition attempt {A : Type} (c : ApiCall) (r : ApiResult A)
           (next : App -> App) (a : App) : App :=
  match r with
  | Ok _ => next (call_api c a)
  | Err _ => call_api c a
  end.

(** [if (!incognito && chatId) { try {
       await appendMessage(chatId, { role: 'user', content: userTextRaw });
       const finalText = lastAssistantTextRef.current || '';
       await appendMessage(chatId, { role: 'assistant', content: finalText });
       const title = (userTextRaw || 'Chat').slice(0, 60);
       await updateChat(chatId, { title, model: sendModel });
       await deleteDraft(); refreshChatList(); } catch {} }] *)
Definition title_of (userTextRaw : jsstring) : jsstring :=
  slice (match userTextRaw with [] => str "Chat" | _ => userTextRaw end) 0 (Some 60%Z).

Definition persist (chatId : option jsstring) (userTextRaw : jsstring) (a : App) : App :=
  if negb (incognito t) && truthy_id chatId then
    let cid := default [] chatId in
    attempt (AppendMessage cid (str "user") userTextRaw) (appendUser w)
      (fun a1 =>
         let a2 := page_events (whileAppending w) a1 in
         attempt (AppendMessage cid (str "assistant") (lastAssistantText a2))
           (appendAssistant w)
           (attempt (UpdateChat cid (title_of userTextRaw) (sendModel t))
              (updateChat w)
              (attempt DeleteDraft (deleteDraft w) (call_api ListChats)))
           a2)
      a
  else a.

(** The [onDone] callback of the first call. It is an [async] function
    whose promise [chatWithOllama] does not await: it runs on while
    [chatWithOllama] returns and [sendChat] ends. Nothing of [sendChat]
    runs after that return and nothing the callback awaits can reject out
    of it, so the callback is run here to its end where it is called.

    [stopFlush(); setMessages(ms => ...);] and then, with nothing
    awaited in between, the loop, which reads
    [lastAssistantTextRef.current] for its condition and for the excerpt:
    it finds there what the updater has written when React has run the
    updater inside [setMessages], and what the ref held before when React
    has put the updater off. *)
Definition onDone (chatId : option jsstring) (userTextRaw : jsstring)
           (acc : jsstring) (a : App) : App :=
  let a0 := settle a in
  let a1 := match onDoneUpdater w with
            | AtOnce => render a0
            | AtNextRender => a0
            end in
  let a2 := repair_loop 1 0 a1 in
  let a3 := persist chatId userTextRaw a2 in
  let a4 := if keepDoc t then a3 else setAttachedDoc false a3 in
  set_abortRef None (setLoading false a4).

Definition main_payload (userTextRaw : jsstring) : Payload :=
  {| p_model := sendModel t;
     p_messages := {| role := str "system"; content := systemText t |}
                   :: contextMessages t
                   ++ [ {| role := str "user"; content := userTextRaw ++ turnSuffix t |} ] |}.

(** The first call of [chatWithOllama], with the state it leaves and how
    it ends. *)
Definition main_call (chatId : option jsstring) (userTextRaw : jsstring) (a : App)
  : App * (exn + jsstring) :=
  chatWithOllama (Some onDelta) (Some (onDone chatId userTextRaw))
    page_event signal_aborted send_request
    (main_payload userTextRaw) (mainStream w) a.

(** [catch (e) { if (e.name !== 'AbortError') setError(`Fehler: ${e.message}`);
      setLoading(false); abortRef.current = null; stopFlush();
      liveBufferRef.current = ''; }] *)
Definition on_rejected (e : exn) (a : App) : App :=
  let a1 := match e with
            | AbortError => a
            | Failure m => setError (str "Fehler: " ++ m) a
            end in
  set_liveBuffer [] (stopFlush (set_abortRef None (setLoading false a1))).

(** From [let chatId = currentChatId] on. *)
Definition converse (userTextRaw : jsstring) (a : App) : App :=
  let run chatId a0 :=
    match main_call chatId userTextRaw a0 with
    | (a1, inr _) => a1
    | (a1, inl e) => on_rejected e a1
    end in
  if negb (incognito t) && negb (truthy_id (currentChatId a)) then
    let a0 := call_api (CreateChat None (sendModel t)) a in
    match createChat w with
    | Ok cid => run (Some cid) (setCurrentChatId (Some cid) a0)
    | Err m =>
        setLoading false
          (setError (str "Chat-Erstellung fehlgeschlagen: " ++ m) a0)
    end
  else run (currentChatId a) a.

(** [async function sendChat()] *)
Definition sendChat (a : App) : App :=
  let userTextRaw := trim (prompt a) in
  match userTextRaw, attachedDoc a with
  | [], false => a
  | _, _ =>
      let a1 := setPrompt [] (setError [] a) in
      match sendModel t with
      | [] => setError (str "Bitte ein Modell w" ++ [228%N] ++ str "hlen.") a1
      | _ :: _ =>
          let shown := match userTextRaw with [] => str "(kein Text)" | _ => userTextRaw end in
          let a2 :=
            setMessages (fun ms => ms ++ [ {| ui_role := Assistent; ui_content := contextNote t |} ]) a1 in
          let a3 :=
            setMessages (fun ms => ms ++ [ {| ui_role := Du; ui_content := shown |};
                                           {| ui_role := Assistent; ui_content := [] |} ]) a2 in
          converse userTextRaw (set_abortRef (Some false) (setLoading true a3))
      end
  end.
End Turn.

(** ** Vocabulary of the statements about a turn *)

Definition is_append (c : ApiCall) : bool :=
  match c with AppendMessage _ _ _ => true | _ => false end.

(** What a stream being read does not touch, but for the stop button. *)
Definition durable (a : App) :=
  (currentChatId a, prompt a, error a, loading a, attachedDoc a, requests a, calls a).

Definition still (a a' : App) : Prop :=
  durable a' = durable a /\ abortRef a' = abortRef a.







(** What the ref holds once React has rendered. *)
Definition ref_when_rendered (a : App) : jsstring :=
  default (lastAssistantText a) (unwritten a).

End Session.
Export Session.

(* ===================================================================== *)
(** * The chat storage API *)
(* ===================================================================== *)

Module Backend.

(** ** The tables

    The rows of [chats] and [messages] with the columns of the schema.
    Identifiers and timestamps are texts; where SQL compares two of them it
    does so by the collation of the column, and a text stands here for what
    the collation makes of it. *)
Record ChatRow := {
  chat_id : jsstring;
  chat_user_id : jsstring;
  chat_title : option jsstring;
  chat_model : option jsstring;
  chat_incognito : bool;
  chat_created_at : jsstring;
  chat_updated_at : jsstring
}.

Record MessageRow := {
  msg_id : jsstring;
  msg_chat_id : jsstring;
  msg_role : jsstring;
  msg_content : jsstring;
  msg_idx : Z;
  msg_created_at : jsstring
}.

Record DB := {
  chats_table : list ChatRow;
  messages_table : list MessageRow
}.

(** [SELECT ... FROM chats WHERE id = ? AND user_id = ? LIMIT 1] *)
Definition select_chat (db : DB) (id user : jsstring) : list ChatRow :=
  take 1 (filter (fun c => chat_id c = id ∧ chat_user_id c = user) (chats_table db)).

(** The rows [WHERE chat_id = ?], in table order. *)
Definition messages_of (db : DB) (chat : jsstring) : list MessageRow :=
  filter (fun m => msg_chat_id m = chat) (messages_table db).

(** [SELECT COALESCE(MAX(idx), -1) AS m FROM messages WHERE chat_id = ?] *)
Definition max_idx (rows : list MessageRow) : Z :=
  match rows with
  | [] => (-1)%Z
  | r :: rs => fold_left (fun m x => Z.max m (msg_idx x)) rs (msg_idx r)
  end.

Definition select_max_idx (db : DB) (chat : jsstring) : Z :=
  max_idx (messages_of db chat).

(** [INSERT INTO messages ... VALUES (?,?,?,?,?,?)]: refused ([None]) when
    the primary key or [UNIQUE KEY uq_chat_idx (chat_id, idx)] is taken, or
    when the chat of the foreign key is missing. *)
Definition key_free (db : DB) (row : MessageRow) : bool :=
  forallb (fun m => negb (bool_decide (msg_id m = msg_id row))
                    && negb (bool_decide (msg_chat_id m = msg_chat_id row)
                             && (msg_idx m =? msg_idx row)%Z))
          (messages_table db)
  && existsb (fun c => bool_decide (chat_id c = msg_chat_id row)) (chats_table db).

Definition insert_message (db : DB) (row : MessageRow) : option DB :=
  if key_free db row
  then Some {| chats_table := chats_table db;
               messages_table := messages_table db ++ [row] |}
  else None.

(** [UPDATE chats SET updated_at = ? WHERE id = ?] *)
Definition touch (ts : jsstring) (c : ChatRow) : ChatRow :=
  {| chat_id := chat_id c; chat_user_id := chat_user_id c;
     chat_title := chat_title c; chat_model := chat_model c;
     chat_incognito := chat_incognito c; chat_created_at := chat_created_at c;
     chat_updated_at := ts |}.

Definition update_chat_timestamp (db : DB) (chat ts : jsstring) : DB :=
  {| chats_table := map (fun c => if bool_decide (chat_id c = chat) then touch ts c else c)
                        (chats_table db);
     messages_table := messages_table db |}.

(** [ORDER BY idx ASC] *)
Fixpoint insert_by_idx (r : MessageRow) (rows : list MessageRow) : list MessageRow :=
  match rows with
  | [] => [r]
  | x :: rest =>
      if (msg_idx r <? msg_idx x)%Z then r :: x :: rest
      else x :: insert_by_idx r rest
  end.

Definition order_by_idx (rows : list MessageRow) : list MessageRow :=
  foldr insert_by_idx [] rows.

(** ** Statements and their failures

    What the handler awaits, in order: a connection of the pool, and then
    what it sends over that connection. Any of these may be rejected for a
    reason the tables do not show (a lost connection, a lock wait that times
    out, a deadlock, a value the column does not take): the [Oracle] says
    which. [ROLLBACK] is sent from two places, the [try] when the chat is
    missing and the [catch], and either may be rejected too.
    [conn.release()] is not awaited and is taken to go through. *)
Inductive Place := InTry | InCatch.

Inductive Statement :=
| GetConnection
| BeginTransaction
| SelectChat (id user : jsstring)
| SelectMaxIdxForUpdate (chat : jsstring)
| SelectMessages (chat : jsstring)
| InsertMessage (row : MessageRow)
| UpdateChatTimestamp (chat ts : jsstring)
| Commit
| Rollback (place : Place)
| Release.

Definition Oracle := Statement -> bool.

(** A connection: the committed tables, the tables as the open transaction
    has them, and the statements sent. *)
Record Conn := {
  committed : DB;
  working : DB;
  sent : list Statement
}.

(** A step of the handler: it returns or throws. *)
Inductive Outcome (A : Type) :=
| Returns (x : A)
| Throws.
Arguments Returns {A} x.
Arguments Throws {A}.

Definition M (A : Type) : Type := Conn -> Conn * Outcome A.

#[export] Instance M_ret : MRet M := fun A x c => (c, Returns x).

#[export] Instance M_bind : MBind M := fun A B k m c =>
  match m c with
  | (c', Returns x) => k x c'
  | (c', Throws) => (c', Throws)
  end.

Definition record (q : Statement) (c : Conn) : Conn :=
  {| committed := committed c; working := working c; sent := sent c ++ [q] |}.

(** [await conn.query(...)] and the like: the statement is sent; it fails
    when the oracle says so or when the tables refuse it. *)
Definition statement {A : Type} (o : Oracle) (q : Statement)
           (run : Conn -> option (A * Conn)) : M A :=
  fun c =>
    let c' := record q c in
    if o q then (c', Throws)
    else match run c' with
         | Some (x, c'') => (c'', Returns x)
         | None => (c', Throws)
         end.

Section Handlers.
Context `{JsEngine}.
Variable o : Oracle.

Definition beginTransaction : M unit :=
  statement o BeginTransaction
    (fun c => Some (tt, {| committed := committed c; working := committed c;
                           sent := sent c |})).

Definition query_chat (id user : jsstring) : M (list ChatRow) :=
  statement o (SelectChat id user)
    (fun c => Some (select_chat (working c) id user, c)).

Definition query_max_for_update (chat : jsstring) : M Z :=
  statement o (SelectMaxIdxForUpdate chat)
    (fun c => Some (select_max_idx (working c) chat, c)).

Definition query_insert (row : MessageRow) : M unit :=
  statement o (InsertMessage row)
    (fun c => match insert_message (working c) row with
              | Some db => Some (tt, {| committed := committed c; working := db;
                                        sent := sent c |})
              | None => None
              end).

Definition query_update (chat ts : jsstring) : M unit :=
  statement o (UpdateChatTimestamp chat ts)
    (fun c => Some (tt, {| committed := committed c;
                           working := update_chat_timestamp (working c) chat ts;
                           sent := sent c |})).

Definition commit : M unit :=
  statement o Commit
    (fun c => Some (tt, {| committed := working c; working := working c;
                           sent := sent c |})).

(** [await conn.rollback()]: when it is rejected, the connection is left
    with the transaction as it stands. *)
Definition rollback (place : Place) : M unit :=
  statement o (Rollback place)
    (fun c => Some (tt, {| committed := committed c; working := committed c;
                           sent := sent c |})).

Definition release (c : Conn) : Conn := record Release c.

(** What the handler answers. *)
Inductive Reply :=
| Appended (id : jsstring) (idx : Z) (created_at : jsstring)   (* 200 *)
| Refused (status : Z) (error : jsstring).

(** [app.post('/chats/:id/messages', auth, async (req, res) => ...)]:
    [user] is [req.user.id], [chat] is [req.params.id], [role] and
    [content] are the fields of the body ([None] for a missing one), [id]
    is what [nanoid()] returns and [ts] what [nowISO()] returns. *)
Definition append_transaction (id ts user chat role content : jsstring) : M Reply :=
  beginTransaction ;;
  crows ← query_chat chat user ;
  match crows with
  | [] => rollback InTry ;; mret (Refused 404 (str "not found"))
  | _ :: _ =>
      m ← query_max_for_update chat ;
      let nextIdx := (m + 1)%Z in
      query_insert {| msg_id := id; msg_chat_id := chat; msg_role := role;
                      msg_content := content; msg_idx := nextIdx;
                      msg_created_at := ts |} ;;
      query_update chat ts ;;
      commit ;;
      mret (Appended id nextIdx ts)
  end.

(** The handler. [pool.getConnection()] is awaited before the [try]: when
    it rejects, so does the handler, and no reply is sent ([None]). The
    [catch] awaits [conn.rollback()] before it replies: when that rejects,
    [res.status(500)] is not reached, the [finally] releases the
    connection, and no reply is sent either. *)
Definition post_message (id ts user chat : jsstring) (role content : option json)
           (db : DB) : Conn * option Reply :=
  let c0 := {| committed := db; working := db; sent := [] |} in
  match role, content with
  | Some r, Some (JStr text) =>
      if truthy r then
        if o GetConnection then (c0, None)
        else
          match append_transaction id ts user chat (to_string r) text c0 with
          | (c1, Returns reply) => (release c1, Some reply)
          | (c1, Throws) =>
              match rollback InCatch c1 with
              | (c2, Returns _) =>
                  (release c2, Some (Refused 500 (str "append failed")))
              | (c2, Throws) => (release c2, None)
              end
          end
      else (c0, Some (Refused 400 (str "role and content required")))
  | _, _ => (c0, Some (Refused 400 (str "role and content required")))
  end.

(** [app.get('/chats/:id', auth, async (req, res) => ...)], on the pool:
    each query sees what is committed. *)
Inductive ChatReply :=
| Listing (meta : ChatRow) (messages : list MessageRow)
| NoListing (status : Z) (error : jsstring).

Definition get_chat (user chat : jsstring) (db : DB) : ChatReply :=
  if o (SelectChat chat user) then NoListing 500 (str "get chat failed")
  else match select_chat db chat user with
       | [] => NoListing 404 (str "not found")
       | c :: _ =>
           if o (SelectMessages (chat_id c))
           then NoListing 500 (str "get chat failed")
           else Listing c (order_by_idx (messages_of db (chat_id c)))
       end.
End Handlers.

(** ** Vocabulary of the statements about the handler *)

(** The oracle under which no statement is rejected. *)
Definition no_faults : Oracle := fun _ => false.

(** The row that the handler inserts. *)
Definition new_row (db : DB) (id ts chat role text : jsstring) : MessageRow :=
  {| msg_id := id; msg_chat_id := chat; msg_role := role; msg_content := text;
     msg_idx := (select_max_idx db chat + 1)%Z; msg_created_at := ts |}.

(** Some step of the transaction fails: a statement is rejected, the chat
    is not there or not the caller's, or the tables refuse the row. *)
Definition step_fails (o : Oracle) (db : DB) (id ts user chat role text : jsstring) : Prop :=
  o BeginTransaction = true
  \/ o (SelectChat chat user) = true
  \/ select_chat db chat user = []
  \/ o (SelectMaxIdxForUpdate chat) = true
  \/ o (InsertMessage (new_row db id ts chat role text)) = true
  \/ insert_message db (new_row db id ts chat role text) = None
  \/ o (UpdateChatTimestamp chat ts) = true
  \/ o Commit = true.

(** The transaction gets as far as finding that the chat is not there or
    not the caller's: the one failure after which [ROLLBACK] is sent from
    the [try]. *)
Definition finds_no_chat (o : Oracle) (db : DB) (chat user : jsstring) : Prop :=
  o BeginTransaction = false
  /\ o (SelectChat chat user) = false
  /\ select_chat db chat user = [].

End Backend.
Export Backend.

(* ===================================================================== *)
(** * The append handler under concurrent requests *)
(* ===================================================================== *)

Module Ledger.

(** A request for [POST /chats/:id/messages] that passed [auth]. *)
Record Request := {
  req_user : jsstring;
  req_chat : jsstring;
  req_role : option json;
  req_content : option json
}.

(** Where a handler stands: before each of its awaited calls, with what it
    has computed so far, or after its reply. A handler whose
    [pool.getConnection()] rejects, outside its [try], never replies. *)
Inductive PC :=
| Arrived                        (* before the check of the body *)
| Connected                      (* before [beginTransaction] *)
| InTransaction                  (* before the query on [chats] *)
| ChatFound                      (* before [SELECT ... FOR UPDATE] *)
| MaxRead (m : Z)                (* before the insert, with the maximum read *)
| Inserted (row : MessageRow)    (* before the update of [chats] *)
| Updated (row : MessageRow)     (* before [commit] *)
| Committed (row : MessageRow)   (* committed, before the reply is sent *)
| Replied (r : Reply)
| Lost.

Record Thread := { request : Request; pc : PC }.

(** The server: what is committed, who holds the exclusive lock that
    [SELECT ... FOR UPDATE] may take on the messages of a chat until the
    transaction ends, and the handlers in flight. The rows a transaction
    has written and not committed are in its [pc]. *)
Record System := {
  store : DB;
  locks : gmap jsstring nat;
  threads : list Thread
}.

(** Between the locking read and the end of the transaction. *)
Definition in_critical (p : PC) : bool :=
  match p with
  | MaxRead _ | Inserted _ | Updated _ => true
  | _ => false
  end.

(** The row that the transaction has written and not committed. *)
Definition pending_row (p : PC) : list MessageRow :=
  match p with
  | Inserted row | Updated row => [row]
  | _ => []
  end.

(** The rows other transactions have written and not committed. *)
Definition pending_rows (i : nat) (ths : list Thread) : list MessageRow :=
  concat (imap (fun j th => if bool_decide (j = i) then [] else pending_row (pc th)) ths).

Definition moved (p : PC) (th : Thread) : Thread :=
  {| request := request th; pc := p |}.

Definition set_pc (i : nat) (p : PC) (w : System) : System :=
  {| store := store w; locks := locks w; threads := alter (moved p) i (threads w) |}.

(** The end of a transaction gives its lock back. *)
Definition unlock (i : nat) (chat : jsstring) (w : System) : System :=
  {| store := store w;
     locks := if bool_decide (locks w !! chat = Some i) then delete chat (locks w)
              else locks w;
     threads := threads w |}.

(** [catch { await conn.rollback(); res.status(500).json(...) }] *)
Definition fail (i : nat) (chat : jsstring) (w : System) : System :=
  set_pc i (Replied (Refused 500 (str "append failed"))) (unlock i chat w).

Section Steps.
Context `{JsEngine}.

(** The row of the insert: [[id, req.params.id, String(role),
    String(content), nextIdx, ts]], after the maximum [m] was read. *)
Definition row_of (rq : Request) (m : Z) (id ts : jsstring) : MessageRow :=
  {| msg_id := id; msg_chat_id := req_chat rq;
     msg_role := match req_role rq with Some r => to_string r | None => [] end;
     msg_content := match req_content rq with Some (JStr s) => s | _ => [] end;
     msg_idx := (m + 1)%Z;
     msg_created_at := ts |}.

(** Whether the locking read of the messages of a chat keeps other
    locking reads of them out until the transaction ends. That is for the
    storage engine to say, from the rows it finds to lock: a lock on index
    records excludes, a lock on the gap where rows would be need not. *)
Variable exclusive : DB -> jsstring -> bool.

(** [SELECT COALESCE(MAX(idx), -1) ... FOR UPDATE] of handler [i]: it waits
    ([None]) while another transaction holds the chat, and reads what is
    committed. *)
Definition locking_read (i : nat) (chat : jsstring) (w : System) : option System :=
  let m := select_max_idx (store w) chat in
  if exclusive (store w) chat then
    match locks w !! chat with
    | Some _ => None
    | None =>
        Some (set_pc i (MaxRead m)
                {| store := store w; locks := <[chat := i]> (locks w);
                   threads := threads w |})
    end
  else Some (set_pc i (MaxRead m) w).

(** One awaited call of handler [i] and the code up to its next one.
    [fault] says whether the call is rejected; [id] and [ts] are what
    [nanoid()] and [nowISO()] return when the step calls them. The commit
    is two steps: the tables change when the server commits, and the
    handler replies when it runs again, which other handlers may do before
    it. [None]: the handler cannot move, because it has replied, or because
    it waits for a lock or for the end of a transaction that has written
    the key it is about to write. *)
Definition advance (fault : bool) (id ts : jsstring) (i : nat) (w : System)
  : option System :=
  match threads w !! i with
  | None => None
  | Some th =>
      let rq := request th in
      let chat := req_chat rq in
      match pc th with
      | Replied _ | Lost => None
      | Arrived =>
          match req_role rq, req_content rq with
          | Some r, Some (JStr _) =>
              if truthy r
              then Some (set_pc i (if fault then Lost else Connected) w)
              else Some (set_pc i (Replied (Refused 400 (str "role and content required"))) w)
          | _, _ =>
              Some (set_pc i (Replied (Refused 400 (str "role and content required"))) w)
          end
      | Connected =>
          if fault then Some (fail i chat w)
          else Some (set_pc i InTransaction w)
      | InTransaction =>
          if fault then Some (fail i chat w)
          else match select_chat (store w) chat (req_user rq) with
               | [] => Some (set_pc i (Replied (Refused 404 (str "not found"))) w)
               | _ :: _ => Some (set_pc i ChatFound w)
               end
      | ChatFound =>
          if fault then Some (fail i chat w)
          else locking_read i chat w
      | MaxRead m =>
          if fault then Some (fail i chat w)
          else
            let row := row_of rq m id ts in
            if key_free (store w) row then
              if key_free {| chats_table := chats_table (store w);
                             messages_table := pending_rows i (threads w) |} row
              then Some (set_pc i (Inserted row) w)
              else None
            else Some (fail i chat w)
      | Inserted row =>
          if fault then Some (fail i chat w)
          else Some (set_pc i (Updated row) w)
      | Updated row =>
          if fault then Some (fail i chat w)
          else
            let db := {| chats_table := chats_table (store w);
                         messages_table := messages_table (store w) ++ [row] |} in
            Some (set_pc i (Committed row)
                    (unlock i chat
                       {| store := update_chat_timestamp db chat (msg_created_at row);
                          locks := locks w; threads := threads w |}))
      | Committed row =>
          Some (set_pc i (Replied (Appended (msg_id row) (msg_idx row) (msg_created_at row)))
                  w)
      end
  end.

(** The server moves when one of its handlers does, in any order. *)
Definition step (w w' : System) : Prop :=
  exists fault id ts i, advance fault id ts i w = Some w'.

(** The server as it starts: chats, no message yet, the requests that
    will come in. *)
Definition initial (chats : list ChatRow) (rqs : list Request) : System :=
  {| store := {| chats_table := chats; messages_table := [] |};
     locks := ∅;
     threads := map (fun rq => {| request := rq; pc := Arrived |}) rqs |}.

Definition reachable (w : System) : Prop :=
  exists chats rqs, rtc step (initial chats rqs) w.

(** ** One handler on its own

    The call a handler awaits next, and the run of a single handler to
    its end under an oracle of rejected calls: what [post_message]
    describes in one piece. *)
Definition awaited (id ts : jsstring) (th : Thread) : option Statement :=
  let rq := request th in
  match pc th with
  | Arrived => Some GetConnection
  | Connected => Some BeginTransaction
  | InTransaction => Some (SelectChat (req_chat rq) (req_user rq))
  | ChatFound => Some (SelectMaxIdxForUpdate (req_chat rq))
  | MaxRead m => Some (InsertMessage (row_of rq m id ts))
  | Inserted row => Some (UpdateChatTimestamp (req_chat rq) (msg_created_at row))
  | Updated _ => Some Commit
  | Committed _ | Replied _ | Lost => None
  end.

Definition alone (db : DB) (rq : Request) : System :=
  {| store := db; locks := ∅; threads := [ {| request := rq; pc := Arrived |} ] |}.

Fixpoint run_alone (o : Oracle) (id ts : jsstring) (fuel : nat) (w : System) : System :=
  match fuel with
  | O => w
  | S fuel' =>
      match threads w !! 0%nat with
      | Some th =>
          let fault := match awaited id ts th with Some q => o q | None => false end in
          match advance fault id ts 0 w with
          | Some w' => run_alone o id ts fuel' w'
          | None => w
          end
      | None => w
      end
  end.
End Steps.

(** Two engines. The first serializes the handlers of a chat from their
    locking read on. The second does so only when the chat has a row whose
    index record the read can lock; on a chat without messages, two
    handlers may both read -1. *)
Definition always_exclusive (db : DB) (chat : jsstring) : bool := true.


(** The appends to a chat that succeeded: the handlers whose transaction
    is committed. They have replied 200, or do so in their next step. *)
Definition appended_to (chat : jsstring) (th : Thread) : bool :=
  match pc th with
  | Committed _ | Replied (Appended _ _ _) => bool_decide (req_chat (request th) = chat)
  | _ => false
  end.

Definition count_appended (chat : jsstring) (ths : list Thread) : nat :=
  length (filter (fun th => appended_to chat th = true) ths).

Definition successful_appends (w : System) (chat : jsstring) : nat :=
  count_appended chat (threads w).

Definition one_if (b : bool) : nat := if b then 1 else 0.

(** What holds of the server at any time, whatever the locking read
    excludes. Of each chat, its messages lie in the table in the order of
    their positions, which are the numbers from 0 to the number of appends
    that succeeded. The maximum a handler has read is a position of the
    chat, or -1; it may be stale. A row written and not yet committed
    carries the next position of its chat, and no other transaction has
    written a row of that chat: [uq_chat_idx] keeps it out. *)
Record invariant (w : System) : Prop := {
  inv_positions : forall chat,
    map msg_idx (messages_of (store w) chat)
    = seqZ 0 (Z.of_nat (successful_appends w chat));
  inv_max : forall i th m,
    threads w !! i = Some th -> pc th = MaxRead m ->
    (-1 <= m < Z.of_nat (successful_appends w (req_chat (request th))))%Z;
  inv_row : forall i th row,
    threads w !! i = Some th -> pending_row (pc th) = [row] ->
    msg_chat_id row = req_chat (request th)
    /\ msg_idx row = Z.of_nat (successful_appends w (req_chat (request th)));
  inv_single : forall i j thi thj ri rj,
    threads w !! i = Some thi -> threads w !! j = Some thj ->
    pending_row (pc thi) = [ri] -> pending_row (pc thj) = [rj] ->
    req_chat (request thi) = req_chat (request thj) -> i = j
}.

(** What holds besides on an engine whose locking read always excludes:
    a handler between its locking read and the end of its transaction holds
    the lock of its chat, and the maximum it has read is not stale. *)
Record serialized (w : System) : Prop := {
  ser_lock : forall i th,
    threads w !! i = Some th -> in_critical (pc th) = true ->
    locks w !! req_chat (request th) = Some i;
  ser_max : forall i th m,
    threads w !! i = Some th -> pc th = MaxRead m ->
    m = (Z.of_nat (successful_appends w (req_chat (request th))) - 1)%Z
}.

(** A schedule: which handler moves, and what its step meets. A move that
    cannot be made leaves the server as it is. *)
Record Move := { mv_fault : bool; mv_id : jsstring; mv_ts : jsstring; mv_thread : nat }.

Fixpoint replay `{JsEngine} (exclusive : DB -> jsstring -> bool)
         (moves : list Move) (w : System) : System :=
  match moves with
  | [] => w
  | m :: rest =>
      replay exclusive rest
        (match advance exclusive (mv_fault m) (mv_id m) (mv_ts m) (mv_thread m) w with
         | Some w' => w'
         | None => w
         end)
  end.

End Ledger.
Export Ledger.

(* ===================================================================== *)
(** * The events of the decoder, read as a text *)
(* ===================================================================== *)

Module Events.

Section Follows.
Context `{JsEngine}.

(** What a caller of [chatWithOllama] can rely on in the calls it gets,
    when [acc] is the text so far: [onDelta] comes with a fragment that is
    not falsy and with the text so far followed by that fragment, and
    [onDone] comes with the text so far and is the last call. *)
Fixpoint follows (acc : jsstring) (evs : list StreamEvent) : Prop :=
  match evs with
  | [] => True
  | Delta piece a :: rest =>
      truthy piece = true /\ a = acc ++ to_string piece /\ follows a rest
  | Done a :: rest => a = acc /\ rest = []
  end.

(** The fragments of the [onDelta] calls, one after the other. *)
Definition delta_text (evs : list StreamEvent) : jsstring :=
  flat_map (fun e => match e with
                     | Delta piece _ => to_string piece
                     | Done _ => []
                     end) evs.
(** What holds of the events and of [acc] while the decoder reads. *)
Definition reading (log : list StreamEvent) (acc : jsstring) : Prop :=
  Forall (fun e => is_done e = false) log
  /\ acc = delta_text log
  /\ forall more, follows acc more -> follows [] (log ++ more).

(** What holds of them when the decoder has returned. *)
Definition returned (log : list StreamEvent) (acc : jsstring) : Prop :=
  follows [] log
  /\ acc = delta_text log
  /\ exists before, log = before ++ [Done acc]
                    /\ Forall (fun e => is_done e = false) before.

Definition step_ok (r : Step (S := list StreamEvent)) : Prop :=
  match r with
  | Next log acc => reading log acc
  | Finished log acc => returned log acc
  | Threw log _ => follows [] log /\ Forall (fun e => is_done e = false) log
  end.

Definition pumped_ok (r : Pumped (S := list StreamEvent)) : Prop :=
  match r with
  | Reading log acc _ => reading log acc
  | Left log (inr acc) => returned log acc
  | Left log (inl _) => follows [] log /\ Forall (fun e => is_done e = false) log
  end.

End Follows.

(** A line that the decoder passes over: blank, or not JSON. *)
Definition noise (line : jsstring) : Prop :=
  (NL ∉ line) /\ (trim line = [] \/ JSON_parse (trim line) = None).

End Events.
Export Events.

(* ===================================================================== *)
(** * The message view: [repairMarkdown] of [MarkdownMessage.jsx] *)
(* ===================================================================== *)

Module Markdown.

Definition DOLLAR : N := 36%N.

(** [(s.match(/\$\$/g) || []).length]: matches are found left to right and
    do not overlap. *)
Fixpoint count_dollars (t : jsstring) : nat :=
  match t with
  | [] => 0
  | c1 :: t1 =>
      match t1 with
      | c2 :: rest =>
          if ((c1 =? DOLLAR) && (c2 =? DOLLAR))%N
          then S (count_dollars rest)
          else count_dollars t1
      | [] => 0
      end
  end.

(** [function repairMarkdown(src = '') {
       let s = (src || '').replace(/\r/g, '');
       const ticks = (s.match(/```/g) || []).length;
       if (ticks % 2 === 1) s += '\n```';
       const dbl = (s.match(/\$\$/g) || []).length;
       if (dbl % 2 === 1) s += '\n$$';
       return s; }] *)
Definition repairMarkdown (src : jsstring) : jsstring :=
  let s := remove_cr src in
  let s1 := if Nat.odd (count_fences s) then s ++ NL :: str "```" else s in
  if Nat.odd (count_dollars s1) then s1 ++ NL :: str "$$" else s1.

End Markdown.
Export Markdown.

(* ===================================================================== *)
(** * The chat storage API as a whole *)
(* ===================================================================== *)

Module Server.

(** ** The other tables

    [users] and [drafts], beside the tables of [DB]. As there, a text
    stands for what the collation of its column makes of it where SQL
    compares it. *)
Record UserRow := {
  usr_id : jsstring;
  usr_name : jsstring;
  usr_api_key : jsstring;
  usr_created_at : jsstring
}.

Record DraftRow := {
  dr_user_id : jsstring;
  dr_chat_id : option jsstring;
  dr_text : jsstring;
  dr_updated_at : jsstring
}.

Record Store := {
  users_table : list UserRow;
  chat_db : DB;
  drafts_table : list DraftRow
}.

Definition empty_store : Store :=
  {| users_table := []; chat_db := {| chats_table := []; messages_table := [] |};
     drafts_table := [] |}.

Definition with_db (db : DB) (st : Store) : Store :=
  {| users_table := users_table st; chat_db := db; drafts_table := drafts_table st |}.

(** ** Queries on the pool and their failures

    The queries that the handlers other than the append send, each on the
    pool and so each committed on its own. One may be rejected for a reason
    the tables do not show: [Faults] says which. *)
Inductive Query :=
| SelectUserByKey (key : jsstring)
| InsertUser (row : UserRow)
| UpdateApiKey (key id : jsstring)
| SelectChatsOf (user : jsstring)
| InsertChat (row : ChatRow)
| SelectOwnChat (id user : jsstring)
| UpdateTitle (title ts id : jsstring)
| UpdateModel (model ts id : jsstring)
| DeleteChatRow (id : jsstring)
| SelectDraft (user : jsstring)
| UpsertDraft (row : DraftRow)
| DeleteDraftOf (user : jsstring).

Definition Faults := Query -> bool.

(** ** [auth]

    [const key = req.header('X-API-Key');
     if (!key) return res.status(401).json({ error: 'missing api key' });
     ... 'SELECT id, name FROM users WHERE api_key = ? LIMIT 1' ...
     if (!rows.length) return res.status(401).json({ error: 'invalid api key' });
     req.user = { id: rows[0].id, name: rows[0].name }; next();] *)
Inductive Auth :=
| Granted (id name : jsstring)
| Denied (status : Z) (error : jsstring).

Definition select_user_by_key (st : Store) (key : jsstring) : list UserRow :=
  take 1 (filter (fun u => usr_api_key u = key) (users_table st)).

Definition auth (f : Faults) (key : option jsstring) (st : Store) : Auth :=
  match key with
  | None | Some [] => Denied 401 (str "missing api key")
  | Some k =>
      if f (SelectUserByKey k) then Denied 500 (str "auth error")
      else match select_user_by_key st k with
           | [] => Denied 401 (str "invalid api key")
           | u :: _ => Granted (usr_id u) (usr_name u)
           end
  end.

(** What a handler answers. *)
Inductive Response :=
| Failed (status : Z) (error : jsstring)
| Registered (userId name apiKey : jsstring)
| Rotated (apiKey : jsstring)
| Who (userId name : jsstring)
| ChatList (rows : list ChatRow)
| Created (id : jsstring)
| ChatRead (r : ChatReply)
| Done200                                       (* [{ ok: true }] *)
| Append (r : option Reply)
| DraftRead (chat_id : option jsstring) (text : jsstring) (updated_at : option jsstring)
| DraftSaved (updated_at : jsstring).

Section Handlers.
Context `{JsEngine}.
Variable f : Faults.

(** [String(v || '')] *)
Definition string_or_empty (v : option json) : jsstring :=
  match v with
  | Some w => if truthy w then to_string w else []
  | None => []
  end.

(** [v ? String(v).slice(0, n) : null] *)
Definition clipped (v : option json) (n : Z) : option jsstring :=
  match v with
  | Some w => if truthy w then Some (slice (to_string w) 0 (Some n)) else None
  | None => None
  end.

(** ** [POST /auth/register]

    [const name = String(req.body?.name || '').trim().slice(0,80);
     if (!name) return res.status(400).json({ error: 'name_required' });]
    The insert is refused for a taken primary key or a taken [api_key],
    [ER_DUP_ENTRY], which the handler answers with 409. *)
Definition user_keys_free (st : Store) (row : UserRow) : bool :=
  forallb (fun u => negb (bool_decide (usr_id u = usr_id row))
                    && negb (bool_decide (usr_api_key u = usr_api_key row)))
          (users_table st).

Definition register (id apiKey ts : jsstring) (name : option json) (st : Store)
  : Store * Response :=
  match slice (trim (string_or_empty name)) 0 (Some 80%Z) with
  | [] => (st, Failed 400 (str "name_required"))
  | n =>
      let row := {| usr_id := id; usr_name := n; usr_api_key := apiKey;
                    usr_created_at := ts |} in
      if f (InsertUser row) then (st, Failed 500 (str "register_failed"))
      else if user_keys_free st row then
        ({| users_table := users_table st ++ [row]; chat_db := chat_db st;
            drafts_table := drafts_table st |},
         Registered id n apiKey)
      else (st, Failed 409 (str "name_taken"))
  end.

(** ** [POST /auth/rotate]

    ['UPDATE users SET api_key = ? WHERE id = ?']: refused when another
    user has the key. *)
Definition rekey (apiKey id : jsstring) (u : UserRow) : UserRow :=
  if bool_decide (usr_id u = id)
  then {| usr_id := usr_id u; usr_name := usr_name u; usr_api_key := apiKey;
          usr_created_at := usr_created_at u |}
  else u.

Definition rotate (apiKey user : jsstring) (st : Store) : Store * Response :=
  if f (UpdateApiKey apiKey user) then (st, Failed 500 (str "rotate failed"))
  else if existsb (fun u => bool_decide (usr_api_key u = apiKey)
                            && negb (bool_decide (usr_id u = user)))
                  (users_table st)
  then (st, Failed 500 (str "rotate failed"))
  else ({| users_table := map (rekey apiKey user) (users_table st);
           chat_db := chat_db st; drafts_table := drafts_table st |},
        Rotated apiKey).

(** ** [GET /chats]

    [... FROM chats WHERE user_id = ? ORDER BY updated_at DESC]. In which
    order the engine puts the rows, those of one [updated_at] among them,
    is its own matter: [sorted]. *)
Definition chats_of (db : DB) (user : jsstring) : list ChatRow :=
  filter (fun c => chat_user_id c = user) (chats_table db).

Definition list_chats (sorted : list ChatRow -> list ChatRow) (user : jsstring)
           (st : Store) : Store * Response :=
  if f (SelectChatsOf user) then (st, Failed 500 (str "list failed"))
  else (st, ChatList (sorted (chats_of (chat_db st) user))).

(** ** [POST /chats]

    [const title = req.body?.title ? String(req.body.title).slice(0, 255) : null;
     const model = req.body?.model ? String(req.body.model).slice(0, 120) : null;
     const incognito = req.body?.incognito ? 1 : 0;] *)
Definition chat_id_free (db : DB) (id : jsstring) : bool :=
  forallb (fun c => negb (bool_decide (chat_id c = id))) (chats_table db).

Definition create_chat (id ts user : jsstring) (title model incognito : option json)
           (st : Store) : Store * Response :=
  let row := {| chat_id := id; chat_user_id := user;
                chat_title := clipped title 255; chat_model := clipped model 120;
                chat_incognito := truthy_opt incognito;
                chat_created_at := ts; chat_updated_at := ts |} in
  if f (InsertChat row) then (st, Failed 500 (str "create chat failed"))
  else if chat_id_free (chat_db st) id then
    (with_db {| chats_table := chats_table (chat_db st) ++ [row];
                messages_table := messages_table (chat_db st) |} st,
     Created id)
  else (st, Failed 500 (str "create chat failed")).

(** ** [PUT /chats/:id]

    Two updates, each sent when its field of the body is not [undefined],
    each committed on its own. *)
Definition retitled (title ts : jsstring) (c : ChatRow) : ChatRow :=
  {| chat_id := chat_id c; chat_user_id := chat_user_id c;
     chat_title := Some title; chat_model := chat_model c;
     chat_incognito := chat_incognito c; chat_created_at := chat_created_at c;
     chat_updated_at := ts |}.

Definition remodelled (model ts : jsstring) (c : ChatRow) : ChatRow :=
  {| chat_id := chat_id c; chat_user_id := chat_user_id c;
     chat_title := chat_title c; chat_model := Some model;
     chat_incognito := chat_incognito c; chat_created_at := chat_created_at c;
     chat_updated_at := ts |}.

Definition update_rows (g : ChatRow -> ChatRow) (id : jsstring) (st : Store) : Store :=
  with_db {| chats_table := map (fun c => if bool_decide (chat_id c = id) then g c else c)
                                (chats_table (chat_db st));
             messages_table := messages_table (chat_db st) |} st.

Definition put_chat (ts user id : jsstring) (title model : option json) (st : Store)
  : Store * Response :=
  if f (SelectOwnChat id user) then (st, Failed 500 (str "update failed"))
  else
    match select_chat (chat_db st) id user with
    | [] => (st, Failed 404 (str "not found"))
    | _ :: _ =>
        let after_title :=
          match title with
          | None => Some st
          | Some v =>
              let t := slice (to_string v) 0 (Some 255%Z) in
              if f (UpdateTitle t ts id) then None
              else Some (update_rows (retitled t ts) id st)
          end in
        match after_title with
        | None => (st, Failed 500 (str "update failed"))
        | Some st1 =>
            match model with
            | None => (st1, Done200)
            | Some v =>
                let m := slice (to_string v) 0 (Some 120%Z) in
                if f (UpdateModel m ts id) then (st1, Failed 500 (str "update failed"))
                else (update_rows (remodelled m ts) id st1, Done200)
            end
        end
    end.

(** ** [DELETE /chats/:id]

    [DELETE FROM chats WHERE id = ?]; with it go the messages of the chat
    ([ON DELETE CASCADE]), and the drafts that name the chat name none
    ([ON DELETE SET NULL]). *)
Definition forget_chat (id : jsstring) (d : DraftRow) : DraftRow :=
  if bool_decide (dr_chat_id d = Some id)
  then {| dr_user_id := dr_user_id d; dr_chat_id := None; dr_text := dr_text d;
          dr_updated_at := dr_updated_at d |}
  else d.

Definition delete_rows (id : jsstring) (st : Store) : Store :=
  {| users_table := users_table st;
     chat_db := {| chats_table := filter (fun c => chat_id c <> id) (chats_table (chat_db st));
                   messages_table := filter (fun m => msg_chat_id m <> id)
                                            (messages_table (chat_db st)) |};
     drafts_table := map (forget_chat id) (drafts_table st) |}.

Definition delete_chat (user id : jsstring) (st : Store) : Store * Response :=
  if f (SelectOwnChat id user) then (st, Failed 500 (str "delete failed"))
  else
    match select_chat (chat_db st) id user with
    | [] => (st, Failed 404 (str "not found"))
    | _ :: _ =>
        if f (DeleteChatRow id) then (st, Failed 500 (str "delete failed"))
        else (delete_rows id st, Done200)
    end.

(** ** The draft of a user

    [GET /drafts/current]:
    [res.json(rows[0] || { chat_id: null, text: '', updated_at: null })] *)
Definition draft_of (st : Store) (user : jsstring) : list DraftRow :=
  take 1 (filter (fun d => dr_user_id d = user) (drafts_table st)).

Definition get_draft (user : jsstring) (st : Store) : Store * Response :=
  if f (SelectDraft user) then (st, Failed 500 (str "get draft failed"))
  else match draft_of st user with
       | [] => (st, DraftRead None [] None)
       | d :: _ => (st, DraftRead (dr_chat_id d) (dr_text d) (Some (dr_updated_at d)))
       end.

(** [PUT /drafts/current], for a [chatId] that is a string or missing:
    [const chatId = req.body?.chatId || null;
     const text = String(req.body?.text || '').slice(0, 20000);
     INSERT INTO drafts ... ON DUPLICATE KEY UPDATE ...]
    The statement is refused when [chatId] names no chat. *)
Definition upsert (row : DraftRow) (drafts : list DraftRow) : list DraftRow :=
  if existsb (fun d => bool_decide (dr_user_id d = dr_user_id row)) drafts
  then map (fun d => if bool_decide (dr_user_id d = dr_user_id row) then row else d) drafts
  else drafts ++ [row].

Definition put_draft (ts user : jsstring) (chatId : option jsstring) (text : option json)
           (st : Store) : Store * Response :=
  let row := {| dr_user_id := user;
                dr_chat_id := match chatId with Some (_ :: _) => chatId | _ => None end;
                dr_text := slice (string_or_empty text) 0 (Some 20000%Z);
                dr_updated_at := ts |} in
  if f (UpsertDraft row) then (st, Failed 500 (str "put draft failed"))
  else
    match dr_chat_id row with
    | Some c =>
        if chat_id_free (chat_db st) c
        then (st, Failed 500 (str "put draft failed"))
        else ({| users_table := users_table st; chat_db := chat_db st;
                 drafts_table := upsert row (drafts_table st) |}, DraftSaved ts)
    | None =>
        ({| users_table := users_table st; chat_db := chat_db st;
            drafts_table := upsert row (drafts_table st) |}, DraftSaved ts)
    end.

(** [DELETE /drafts/current] *)
Definition delete_draft (user : jsstring) (st : Store) : Store * Response :=
  if f (DeleteDraftOf user) then (st, Failed 500 (str "delete draft failed"))
  else ({| users_table := users_table st; chat_db := chat_db st;
           drafts_table := filter (fun d => dr_user_id d <> user) (drafts_table st) |},
        Done200).
End Handlers.

(** ** The routes behind [auth] *)
Inductive Call :=
| PostRotate
| GetMe
| GetChats
| PostChats (title model incognito : option json)
| GetChat (id : jsstring)
| PutChat (id : jsstring) (title model : option json)
| DeleteChat (id : jsstring)
| PostMessages (id : jsstring) (role content : option json)
| GetDraft
| PutDraft (chatId : option jsstring) (text : option json)
| DeleteDraftCall.

(** What a request meets: what [nanoid()], [crypto.randomUUID()] and
    [nowISO()] return, which queries fail, and how the engine orders the
    rows of equal rank. *)
Record Env := {
  fresh_id : jsstring;
  fresh_key : jsstring;
  env_now : jsstring;
  faults : Faults;
  oracle : Oracle;
  sorted : list ChatRow -> list ChatRow
}.

(** The chat that a route names in its path. *)
Definition about (c : Call) : option jsstring :=
  match c with
  | GetChat id | PutChat id _ _ | DeleteChat id | PostMessages id _ _ => Some id
  | _ => None
  end.

(** The handler of a route, for the user that [auth] has found. *)
Definition handle `{JsEngine} (e : Env) (user name : jsstring) (c : Call) (st : Store)
  : Store * Response :=
  match c with
  | PostRotate => rotate (faults e) (fresh_key e) user st
  | GetMe => (st, Who user name)
  | GetChats => list_chats (faults e) (sorted e) user st
  | PostChats title model incognito =>
      create_chat (faults e) (fresh_id e) (env_now e) user title model incognito st
  | GetChat id => (st, ChatRead (get_chat (oracle e) user id (chat_db st)))
  | PutChat id title model => put_chat (faults e) (env_now e) user id title model st
  | DeleteChat id => delete_chat (faults e) user id st
  | PostMessages id role content =>
      let r := post_message (oracle e) (fresh_id e) (env_now e) user id role content
                 (chat_db st) in
      (with_db (committed r.1) st, Append r.2)
  | GetDraft => get_draft (faults e) user st
  | PutDraft chatId text => put_draft (faults e) (env_now e) user chatId text st
  | DeleteDraftCall => delete_draft (faults e) user st
  end.

(** [app.<method>(path, auth, handler)]: the handler runs when [auth]
    calls [next()]. *)
Definition guarded `{JsEngine} (e : Env) (key : option jsstring) (c : Call) (st : Store)
  : Store * Response :=
  match auth (faults e) key st with
  | Denied status error => (st, Failed status error)
  | Granted user name => handle e user name c st
  end.

(** A request: the registration, or a route behind [auth] with the header
    [X-API-Key]. *)
Inductive Route :=
| Register (name : option json)
| WithKey (key : option jsstring) (c : Call).

Definition serve `{JsEngine} (e : Env) (r : Route) (st : Store) : Store * Response :=
  match r with
  | Register name => register (faults e) (fresh_id e) (fresh_key e) (env_now e) name st
  | WithKey key c => guarded e key c st
  end.

(** A run of requests, each with what it meets. *)
Definition run `{JsEngine} (rqs : list (Env * Route)) (st : Store) : Store :=
  foldl (fun s rq => (serve rq.1 rq.2 s).1) st rqs.

(** ** What the tables keep *)
Definition user_ids (st : Store) : list jsstring := map usr_id (users_table st).
Definition chat_ids (st : Store) : list jsstring := map chat_id (chats_table (chat_db st)).

Record consistent (st : Store) : Prop := {
  users_unique : NoDup (user_ids st);
  keys_unique : NoDup (map usr_api_key (users_table st));
  chats_unique : NoDup (chat_ids st);
  chats_owned : forall c, c ∈ chats_table (chat_db st) -> chat_user_id c ∈ user_ids st;
  messages_unique : NoDup (map msg_id (messages_table (chat_db st)));
  messages_housed : forall m, m ∈ messages_table (chat_db st) -> msg_chat_id m ∈ chat_ids st;
  messages_placed : forall chat,
    map msg_idx (messages_of (chat_db st) chat)
    = seqZ 0 (Z.of_nat (length (messages_of (chat_db st) chat)));
  drafts_unique : NoDup (map dr_user_id (drafts_table st));
  drafts_owned : forall d, d ∈ drafts_table st -> dr_user_id d ∈ user_ids st;
  drafts_point : forall d c, d ∈ drafts_table st -> dr_chat_id d = Some c -> c ∈ chat_ids st
}.

(** The chats of a user and their messages are in [st'] what they are
    in [st]. *)
Definition untouched (v : jsstring) (st st' : Store) : Prop :=
  chats_of (chat_db st') v = chats_of (chat_db st) v
  /\ forall ch, ch ∈ chats_of (chat_db st) v ->
                messages_of (chat_db st') (chat_id ch) = messages_of (chat_db st) (chat_id ch).

End Server.
Export Server.

(* ===================================================================== *)
(** * The client of the chat storage API: [api.js] *)
(* ===================================================================== *)

Module Client.

(** ** [localStorage]

    The three items that [api.js] keeps, [chat_api_key], [chat_user_id] and
    [chat_user_name]; [None] is an item that is not there, for which
    [getItem] gives [null]. The store is taken to work:
    [setItem] and [removeItem] do not throw. *)
Record Storage := {
  ls_chat_api_key : option jsstring;
  ls_chat_user_id : option jsstring;
  ls_chat_user_name : option jsstring
}.

Definition no_items : Storage :=
  {| ls_chat_api_key := None; ls_chat_user_id := None; ls_chat_user_name := None |}.

(** [v || d], for a [v] that is a string or [null]. *)
Definition or_else (v : option jsstring) (d : jsstring) : jsstring :=
  match v with
  | Some (c :: s) => c :: s
  | _ => d
  end.

(** [function getKey() { return localStorage.getItem('chat_api_key') || ''; }] *)
Definition getKey (s : Storage) : jsstring := or_else (ls_chat_api_key s) [].

(** ** What the client reads of an answer *)

(** [r.status]; [None] when the handler sends no answer. *)
Definition status_of (r : Response) : option Z :=
  match r with
  | Failed status _ => Some status
  | ChatRead (NoListing status _) => Some status
  | Append (Some (Refused status _)) => Some status
  | Append None => None
  | _ => Some 200%Z
  end.

(** [r.ok] *)
Definition is_ok (r : Response) : bool :=
  match status_of r with
  | Some s => (200 <=? s)%Z && (s <=? 299)%Z
  | None => false
  end.

(** The fields [apiKey], [userId] and [name] of the body of an answer that
    is [ok]; [None] is [undefined]. *)
Definition apiKey_of (j : Response) : option jsstring :=
  match j with
  | Registered _ _ apiKey | Rotated apiKey => Some apiKey
  | _ => None
  end.

Definition userId_of (j : Response) : option jsstring :=
  match j with
  | Registered userId _ _ | Who userId _ => Some userId
  | _ => None
  end.

Definition name_of (j : Response) : option jsstring :=
  match j with
  | Registered _ name _ | Who _ name => Some name
  | _ => None
  end.

(** [localStorage.setItem(k, v)] keeps [String(v)]. *)
Definition kept (v : option jsstring) : option jsstring :=
  Some (match v with Some s => s | None => str "undefined" end).

(** [function setAuth({ apiKey, userId, name })] *)
Definition setAuth (j : Response) : Storage :=
  {| ls_chat_api_key := kept (apiKey_of j);
     ls_chat_user_id := kept (userId_of j);
     ls_chat_user_name := kept (name_of j) |}.

(** [function clearAuth()] *)
Definition clearAuth : Storage := no_items.

(** ** The way to the server

    What becomes of a request: it does not arrive; it arrives and is
    handled, and the answer does not come back; or it is answered. In the
    first two cases the promise of [fetch] does not resolve, or [fetch]
    rejects, with a [TypeError] whose message is the browser's: [Failing]
    says so, with what the request met at the server if it arrived. While
    the client waits, no one else talks to the server. *)
Inductive Net :=
| Dropped
| Unanswered (e : Env)
| Answered (e : Env)
| Failing (handled : option Env) (message : jsstring).

(** How a call of an [async] function of [api.js] ends, and so an
    awaited [fetch]. *)
Inductive Promise (A : Type) :=
| Fulfilled (a : A)
| Rejected (message : jsstring)      (* an [Error] thrown, or the one of [fetch] *)
| Unsettled.                         (* a [fetch] that does not resolve *)
Arguments Fulfilled {A} a.
Arguments Rejected {A} message.
Arguments Unsettled {A}.

(** The browser's store, the tables of the server, and the requests that
    the client has sent. *)
Record Site := {
  storage : Storage;
  server : Store;
  traffic : list Route
}.

(** [await fetch(...)], for a request that Express routes to [r]. A
    handler that sends no answer leaves the promise unresolved. *)
Definition fetch `{JsEngine} (n : Net) (r : Route) (w : Site) : Site * Promise Response :=
  match n with
  | Dropped =>
      ({| storage := storage w; server := server w; traffic := traffic w ++ [r] |},
       Unsettled)
  | Unanswered e =>
      ({| storage := storage w; server := (serve e r (server w)).1;
          traffic := traffic w ++ [r] |}, Unsettled)
  | Answered e =>
      ({| storage := storage w; server := (serve e r (server w)).1;
          traffic := traffic w ++ [r] |},
       match status_of (serve e r (server w)).2 with
       | Some _ => Fulfilled (serve e r (server w)).2
       | None => Unsettled
       end)
  | Failing None message =>
      ({| storage := storage w; server := server w; traffic := traffic w ++ [r] |},
       Rejected message)
  | Failing (Some e) message =>
      ({| storage := storage w; server := (serve e r (server w)).1;
          traffic := traffic w ++ [r] |}, Rejected message)
  end.

(** ** [ensureApiKeyInteractive]

    What the function meets: what the user answers to the two prompts
    ([None] for a prompt that is cancelled), what [Math.floor(Math.random()
    * 10000)] gives, and what becomes of its two requests. *)
Record Asked := {
  display_name : option jsstring;      (* [prompt('Dein Anzeigename:', 'User')] *)
  first_try : Net;
  other_name : option jsstring;        (* [prompt('Name belegt. Neuer Name:', 'User2')] *)
  drawn : N;
  second_try : Net
}.

(** The decimal digits of a number: what a template makes of a
    non-negative integer. A number has no more digits than bits. *)
Fixpoint digits (fuel : nat) (n : N) : jsstring :=
  match fuel with
  | 0 => []
  | S fuel' =>
      if (n <? 10)%N then [(48 + n)%N]
      else digits fuel' (n / 10)%N ++ [(48 + n mod 10)%N]
  end.

Definition decimal (n : N) : jsstring := digits (S (N.size_nat n)) n.

(** [fetch(`${API_BASE}/auth/register`, { method: 'POST', ...,
            body: JSON.stringify({ name }) })] *)
Definition register_request (name : jsstring) : Route := Register (Some (JStr name)).

(** [if (!r.ok) throw new Error('register_failed');
     const j = await r.json(); setAuth(j); return j.apiKey;] *)
Definition signed_up (w : Site) (r : Response) : Site * Promise (option jsstring) :=
  if is_ok r
  then ({| storage := setAuth r; server := server w; traffic := traffic w |},
        Fulfilled (apiKey_of r))
  else (w, Rejected (str "register_failed")).

Definition ensureApiKeyInteractive `{JsEngine} (a : Asked) (w : Site)
  : Site * Promise (option jsstring) :=
  match getKey (storage w) with
  | _ :: _ as key => (w, Fulfilled (Some key))
  | [] =>
      let name := or_else (ls_chat_user_name (storage w))
                    (or_else (display_name a) (str "User")) in
      match fetch (first_try a) (register_request name) w with
      | (w1, Unsettled) => (w1, Unsettled)
      | (w1, Rejected m) => (w1, Rejected m)
      | (w1, Fulfilled r1) =>
          if bool_decide (status_of r1 = Some 409%Z)
          then
            let name2 := or_else (other_name a) (str "User-" ++ decimal (drawn a)) in
            match fetch (second_try a) (register_request name2) w1 with
            | (w2, Unsettled) => (w2, Unsettled)
            | (w2, Rejected m) => (w2, Rejected m)
            | (w2, Fulfilled r2) => signed_up w2 r2
            end
          else signed_up w1 r1
      end
  end.

(** ** [fetchWithAuth]

    [const r = await fetch(`${API_BASE}${path}`,
                           { ...init, headers: authHeaders(init.headers || {}) });]
    for a request that Express routes to [c]: the header [X-API-Key] is
    what [getKey()] gives, the empty string when there is no key. *)
Definition authed `{JsEngine} (n : Net) (c : Call) (w : Site) : Site * Promise Response :=
  fetch n (WithKey (Some (getKey (storage w))) c) w.

(** [r.status === 401 || r.status === 403 || r.status === 404] *)
Definition retried (r : Response) : bool :=
  match status_of r with
  | Some s => (s =? 401)%Z || (s =? 403)%Z || (s =? 404)%Z
  | None => false
  end.

(** What a call meets: what becomes of its request, what
    [ensureApiKeyInteractive] meets, and what becomes of the request when
    it is sent again. *)
Record Visit := {
  first : Net;
  asked : Asked;
  second : Net
}.

(** [fetchWithAuth(path, init, false)]: whatever the answer, it is
    returned. *)
Definition fetchWithAuth_again `{JsEngine} (n : Net) (c : Call) (w : Site)
  : Site * Promise Response :=
  authed n c w.

(** [fetchWithAuth(path, init)], with [retry = true]:
    [if ((r.status === 401 || r.status === 403 || r.status === 404) && retry) {
       clearAuth(); await ensureApiKeyInteractive();
       return fetchWithAuth(path, init, false); }
     return r;]
    Nothing is caught: what [fetch] or [ensureApiKeyInteractive] throws,
    the call throws. *)
Definition fetchWithAuth `{JsEngine} (c : Call) (v : Visit) (w : Site)
  : Site * Promise Response :=
  match authed (first v) c w with
  | (w1, Unsettled) => (w1, Unsettled)
  | (w1, Rejected m) => (w1, Rejected m)
  | (w1, Fulfilled r) =>
      if retried r then
        match ensureApiKeyInteractive (asked v)
                {| storage := clearAuth; server := server w1; traffic := traffic w1 |} with
        | (w3, Fulfilled _) => fetchWithAuth_again (second v) c w3
        | (w3, Rejected m) => (w3, Rejected m)
        | (w3, Unsettled) => (w3, Unsettled)
        end
      else (w1, Fulfilled r)
  end.

(** ** The calls of the API

    [if (!r.ok) throw new Error('<name> failed'); return r.json();] *)
Definition checked (what : jsstring) (p : Site * Promise Response) : Site * Promise Response :=
  match p with
  | (w, Fulfilled r) =>
      if is_ok r then (w, Fulfilled r) else (w, Rejected (what ++ str " failed"))
  | _ => p
  end.

Section Calls.
Context `{JsEngine}.
Variable v : Visit.

Definition listChats (w : Site) := checked (str "listChats") (fetchWithAuth GetChats v w).

(** [JSON.stringify({ title, model, incognito })]: the three fields are
    in the body, [null] and [false] when the caller gives none. *)
Definition createChat (title model incognito : json) (w : Site) :=
  checked (str "createChat")
    (fetchWithAuth (PostChats (Some title) (Some model) (Some incognito)) v w).

Definition getChat (id : jsstring) (w : Site) :=
  checked (str "getChat") (fetchWithAuth (GetChat id) v w).

(** [JSON.stringify(patch)]: a field that the patch does not have, or has
    as [undefined], is not in the body. *)
Definition updateChat (id : jsstring) (title model : option json) (w : Site) :=
  checked (str "updateChat") (fetchWithAuth (PutChat id title model) v w).

Definition deleteChat (id : jsstring) (w : Site) :=
  checked (str "deleteChat") (fetchWithAuth (DeleteChat id) v w).

Definition appendMessage (chatId : jsstring) (role content : option json) (w : Site) :=
  checked (str "appendMessage") (fetchWithAuth (PostMessages chatId role content) v w).

Definition getDraft (w : Site) := checked (str "getDraft") (fetchWithAuth GetDraft v w).

Definition putDraft (chatId : option jsstring) (text : option json) (w : Site) :=
  checked (str "putDraft") (fetchWithAuth (PutDraft chatId text) v w).

Definition deleteDraft (w : Site) :=
  checked (str "deleteDraft") (fetchWithAuth DeleteDraftCall v w).

Definition me (w : Site) := checked (str "me") (fetchWithAuth GetMe v w).
End Calls.

(** ** Vocabulary of the statements about the client *)

(** The credentials of a registration. *)
Definition credentials (id name key : jsstring) : Storage :=
  {| ls_chat_api_key := Some key; ls_chat_user_id := Some id;
     ls_chat_user_name := Some name |}.

(** Is the request a registration? *)
Definition is_registration (r : Route) : Prop :=
  exists name, r = register_request name.

(** [fetch] rejects with this message. *)
Definition throws (n : Net) (message : jsstring) : Prop :=
  exists handled, n = Failing handled message.

End Client.

(* ===================================================================== *)
(** * The history: [loadChat] of [App.js] *)
(* ===================================================================== *)

Module History.

(** What [loadChat] makes of a message of the answer of [getChat]:
    [data.messages.map(m => ({ role: m.role === 'user' ? 'Du' : 'Assistent',
                               content: m.content }))] *)
Definition shown (m : MessageRow) : UiMessage :=
  {| ui_role := if bool_decide (msg_role m = str "user") then Du else Assistent;
     ui_content := msg_content m |}.

(** The two appends of a turn that [sendChat] keeps, as the server handles
    them for the user of the key:
    [await appendMessage(chatId, { role: 'user', content: userTextRaw });
     await appendMessage(chatId, { role: 'assistant', content: finalText });] *)
Definition keep_turn `{JsEngine} (e1 e2 : Env) (user name chat : jsstring)
           (userTextRaw finalText : jsstring) (st : Store) : Store :=
  let st1 := (handle e1 user name
                (PostMessages chat (Some (JStr (str "user"))) (Some (JStr userTextRaw)))
                st).1 in
  (handle e2 user name
     (PostMessages chat (Some (JStr (str "assistant"))) (Some (JStr finalText))) st1).1.

End History.
Export History.

(* ===================================================================== *)
(** * Pictures: [sd.js] and [sendImage] of [App.js] *)
(* ===================================================================== *)

Module Sd.

Definition SLASH : N := 47%N.

(** [base.replace(/\/+$/, '')]: the match is the run of slashes that the
    text ends with, all of it. By recursion on the text, as [trimEnd]. *)
Fixpoint strip_slashes (t : jsstring) : jsstring :=
  match t with
  | [] => []
  | c :: t' =>
      match strip_slashes t' with
      | [] => if (c =? SLASH)%N then [] else [c]
      | r => c :: r
      end
  end.

(** What becomes of a request to the picture server. The promise of
    [fetch] rejects, or does not settle, or resolves with a status; then
    [r.json()] rejects (the body does not arrive, or is not JSON), or does
    not settle, or gives a value. *)
Inductive Body :=
| BodyFails (message : jsstring)
| BodyHangs
| Json (j : json).

Inductive Fetched :=
| Rejects (message : jsstring)
| Hangs
| Answers (status : N) (body : Body).

Record SdWorld := {
  probe : Fetched;          (* [GET <base>/status] *)
  generation : Fetched      (* [POST <base>/txt2img] *)
}.

(** The requests sent; of the body of the second, which is otherwise
    fixed, the prompt. *)
Inductive SdRequest :=
| GetStatus (url : jsstring)
| PostTxt2img (url : jsstring) (prompt : jsstring).

(** [r.ok] *)
Definition is_2xx (status : N) : bool := ((200 <=? status) && (status <=? 299))%N.

Section Calls.
Context `{JsEngine}.
(** The message of the [TypeError] for reading a property of [null], by
    the name of the property. *)
Variable null_read : jsstring -> jsstring.

(** [const j = await r.json();] and then [j.k], for a name [k] that no
    prototype defines. *)
Definition read_field (body : Body) (k : jsstring) : Client.Promise (option json) :=
  match body with
  | BodyFails m => Client.Rejected m
  | BodyHangs => Client.Unsettled
  | Json JNull => Client.Rejected (null_read k)
  | Json j => Client.Fulfilled (get_prop j k)
  end.

(** [export async function pingSd(base)]; 228 is the code unit of
    a-umlaut. *)
Definition pingSd (base : jsstring) (w : SdWorld) (log : list SdRequest)
  : list SdRequest * Client.Promise unit :=
  let u := strip_slashes base in
  let log' := log ++ [GetStatus (u ++ str "/status")] in
  match probe w with
  | Rejects _ => (log', Client.Rejected (str "SD-Server nicht erreichbar"))
  | Hangs => (log', Client.Unsettled)
  | Answers status body =>
      if is_2xx status then
        match read_field body (str "ready") with
        | Client.Fulfilled ready =>
            if truthy_opt ready then (log', Client.Fulfilled ())
            else (log', Client.Rejected (str "SD l" ++ [228%N] ++ str "dt noch"))
        | Client.Rejected m => (log', Client.Rejected m)
        | Client.Unsettled => (log', Client.Unsettled)
        end
      else (log', Client.Rejected (str "SD-Server nicht erreichbar"))
  end.

(** [`${v}`] for a value that may be [undefined]. *)
Definition template (v : option json) : jsstring :=
  match v with
  | Some j => to_string j
  | None => str "undefined"
  end.

(** [export async function generateImage(base, { prompt })]; the value
    it resolves with is the [url]. *)
Definition generateImage (base prompt : jsstring) (w : SdWorld) (log : list SdRequest)
  : list SdRequest * Client.Promise jsstring :=
  let u := strip_slashes base in
  match pingSd u w log with
  | (log1, Client.Fulfilled _) =>
      let log2 := log1 ++ [PostTxt2img (u ++ str "/txt2img") prompt] in
      match generation w with
      | Rejects m => (log2, Client.Rejected m)
      | Hangs => (log2, Client.Unsettled)
      | Answers status body =>
          if is_2xx status then
            match read_field body (str "image_base64") with
            | Client.Fulfilled image =>
                if truthy_opt image
                then (log2, Client.Fulfilled (str "data:image/png;base64," ++ template image))
                else (log2, Client.Rejected (str "Kein Bild erhalten"))
            | Client.Rejected m => (log2, Client.Rejected m)
            | Client.Unsettled => (log2, Client.Unsettled)
            end
          else (log2, Client.Rejected (str "SD HTTP " ++ Client.decimal status))
      end
  | (log1, Client.Rejected m) => (log1, Client.Rejected m)
  | (log1, Client.Unsettled) => (log1, Client.Unsettled)
  end.



(** ** Vocabulary of the statements about pictures *)

(** The picture that the two answers carry, if they do: the server says
    that it is ready, and then answers the generation with an image. *)
Definition ready_of (f : Fetched) : bool :=
  match f with
  | Answers status (Json j) => is_2xx status && truthy_opt (get_prop j (str "ready"))
  | _ => false
  end.

Definition picture (w : SdWorld) : option json :=
  if ready_of (probe w) then
    match generation w with
    | Answers status (Json j) =>
        if is_2xx status && truthy_opt (get_prop j (str "image_base64"))
        then get_prop j (str "image_base64") else None
    | _ => None
    end
  else None.

End Calls.

End Sd.
Export Sd.

(* ===================================================================== *)
(** * The append handler when the locking read excludes *)
(* ===================================================================== *)

Module Lock.

(** After the query that found the chat, and before the end of the
    transaction. *)
Definition past_the_chat (p : PC) : bool :=
  match p with
  | ChatFound | MaxRead _ | Inserted _ | Updated _ => true
  | _ => false
  end.

(** The chat of a handler that has found it is in the table: the handlers
    of this route delete no chat. *)
Definition chats_known (w : System) : Prop :=
  forall i th, threads w !! i = Some th -> past_the_chat (pc th) = true ->
               req_chat (request th) ∈ map chat_id (chats_table (store w)).

End Lock.
Export Lock.

(* ===================================================================== *)
(** * Examples *)
(* ===================================================================== *)

Module Examples.

(** An engine to run the examples on; they read no number. *)
Definition reference_engine : JsEngine :=
  {| number_truthy := fun lexeme => existsb (fun c => (49 <=? c) && (c <=? 57))%N lexeme;
     number_to_string := fun lexeme => lexeme;
     null_deref_message := str "Cannot read properties of null (reading 'message')" |}.

Definition chat_c1 : ChatRow :=
  {| chat_id := str "c1"; chat_user_id := str "u1"; chat_title := None;
     chat_model := None; chat_incognito := false;
     chat_created_at := str "t0"; chat_updated_at := str "t0" |}.

Definition say (role text : string) : Request :=
  {| req_user := str "u1"; req_chat := str "c1";
     req_role := Some (JStr (str role)); req_content := Some (JStr (str text)) |}.

Definition go (i : nat) (id ts : string) : Move :=
  {| mv_fault := false; mv_id := str id; mv_ts := str ts; mv_thread := i |}.

Definition pass (i : nat) : Move :=
  {| mv_fault := false; mv_id := []; mv_ts := []; mv_thread := i |}.





(** ** Data of the examples *)

Definition db_one_message : DB :=
  {| chats_table := [chat_c1];
     messages_table := [ {| msg_id := str "m1"; msg_chat_id := str "c1";
                            msg_role := str "user"; msg_content := str "hi";
                            msg_idx := 0; msg_created_at := str "t1" |} ] |}.

Definition commit_fails : Oracle :=
  fun q => match q with Commit => true | _ => false end.

Definition commit_and_rollback_fail : Oracle :=
  fun q => match q with Commit | Rollback InCatch => true | _ => false end.

Definition turn_m : Turn :=
  {| sendModel := str "mixtral:latest"; incognito := false; keepDoc := true;
     systemText := str "sys"; contextMessages := []; turnSuffix := [];
     contextNote := str "note" |}.

Definition app_hi : App :=
  {| messages := []; currentChatId := None; prompt := str " hi "; error := [];
     loading := false; attachedDoc := false; liveBuffer := []; flushTimer := false;
     lastAssistantText := []; unwritten := None; abortRef := None; requests := [];
     calls := [] |}.

Definition line (s : string) : jsstring := quoted s ++ [NL].

Definition net (items : list (ReadItem PageEvent)) : Transport PageEvent :=
  {| response := FetchOk; reads := items; ending := Eof |}.

(** The stream gives [ab], the interval fires, the user stops. *)
Definition reads_before_stop : list (ReadItem PageEvent) :=
  [ Chunk (line "{'message':{'content':'ab'}}"); Meanwhile TimerTick ].

Definition world_stopped : World :=
  {| createChat := Ok (str "c1");
     mainStream := net (reads_before_stop ++ [Meanwhile StopClicked]);
     repairStream := fun _ => net [];
     appendUser := Ok (); whileAppending := []; appendAssistant := Ok ();
     updateChat := Ok (); deleteDraft := Ok ();
     onDoneUpdater := AtOnce |}.




(** An answer that is cut off inside a code block, after a line feed: the
    stream gives it, the interval shows it, [between] happens, and the
    terminal record comes. The repair adds [y] and closes nothing. React
    renders while the append of the user's text is awaited. *)
Definition cut_text : jsstring := str "```js" ++ [NL] ++ str "let x = 1;" ++ [NL].

Definition world_cut (u : Scheduling) (between : list PageEvent) : World :=
  {| createChat := Ok (str "c1");
     mainStream := net ([ Chunk (line "{'message':{'content':'```js\nlet x = 1;\n'}}");
                          Meanwhile TimerTick ]
                        ++ map Meanwhile between
                        ++ [ Chunk (line "{'done':true}") ]);
     repairStream := fun _ => net [ Chunk (line "{'message':{'content':'y'}}");
                                    Meanwhile TimerTick;
                                    Chunk (line "{'done':true}") ];
     appendUser := Ok (); whileAppending := [Rendered]; appendAssistant := Ok ();
     updateChat := Ok (); deleteDraft := Ok ();
     onDoneUpdater := u |}.

Definition three_meta_lines : jsstring :=
  str "Antwort:" ++ [NL] ++ str "Antwort:" ++ [NL] ++ str "Antwort:" ++ [NL] ++ str "x".

Definition messy_text : jsstring :=
  str "  hello" ++ [NL; NL; NL; NL] ++ str "world " ++ [CR; NL].

End Examples.
Export Examples.

Module ServerExamples.

Definition quiet : Faults := fun _ => false.

Definition met (id key ts : string) : Env :=
  {| fresh_id := str id; fresh_key := str key; env_now := str ts;
     faults := quiet; oracle := no_faults; sorted := fun rows => rows |}.

Definition text (s : string) : option json := Some (JStr (str s)).

(** Two users, a chat of the first with two messages, a chat of the
    second with one, and a draft of the second. *)
Definition two_users : Store :=
  run (H := reference_engine)
    [ (met "u1" "k1" "t0", Register (text " ann "));
      (met "u2" "k2" "t0", Register (text "bob"));
      (met "c1" "" "t1", WithKey (Some (str "k1")) (PostChats (text "first") None None));
      (met "c2" "" "t2", WithKey (Some (str "k2")) (PostChats None (text "mixtral") None));
      (met "m1" "" "t3", WithKey (Some (str "k1")) (PostMessages (str "c1") (text "user") (text "hi")));
      (met "m2" "" "t4", WithKey (Some (str "k1")) (PostMessages (str "c1") (text "assistant") (text "hello")));
      (met "m3" "" "t5", WithKey (Some (str "k2")) (PostMessages (str "c2") (text "user") (text "hey")));
      (met "" "" "t6", WithKey (Some (str "k2")) (PutDraft (Some (str "c1")) (text "draft"))) ]
    empty_store.

End ServerExamples.
Export ServerExamples.

Module ClientExamples.
Import Client.

(** A visitor who has the key of the first of [two_users]. *)
Definition ann_at_home : Site :=
  {| storage := credentials (str "u1") (str "ann") (str "k1");
     server := two_users; traffic := [] |}.

(** A first visit. *)
Definition newcomer : Site :=
  {| storage := no_items; server := two_users; traffic := [] |}.

(** The user types a name, and every request is answered. *)
Definition typing (name : string) : Visit :=
  {| first := Answered (met "" "" "t7");
     asked := {| display_name := Some (str name);
                 first_try := Answered (met "u3" "k3" "t8");
                 other_name := None; drawn := 4711;
                 second_try := Answered (met "u4" "k4" "t8") |};
     second := Answered (met "c3" "" "t9") |}.

(** No request gets through. *)
Definition offline : Visit :=
  {| first := Failing None (str "Failed to fetch");
     asked := asked (typing "ann");
     second := Failing None (str "Failed to fetch") |}.

End ClientExamples.

Module SdExamples.


(** A server that is still loading. *)
Definition loading_still : SdWorld :=
  {| probe := Answers 200 (Json (JObj [(str "ready", JBool false)]));
     generation := Answers 200 (Json (JObj [(str "image_base64", JStr (str "QUJD"))])) |}.


End SdExamples.
Export SdExamples.

Module TurnExamples.

(** The backend answers with an error status. *)
Definition world_refused : World :=
  {| createChat := Ok (str "c1");
     mainStream := {| response := FetchNotOk (str "Ollama HTTP 404: model not found");
                      reads := []; ending := Eof |};
     repairStream := fun _ => {| response := FetchOk; reads := []; ending := Eof |};
     appendUser := Ok (); whileAppending := []; appendAssistant := Ok ();
     updateChat := Ok (); deleteDraft := Ok ();
     onDoneUpdater := AtOnce |}.

End TurnExamples.
Export TurnExamples.

Module LockExamples.

(** Three handlers on one chat, on the engine whose locking read always
    excludes. The first reads -1; the second comes to its locking read and
    has to wait. The first writes position 0, commits and replies. Now
    the second reads 0, and the third, come to its locking read, has to
    wait in its turn. *)
Definition second_in_line : System :=
  replay (H := reference_engine) always_exclusive
    [ pass 0; pass 0; pass 0; pass 0;
      pass 1; pass 1; pass 1; pass 1;
      go 0 "m-a" "t1"; pass 0; pass 0;
      pass 1;
      pass 2; pass 2; pass 2; pass 2;
      pass 0 ]
    (initial [chat_c1] [say "user" "hi"; say "assistant" "hello"; say "user" "more"]).

End LockExamples.
Export LockExamples.

(* ===================================================================== *)
(** * Facts about the text helpers *)
(* ===================================================================== *)

Module TextFacts.

(** ** Trimming *)

Lemma trimStart_head (t : jsstring) :
  match trimStart t with
  | [] => True
  | c :: _ => is_ws c = false
  end.
Proof.
  induction t as [|c t IH]; simpl; [done|].
  destruct (is_ws c) eqn:E; [done|]. exact E.
Qed.

Lemma trimStart_fixed (c : N) (t : jsstring) :
  is_ws c = false -> trimStart (c :: t) = c :: t.
Proof. intros E. simpl. by rewrite E. Qed.

Lemma trimStart_suffix (t : jsstring) : exists a, t = a ++ trimStart t.
Proof.
  induction t as [|c t [a IH]]; simpl.
  - by exists [].
  - destruct (is_ws c).
    + exists (c :: a). simpl. f_equal. exact IH.
    + by exists [].
Qed.

Lemma trimEnd_prefix (t : jsstring) : exists b, t = trimEnd t ++ b.
Proof.
  induction t as [|c t [b IH]]; simpl.
  - by exists [].
  - destruct (trimEnd t) as [|d r] eqn:E.
    + destruct (is_ws c).
      * exists (c :: t). done.
      * exists t. done.
    + exists b. simpl. f_equal. exact IH.
Qed.

Lemma trimEnd_keeps_head (c : N) (t : jsstring) :
  is_ws c = false -> exists r, trimEnd (c :: t) = c :: r.
Proof.
  intros E. simpl. destruct (trimEnd t) as [|d r].
  - rewrite E. by exists [].
  - by exists (d :: r).
Qed.

Lemma trimEnd_idem (t : jsstring) : trimEnd (trimEnd t) = trimEnd t.
Proof.
  induction t as [|c t IH]; simpl; [done|].
  destruct (trimEnd t) as [|d r] eqn:E.
  - destruct (is_ws c) eqn:W; simpl; [done|]. by rewrite W.
  - change (trimEnd (c :: d :: r)) with
      (match trimEnd (d :: r) with [] => if is_ws c then [] else [c] | x => c :: x end).
    by rewrite IH.
Qed.

Lemma trimStart_trim (t : jsstring) : trimStart (trim t) = trim t.
Proof.
  unfold trim. pose proof (trimStart_head t) as Hh.
  destruct (trimStart t) as [|c u]; [done|].
  destruct (trimEnd_keeps_head c u Hh) as [r ->].
  by apply trimStart_fixed.
Qed.

Lemma trim_idem (t : jsstring) : trim (trim t) = trim t.
Proof.
  unfold trim at 1. rewrite trimStart_trim. unfold trim. apply trimEnd_idem.
Qed.

Lemma trimStart_idem (t : jsstring) : trimStart (trimStart t) = trimStart t.
Proof.
  pose proof (trimStart_head t) as Hh.
  destruct (trimStart t) as [|c u]; [done|]. by apply trimStart_fixed.
Qed.

Lemma trim_trimStart (t : jsstring) : trim (trimStart t) = trim t.
Proof. unfold trim. by rewrite trimStart_idem. Qed.

Lemma trim_infix (t : jsstring) : exists a b, t = a ++ trim t ++ b.
Proof.
  destruct (trimStart_suffix t) as [a Ha].
  destruct (trimEnd_prefix (trimStart t)) as [b Hb].
  exists a, b. unfold trim. by rewrite <- Hb.
Qed.

(** ** Carriage returns *)

Lemma remove_cr_none (t : jsstring) : CR ∉ remove_cr t.
Proof.
  unfold remove_cr. intros Hin. apply list_elem_of_filter in Hin as [Hne _]. done.
Qed.

Lemma remove_cr_fixed (t : jsstring) : CR ∉ t -> remove_cr t = t.
Proof.
  unfold remove_cr. induction t as [|c t IH]; intros Hn; [done|].
  apply not_elem_of_cons in Hn as [Hc Hn].
  rewrite filter_cons_True by congruence. f_equal. by apply IH.
Qed.

(** ** Runs of line feeds *)

Lemma short_runs_bound (k : nat) (t : jsstring) :
  short_runs k t = true -> k < 3.
Proof.
  revert k. induction t as [|c t IH]; simpl; intros k Hs.
  - by apply Nat.ltb_lt.
  - destruct (c =? NL)%N.
    + apply IH in Hs. lia.
    + apply andb_true_iff in Hs as [Hk _]. by apply Nat.ltb_lt.
Qed.

Lemma short_runs_less (j k : nat) (t : jsstring) :
  j <= k -> short_runs k t = true -> short_runs j t = true.
Proof.
  revert j k. induction t as [|c t IH]; simpl; intros j k Hjk Hs.
  - apply Nat.ltb_lt. apply Nat.ltb_lt in Hs. lia.
  - destruct (c =? NL)%N.
    + apply (IH (S j) (S k)); [lia | done].
    + apply andb_true_iff in Hs as [Hk Hs]. apply andb_true_iff. split; [|done].
      apply Nat.ltb_lt. apply Nat.ltb_lt in Hk. lia.
Qed.

Lemma short_runs_suffix (k : nat) (a b : jsstring) :
  short_runs k (a ++ b) = true -> short_runs 0 b = true.
Proof.
  revert k. induction a as [|c a IH]; simpl; intros k Hs.
  - apply (short_runs_less 0 k); [lia | done].
  - destruct (c =? NL)%N.
    + by apply (IH (S k)).
    + apply andb_true_iff in Hs as [_ Hs]. by apply (IH 0).
Qed.

Lemma short_runs_prefix (k : nat) (a b : jsstring) :
  short_runs k (a ++ b) = true -> short_runs k a = true.
Proof.
  revert k. induction a as [|c a IH]; simpl; intros k Hs.
  - apply Nat.ltb_lt. by apply short_runs_bound in Hs.
  - destruct (c =? NL)%N.
    + by apply IH.
    + apply andb_true_iff in Hs as [Hk Hs]. apply andb_true_iff. split; [done|].
      by apply IH.
Qed.

Lemma short_runs_trim (t : jsstring) :
  short_runs 0 t = true -> short_runs 0 (trim t) = true.
Proof.
  intros Hs. destruct (trim_infix t) as (a & b & Ht).
  rewrite Ht in Hs. apply short_runs_suffix in Hs.
  by apply short_runs_prefix in Hs.
Qed.

Lemma emit_run_short (k : nat) : k < 3 -> emit_run k = repeat NL k.
Proof.
  intros Hk. unfold emit_run.
  destruct (3 <=? k)%nat eqn:E; [|done]. apply Nat.leb_le in E. lia.
Qed.

Lemma collapse_from_fixed (k : nat) (t : jsstring) :
  short_runs k t = true -> collapse_from k t = repeat NL k ++ t.
Proof.
  revert k. induction t as [|c t IH]; simpl; intros k Hs.
  - rewrite app_nil_r. apply emit_run_short. by apply Nat.ltb_lt.
  - destruct (c =? NL)%N eqn:E.
    + apply N.eqb_eq in E. subst c. rewrite (IH _ Hs).
      change (NL :: t) with ([NL] ++ t). rewrite app_assoc. f_equal.
      clear. induction k as [|k IH]; simpl; [done|]. by rewrite <- IH.
    + apply andb_true_iff in Hs as [Hk Hs].
      rewrite (IH _ Hs). simpl. rewrite emit_run_short; [done|].
      by apply Nat.ltb_lt.
Qed.

Lemma short_runs_after_run (k : nat) (c : N) (t : jsstring) :
  (c =? NL)%N = false ->
  short_runs 0 (emit_run k ++ c :: t) = short_runs 0 t.
Proof.
  intros E. unfold emit_run.
  destruct (3 <=? k)%nat eqn:E3.
  - simpl. by rewrite E.
  - apply Nat.leb_gt in E3.
    destruct k as [|[|[|k]]]; simpl; rewrite ?E; try done. lia.
Qed.

Lemma collapse_from_short (k : nat) (t : jsstring) :
  short_runs 0 (collapse_from k t) = true.
Proof.
  revert k. induction t as [|c t IH]; simpl; intros k.
  - unfold emit_run. destruct (3 <=? k)%nat eqn:E3; [done|].
    apply Nat.leb_gt in E3. destruct k as [|[|[|k]]]; simpl; try done. lia.
  - destruct (c =? NL)%N eqn:E; [apply IH|].
    rewrite short_runs_after_run; [apply IH | done].
Qed.

Lemma emit_run_elem (k : nat) (c : N) : c ∈ emit_run k -> c = NL.
Proof.
  unfold emit_run. destruct (3 <=? k)%nat; intros Hin.
  - apply elem_of_cons in Hin as [->|Hin]; [done|].
    apply elem_of_cons in Hin as [->|Hin]; [done|]. by apply elem_of_nil in Hin.
  - apply list_elem_of_In, repeat_spec in Hin. done.
Qed.

Lemma collapse_from_elem (k : nat) (t : jsstring) (c : N) :
  c ∈ collapse_from k t -> c = NL \/ c ∈ t.
Proof.
  revert k. induction t as [|d t IH]; simpl; intros k Hin.
  - left. by apply (emit_run_elem k).
  - destruct (d =? NL)%N eqn:E.
    + apply IH in Hin as [->|Hin]; [by left|]. right. by right.
    + apply elem_of_app in Hin as [Hin|Hin]; [left; by apply (emit_run_elem k)|].
      apply elem_of_cons in Hin as [->|Hin]; [right; left|].
      apply IH in Hin as [->|Hin]; [by left|]. right. by right.
Qed.

(** ** [normalizeText] *)

Lemma trim_elem (t : jsstring) (c : N) : c ∈ trim t -> c ∈ t.
Proof.
  intros Hin. destruct (trim_infix t) as (a & b & Ht). rewrite Ht.
  apply elem_of_app. right. apply elem_of_app. by left.
Qed.

Lemma normalizeText_no_cr (t : jsstring) : CR ∉ normalizeText t.
Proof.
  unfold normalizeText, collapse_newlines. intros Hin.
  apply trim_elem, collapse_from_elem in Hin as [Hin|Hin]; [done|].
  by apply remove_cr_none in Hin.
Qed.

Lemma normalizeText_short_runs (t : jsstring) : short_runs 0 (normalizeText t) = true.
Proof. apply short_runs_trim, collapse_from_short. Qed.

Lemma normalizeText_trimmed (t : jsstring) : trim (normalizeText t) = normalizeText t.
Proof. apply trim_idem. Qed.

(** A text without carriage return, without a run of three line feeds and
    without blanks at its ends is left as it is. *)
Lemma normalizeText_fixed (y : jsstring) :
  CR ∉ y -> short_runs 0 y = true -> trim y = y -> normalizeText y = y.
Proof.
  intros Hcr Hs Ht. unfold normalizeText, collapse_newlines.
  rewrite (remove_cr_fixed _ Hcr), (collapse_from_fixed _ _ Hs). exact Ht.
Qed.

Lemma normalizeText_idem (t : jsstring) :
  normalizeText (normalizeText t) = normalizeText t.
Proof.
  apply normalizeText_fixed;
    [apply normalizeText_no_cr | apply normalizeText_short_runs
    | apply normalizeText_trimmed].
Qed.

(** ** [sanitizeAssistant] *)

Lemma indexOf_absent (c : N) (t : jsstring) : c ∉ t -> indexOf c t = (-1)%Z.
Proof.
  induction t as [|d t IH]; simpl; intros Hn; [done|].
  apply not_elem_of_cons in Hn as [Hc Hn].
  destruct (d =? c)%N eqn:E.
  - apply N.eqb_eq in E. by subst.
  - by rewrite IH.
Qed.

Lemma slice_all (t : jsstring) : slice t 0 None = t.
Proof.
  unfold slice, clamp_index. simpl.
  rewrite Z.min_l by lia. simpl. rewrite Z.sub_0_r, Nat2Z.id.
  apply firstn_all.
Qed.

(** The loop does nothing to a text of one line: there is no line feed to
    cut at. *)
Lemma meta_loop_one_line (n : nat) (t : jsstring) : NL ∉ t -> meta_loop n t = t.
Proof.
  intros Hn. induction n as [|n IH]; simpl; [done|].
  destruct (metaLine_test _); [|done].
  rewrite (indexOf_absent _ _ Hn). simpl. rewrite slice_all. exact IH.
Qed.

Lemma meta_loop_no_meta (n : nat) (t : jsstring) :
  metaLine_test (trim (first_line t)) = false -> meta_loop n t = t.
Proof. intros E. destruct n; simpl; [done|]. by rewrite E. Qed.

End TextFacts.

Module TextClaims.
Import TextFacts.

(** C9, where the code departs from it. A text of one line is never
    stripped: [t.indexOf('\n')] is -1 and [t.slice(0)] is all of [t], so the
    loop counts a removal that removed nothing. *)
Lemma one_line_is_not_stripped (s : jsstring) :
  NL ∉ s -> sanitizeAssistant s = trim s.
Proof.
  intros Hn. unfold sanitizeAssistant.
  rewrite meta_loop_one_line; [apply trim_trimStart|].
  destruct (trimStart_suffix s) as [a Ha]. intros Hin. apply Hn.
  rewrite Ha. apply elem_of_app. by right.
Qed.

(** C9 at its failing input: the line [Antwort: 42] is a meta line, and
    the pass returns it unchanged; of the two meta lines
    [Antwort:] and [Format: x] it removes the first only. *)
Theorem meta_line_at_the_end_survives :
  metaLine_test (trim (first_line (str "Antwort: 42"))) = true
  /\ normalization_pass (str "Antwort: 42") = str "Antwort: 42"
  /\ normalization_pass (str "Antwort:" ++ [NL] ++ str "Format: x") = str "Format: x".
Proof. repeat split; vm_compute; reflexivity. Qed.

(** What the pass does hold to, on every text: its result has no blank at
    either end, no carriage return, and no run of three line feeds. *)
Lemma normalization_pass_shape (x : jsstring) :
  trim (normalization_pass x) = normalization_pass x
  /\ (CR ∉ normalization_pass x)
  /\ short_runs 0 (normalization_pass x) = true.
Proof.
  unfold normalization_pass.
  split; [apply normalizeText_trimmed|].
  split; [apply normalizeText_no_cr | apply normalizeText_short_runs].
Qed.

(** C10, amended. Applying the pass to its own result changes nothing,
    provided that the result does not begin with a meta line. *)
Theorem normalization_idempotent_without_meta (x : jsstring) :
  metaLine_test (trim (first_line (normalization_pass x))) = false ->
  normalization_pass (normalization_pass x) = normalization_pass x.
Proof.
  intros Hm. set (y := normalization_pass x) in *.
  assert (trim y = y) as Ht by apply normalizeText_trimmed.
  assert (trimStart y = y) as Hs by (rewrite <- Ht; apply trimStart_trim).
  unfold normalization_pass at 1. unfold sanitizeAssistant.
  rewrite Hs, (meta_loop_no_meta 2 y Hm), Ht.
  apply normalizeText_idem.
Qed.

Lemma normalization_idempotent_without_meta_witness :
  metaLine_test (trim (first_line (normalization_pass messy_text))) = false
  /\ normalization_pass (normalization_pass messy_text) = normalization_pass messy_text.
Proof.
  split; [vm_compute; reflexivity|].
  apply normalization_idempotent_without_meta. vm_compute. reflexivity.
Defined.

(** C10, as stated, fails: of three meta lines the pass removes two, and
    applied again it removes the third. *)
Lemma second_pass_strips_again :
  normalization_pass three_meta_lines = str "Antwort:" ++ [NL] ++ str "x"
  /\ normalization_pass (normalization_pass three_meta_lines) = str "x"
  /\ normalization_pass (normalization_pass three_meta_lines)
     <> normalization_pass three_meta_lines.
Proof.
  split; [vm_compute; reflexivity|]. split; [vm_compute; reflexivity|].
  vm_compute. discriminate.
Qed.

End TextClaims.

(* ===================================================================== *)
(** * Facts about the JSON parser *)
(* ===================================================================== *)

Module JsonFacts.

(** ** What a parser leaves is shorter than what it was given *)

Lemma skip_ws_length (t : jsstring) : length (skip_ws t) <= length t.
Proof. induction t as [|c t IH]; simpl; [done|]. destruct (is_json_ws c); simpl; lia. Qed.

Lemma parse_chars_length (t s r : jsstring) :
  parse_chars t = Some (s, r) -> length r < length t.
Proof.
  remember (length t) as n eqn:Hn. revert t s r Hn.
  induction n as [n IH] using lt_wf_ind. intros t s r -> Hp.
  destruct t as [|c t1]; [done|]. simpl in Hp.
  destruct (c =? 34)%N; [injection Hp as <- <-; simpl; lia|].
  destruct (c =? 92)%N.
  - destruct t1 as [|e t2]; [done|]. destruct (e =? 117)%N.
    + destruct t2 as [|h1 [|h2 [|h3 [|h4 t6]]]]; try done.
      destruct (hex4 h1 h2 h3 h4); [|done].
      destruct (parse_chars t6) as [[s' r']|] eqn:E; [|done].
      injection Hp as <- <-.
      pose proof (IH (length t6) ltac:(simpl; lia) t6 s' r' eq_refl E). simpl. lia.
    + destruct (simple_escape e); [|done].
      destruct (parse_chars t2) as [[s' r']|] eqn:E; [|done].
      injection Hp as <- <-.
      pose proof (IH (length t2) ltac:(simpl; lia) t2 s' r' eq_refl E). simpl. lia.
  - destruct (c <? 32)%N; [done|].
    destruct (parse_chars t1) as [[s' r']|] eqn:E; [|done].
    injection Hp as <- <-.
    pose proof (IH (length t1) ltac:(simpl; lia) t1 s' r' eq_refl E). simpl. lia.
Qed.

Lemma span_digits_length (t : jsstring) : length (span_digits t).2 <= length t.
Proof.
  induction t as [|c t IH]; simpl; [done|].
  destruct (is_digit c); [|simpl; lia].
  destruct (span_digits t) as [ds rest]. simpl in *. lia.
Qed.

Lemma strip_word_length (w t r : jsstring) :
  strip_word w t = Some r -> length r + length w = length t.
Proof.
  revert t. induction w as [|a w IH]; intros t Hs; simpl in Hs.
  - injection Hs as <-. simpl. lia.
  - destruct t as [|c t]; [done|]. destruct (a =? c)%N; [|done].
    apply IH in Hs. simpl. lia.
Qed.

Lemma parse_number_length (t n r : jsstring) :
  parse_number t = Some (n, r) -> length r < length t.
Proof.
  unfold parse_number. intros Hp.
  destruct (match t with
            | c :: t' => if (c =? 45)%N then ([c], t') else ([], t)
            | [] => ([], [])
            end) as [minus t0] eqn:Em.
  assert (length t0 <= length t) as H0.
  { destruct t as [|c t']; [by injection Em as <- <-|].
    destruct (c =? 45)%N; injection Em as <- <-; simpl; lia. }
  destruct (parse_int_part t0) as [[i t1]|] eqn:Ei; [|done].
  assert (length t1 < length t0) as H1.
  { unfold parse_int_part in Ei. destruct t0 as [|c t']; [done|].
    destruct (c =? 48)%N; [injection Ei as <- <-; simpl; lia|].
    destruct (is_digit c); [|done].
    pose proof (span_digits_length t') as Hs.
    destruct (span_digits t') as [ds rest]. injection Ei as <- <-. simpl in *. lia. }
  destruct (parse_frac_part t1) as [[f t2]|] eqn:Ef; [|done].
  assert (length t2 <= length t1) as H2.
  { unfold parse_frac_part in Ef. destruct t1 as [|c t']; [by injection Ef as <- <-|].
    destruct (c =? 46)%N; [|by injection Ef as <- <-].
    pose proof (span_digits_length t') as Hs.
    destruct (span_digits t') as [[|d ds] rest]; [done|].
    injection Ef as <- <-. simpl in *. lia. }
  destruct (parse_exp_part t2) as [[e t3]|] eqn:Ee; [|done].
  assert (length t3 <= length t2) as H3.
  { unfold parse_exp_part in Ee. destruct t2 as [|c t']; [by injection Ee as <- <-|].
    destruct ((c =? 101) || (c =? 69))%N; [|by injection Ee as <- <-].
    destruct (match t' with
              | s :: u => if ((s =? 43) || (s =? 45))%N then ([s], u) else ([], t')
              | [] => ([], [])
              end) as [sign t''] eqn:Es.
    assert (length t'' <= length t') as Hs'.
    { destruct t' as [|s u]; [by injection Es as <- <-|].
      destruct ((s =? 43) || (s =? 45))%N; injection Es as <- <-; simpl; lia. }
    pose proof (span_digits_length t'') as Hs.
    destruct (span_digits t'') as [[|d ds] rest]; [done|].
    injection Ee as <- <-. simpl in *. lia. }
  injection Hp as <- <-. lia.
Qed.


Lemma parse_value_S (f : nat) (t : jsstring) :
  parse_value (S f) t
  =
  match skip_ws t with
  | [] => None
  | c :: r =>
      if (c =? 123)%N then
        match skip_ws r with
        | d :: r' => if (d =? 125)%N then Some (JObj [], r')
                     else parse_members f (d :: r') []
        | [] => None
        end
      else if (c =? 91)%N then
        match skip_ws r with
        | d :: r' => if (d =? 93)%N then Some (JArr [], r')
                     else parse_elements f (d :: r') []
        | [] => None
        end
      else if (c =? 34)%N then
        match parse_chars r with
        | Some (s, r') => Some (JStr s, r')
        | None => None
        end
      else
        match strip_word (str "true") (c :: r) with
        | Some r' => Some (JBool true, r')
        | None =>
            match strip_word (str "false") (c :: r) with
            | Some r' => Some (JBool false, r')
            | None =>
                match strip_word (str "null") (c :: r) with
                | Some r' => Some (JNull, r')
                | None =>
                    match parse_number (c :: r) with
                    | Some (n, r') => Some (JNum n, r')
                    | None => None
                    end
                end
            end
        end
  end.
Proof. reflexivity. Qed.

Lemma parse_elements_S (f : nat) (t : jsstring) (acc : list json) :
  parse_elements (S f) t acc
  = match parse_value f t with
    | None => None
    | Some (v, r) =>
        match skip_ws r with
        | d :: r' =>
            if (d =? 44)%N then parse_elements f r' (v :: acc)
            else if (d =? 93)%N then Some (JArr (rev (v :: acc)), r')
            else None
        | [] => None
        end
    end.
Proof. reflexivity. Qed.

Lemma parse_members_S (f : nat) (t : jsstring) (acc : list (jsstring * json)) :
  parse_members (S f) t acc
  = match skip_ws t with
    | q :: r =>
        if (q =? 34)%N then
          match parse_chars r with
          | None => None
          | Some (k, r1) =>
              match skip_ws r1 with
              | colon :: r2 =>
                  if (colon =? 58)%N then
                    match parse_value f r2 with
                    | None => None
                    | Some (v, r3) =>
                        match skip_ws r3 with
                        | d :: r4 =>
                            if (d =? 44)%N then parse_members f r4 ((k, v) :: acc)
                            else if (d =? 125)%N
                                 then Some (JObj (rev ((k, v) :: acc)), r4)
                            else None
                        | [] => None
                        end
                    end
                  else None
              | [] => None
              end
          end
        else None
    | [] => None
    end.
Proof. reflexivity. Qed.

(** Whatever is parsed, something is read. *)
Lemma parse_shrinks (f : nat) :
  (forall t v r, parse_value f t = Some (v, r) -> length r < length t)
  /\ (forall t acc v r, parse_elements f t acc = Some (v, r) -> length r < length t)
  /\ (forall t acc v r, parse_members f t acc = Some (v, r) -> length r < length t).
Proof.
  induction f as [|f (IHv & IHe & IHm)]; [by repeat split|].
  split; [|split].
  - intros t v r. rewrite parse_value_S.
    pose proof (skip_ws_length t) as Ht.
    destruct (skip_ws t) as [|c r0]; [done|]. simpl in Ht.
    destruct (c =? 123)%N.
    { pose proof (skip_ws_length r0) as Hr0.
      destruct (skip_ws r0) as [|d r']; [done|]. simpl in Hr0.
      destruct (d =? 125)%N; [intros [= <- <-]; lia|].
      intros Hp. apply IHm in Hp. simpl in Hp. lia. }
    destruct (c =? 91)%N.
    { pose proof (skip_ws_length r0) as Hr0.
      destruct (skip_ws r0) as [|d r']; [done|]. simpl in Hr0.
      destruct (d =? 93)%N; [intros [= <- <-]; lia|].
      intros Hp. apply IHe in Hp. simpl in Hp. lia. }
    destruct (c =? 34)%N.
    { destruct (parse_chars r0) as [[s r']|] eqn:E; [|done].
      apply parse_chars_length in E. intros [= <- <-]. lia. }
    destruct (strip_word (str "true") (c :: r0)) as [r'|] eqn:E1.
    { apply strip_word_length in E1. simpl in E1. intros [= <- <-]. lia. }
    destruct (strip_word (str "false") (c :: r0)) as [r'|] eqn:E2.
    { apply strip_word_length in E2. simpl in E2. intros [= <- <-]. lia. }
    destruct (strip_word (str "null") (c :: r0)) as [r'|] eqn:E3.
    { apply strip_word_length in E3. simpl in E3. intros [= <- <-]. lia. }
    destruct (parse_number (c :: r0)) as [[n r']|] eqn:E4; [|done].
    apply parse_number_length in E4. simpl in E4. intros [= <- <-]. lia.
  - intros t acc v r. rewrite parse_elements_S.
    destruct (parse_value f t) as [[v0 r0]|] eqn:E; [|done].
    apply IHv in E. pose proof (skip_ws_length r0) as Hr0.
    destruct (skip_ws r0) as [|d r']; [done|]. simpl in Hr0.
    destruct (d =? 44)%N; [intros Hp; apply IHe in Hp; lia|].
    destruct (d =? 93)%N; [|done]. intros [= <- <-]. lia.
  - intros t acc v r. rewrite parse_members_S.
    pose proof (skip_ws_length t) as Ht.
    destruct (skip_ws t) as [|q r0]; [done|]. simpl in Ht.
    destruct (q =? 34)%N; [|done].
    destruct (parse_chars r0) as [[k r1]|] eqn:Ek; [|done].
    apply parse_chars_length in Ek. pose proof (skip_ws_length r1) as Hr1.
    destruct (skip_ws r1) as [|colon r2]; [done|]. simpl in Hr1.
    destruct (colon =? 58)%N; [|done].
    destruct (parse_value f r2) as [[v0 r3]|] eqn:E; [|done].
    apply IHv in E. pose proof (skip_ws_length r3) as Hr3.
    destruct (skip_ws r3) as [|d r4]; [done|]. simpl in Hr3.
    destruct (d =? 44)%N; [intros Hp; apply IHm in Hp; lia|].
    destruct (d =? 125)%N; [|done]. intros [= <- <-]. lia.
Qed.

(** With a unit of fuel for every call that can come, more fuel changes
    nothing. *)
Lemma parse_fuel (f : nat) :
  (forall t g, 2 * length t + 1 <= f -> f <= g -> parse_value f t = parse_value g t)
  /\ (forall t acc g, 2 * length t + 2 <= f -> f <= g ->
        parse_elements f t acc = parse_elements g t acc)
  /\ (forall t acc g, 2 * length t + 2 <= f -> f <= g ->
        parse_members f t acc = parse_members g t acc).
Proof.
  induction f as [|f (IHv & IHe & IHm)]; [repeat split; intros; lia|].
  destruct (parse_shrinks f) as (Sv & _ & _).
  split; [|split].
  - intros t [|g] Hf Hg; [lia|]. rewrite !parse_value_S.
    pose proof (skip_ws_length t) as Ht.
    destruct (skip_ws t) as [|c r0]; [done|]. simpl in Ht.
    destruct (c =? 123)%N.
    { pose proof (skip_ws_length r0) as Hr0.
      destruct (skip_ws r0) as [|d r']; [done|]. simpl in Hr0.
      destruct (d =? 125)%N; [done|]. apply IHm; simpl; lia. }
    destruct (c =? 91)%N; [|done].
    pose proof (skip_ws_length r0) as Hr0.
    destruct (skip_ws r0) as [|d r']; [done|]. simpl in Hr0.
    destruct (d =? 93)%N; [done|]. apply IHe; simpl; lia.
  - intros t acc [|g] Hf Hg; [lia|]. rewrite !parse_elements_S.
    rewrite <- (IHv t g) by lia.
    destruct (parse_value f t) as [[v0 r0]|] eqn:E; [|done].
    apply Sv in E. pose proof (skip_ws_length r0) as Hr0.
    destruct (skip_ws r0) as [|d r']; [done|]. simpl in Hr0.
    destruct (d =? 44)%N; [|done]. apply IHe; lia.
  - intros t acc [|g] Hf Hg; [lia|]. rewrite !parse_members_S.
    pose proof (skip_ws_length t) as Ht.
    destruct (skip_ws t) as [|q r0]; [done|]. simpl in Ht.
    destruct (q =? 34)%N; [|done].
    destruct (parse_chars r0) as [[k r1]|] eqn:Ek; [|done].
    apply parse_chars_length in Ek. pose proof (skip_ws_length r1) as Hr1.
    destruct (skip_ws r1) as [|colon r2]; [done|]. simpl in Hr1.
    destruct (colon =? 58)%N; [|done].
    rewrite <- (IHv r2 g) by lia.
    destruct (parse_value f r2) as [[v0 r3]|] eqn:E; [|done].
    apply Sv in E. pose proof (skip_ws_length r3) as Hr3.
    destruct (skip_ws r3) as [|d r4]; [done|]. simpl in Hr3.
    destruct (d =? 44)%N; [|done]. apply IHm; lia.
Qed.

(** [JSON_parse] does not depend on its fuel: any larger amount gives the
    same value or the same [SyntaxError]. *)
Lemma JSON_parse_fuel (t : jsstring) (g : nat) :
  2 * length t + 2 <= g ->
  JSON_parse t = match parse_value g t with
                 | Some (v, r) => match skip_ws r with [] => Some v | _ :: _ => None end
                 | None => None
                 end.
Proof.
  intros Hg. unfold JSON_parse.
  destruct (parse_fuel (2 * length t + 2)) as (Hv & _ & _).
  by rewrite (Hv t g) by lia.
Qed.

End JsonFacts.

(* ===================================================================== *)
(** * Facts about the decoder *)
(* ===================================================================== *)

Module DecoderFacts.
Section Log.
Context `{JsEngine}.



End Log.

(** What the callbacks leave alone, the decoder leaves alone. *)
Section Preservation.
Context `{JsEngine} {S E A : Type}.
Variable onDelta : option (json -> jsstring -> S -> S).
Variable onDone : option (jsstring -> S -> S).
Variable meanwhile : E -> S -> S.
Variable signal_aborted : S -> bool.
Variable proj : S -> A.
Hypothesis delta_keeps : forall piece acc s, proj (call_delta onDelta piece acc s) = proj s.
Hypothesis done_keeps : forall acc s, proj (call_done onDone acc s) = proj s.
Hypothesis meanwhile_keeps : forall ev s, proj (meanwhile ev s) = proj s.







Variable send : Payload -> S -> S.
Hypothesis send_keeps : forall p s, proj (send p s) = proj s.


Lemma pump_app (items more : list (ReadItem E)) (s : S) (acc buf : jsstring) :
  pump onDelta onDone meanwhile signal_aborted (items ++ more) s acc buf =
  match pump onDelta onDone meanwhile signal_aborted items s acc buf with
  | Reading s' acc' buf' => pump onDelta onDone meanwhile signal_aborted more s' acc' buf'
  | Left s' r => Left s' r
  end.
Proof.
  revert s acc buf. induction items as [|[text|ev] rest IH]; simpl; intros s acc buf.
  - done.
  - destruct (on_lines _ _ _ s acc); [apply IH | done | done].
  - destruct (signal_aborted _); [done | apply IH].
Qed.
End Preservation.

End DecoderFacts.

Module DecoderClaims.
Import DecoderFacts.

(** C6. Fed the text
    [{"message":{"content":"ab"}}\n{"mess] and then the text
    [age":{"content":"cd"},"done":false}\n{"done":true}\n],
    the decoder calls [onDelta] with "ab", [onDelta] with "cd", then
    [onDone], and returns: the record cut by the chunk boundary is put
    together again. *)
Theorem decoder_reassembles_split_record `{JsEngine} :
  decode [ quoted "{'message':{'content':'ab'}}" ++ [NL] ++ quoted "{'mess";
           quoted "age':{'content':'cd'},'done':false}" ++ [NL]
             ++ quoted "{'done':true}" ++ [NL] ]
  = ( [ Delta (JStr (str "ab")) (str "ab");
        Delta (JStr (str "cd")) (str "abcd");
        Done (str "abcd") ],
      inr (str "abcd") ).
Proof. vm_compute. reflexivity. Qed.




End DecoderClaims.
(* ===================================================================== *)
(** * Facts about the session *)
(* ===================================================================== *)

Module SessionFacts.
Import DecoderFacts.

Lemma still_refl (a : App) : still a a.
Proof. by split. Qed.

Lemma still_trans (a b c : App) : still a b -> still b c -> still a c.
Proof. intros [H1 H2] [H3 H4]. split; congruence. Qed.

Lemma flush_still (a : App) : still a (flush a).
Proof.
  unfold flush. destruct (liveBuffer a); [apply still_refl|].
  destruct (last_message _) as [[[] c]|]; by split.
Qed.

Lemma render_still (a : App) : still a (render a).
Proof. unfold render. by destruct (unwritten a). Qed.


Lemma tick_still (a : App) : still a (page_event TimerTick a).
Proof. simpl. destruct (flushTimer a); [apply flush_still | apply still_refl]. Qed.

Lemma clean_still (a : App) : still a (clean a).
Proof.
  unfold clean. destruct (last_message _) as [[[] c]|]; by split.
Qed.


(** ** The last message *)










Section Simulation.
Context `{JsEngine}.
(** The [onDone] of the session: that of the first call, or that of a
    repair call. *)
Variable done : jsstring -> App -> App.
(** What is kept: [still], or [calm]. *)
Variable kept : App -> App -> Prop.
Hypothesis kept_refl : forall a, kept a a.
Hypothesis kept_trans : forall a b c, kept a b -> kept b c -> kept a c.
Hypothesis kept_delta : forall piece acc a, kept a (onDelta piece acc a).
Hypothesis kept_tick : forall a, kept a (page_event TimerTick a).
Hypothesis kept_render : forall a, kept a (render a).
Hypothesis kept_signal : forall a a', kept a a' -> abortRef a' = abortRef a.

Abbreviation session_lines := (on_lines (Some onDelta) (Some done)).
Abbreviation session_pump := (pump (Some onDelta) (Some done) page_event signal_aborted).
Abbreviation log_pump := (pump log_delta log_done no_event never_aborted).

Lemma take_fragment_kept (obj : json) (a : App) (log : list StreamEvent) (acc : jsstring) :
  snd (take_fragment (Some onDelta) obj a acc) = snd (take_fragment log_delta obj log acc)
  /\ kept a (fst (take_fragment (Some onDelta) obj a acc)).
Proof.
  unfold take_fragment. destruct (truthy _); simpl; (split; [done|]);
    [apply kept_delta | apply kept_refl].
Qed.

Lemma on_line_kept (line : jsstring) (a : App) (log : list StreamEvent) (acc : jsstring) :
  match on_line log_delta log_done line log acc with
  | Next _ acc' =>
      exists a', on_line (Some onDelta) (Some done) line a acc = Next a' acc' /\ kept a a'
  | Finished _ acc' =>
      exists a', on_line (Some onDelta) (Some done) line a acc = Finished (done acc' a') acc'
                 /\ kept a a'
  | Threw _ e =>
      exists a', on_line (Some onDelta) (Some done) line a acc = Threw a' e /\ kept a a'
  end.
Proof.
  unfold on_line. destruct (trim line); [exists a; split; [done | apply kept_refl]|].
  destruct (JSON_parse _) as [obj|]; [|exists a; split; [done | apply kept_refl]].
  unfold on_record.
  destruct (take_fragment_kept obj a log acc) as [Hacc Hst].
  destruct (take_fragment (Some onDelta) obj a acc) as [a1 acc1].
  destruct (take_fragment log_delta obj log acc) as [log1 acc2].
  simpl in Hacc, Hst. subst acc2.
  destruct obj; try (exists a; split; [done | apply kept_refl]);
    destruct (truthy_opt _); by exists a1.
Qed.

Lemma on_lines_kept (lines : list jsstring) (a : App) (log : list StreamEvent)
      (acc : jsstring) :
  match on_lines log_delta log_done lines log acc with
  | Next _ acc' => exists a', session_lines lines a acc = Next a' acc' /\ kept a a'
  | Finished _ acc' =>
      exists a', session_lines lines a acc = Finished (done acc' a') acc' /\ kept a a'
  | Threw _ e => exists a', session_lines lines a acc = Threw a' e /\ kept a a'
  end.
Proof.
  revert a log acc. induction lines as [|l ls IH]; simpl; intros a log acc.
  - exists a. split; [done | apply kept_refl].
  - pose proof (on_line_kept l a log acc) as Hl.
    destruct (on_line log_delta log_done l log acc) as [log1 acc1|log1 acc1|log1 e].
    + destruct Hl as (a1 & -> & Hst).
      specialize (IH a1 log1 acc1).
      destruct (on_lines log_delta log_done ls log1 acc1);
        destruct IH as (a2 & -> & Hst2); exists a2; split; try done;
        by apply (kept_trans a a1 a2).
    + destruct Hl as (a1 & -> & Hst). by exists a1.
    + destruct Hl as (a1 & -> & Hst). by exists a1.
Qed.

(** As long as the stop button is not pressed, the session's call takes
    the course that the texts of the chunks fix. *)
Lemma pump_kept (items : list (ReadItem PageEvent)) (a : App)
      (log : list StreamEvent) (acc buf : jsstring) :
  Forall (fun it => it <> Meanwhile StopClicked) items ->
  signal_aborted a = false ->
  match log_pump (chunks_of (texts_of items)) log acc buf with
  | Reading _ acc' buf' =>
      exists a', session_pump items a acc buf = Reading a' acc' buf' /\ kept a a'
  | Left _ (inr acc') =>
      exists a', session_pump items a acc buf = Left (done acc' a') (inr acc') /\ kept a a'
  | Left _ (inl e) =>
      exists a', session_pump items a acc buf = Left a' (inl e) /\ kept a a'
  end.
Proof.
  intros Hns. revert a log acc buf.
  induction Hns as [|it rest Hit Hns IH]; simpl; intros a log acc buf Hsig.
  - exists a. split; [done | apply kept_refl].
  - destruct it as [text|[| |]]; simpl; [| |done|].
    + pose proof (on_lines_kept (removelast (split_nl (buf ++ text))) a log acc) as Hl.
      destruct (on_lines log_delta log_done _ log acc) as [log1 acc1|log1 acc1|log1 e].
      * destruct Hl as (a1 & -> & Hst).
        assert (signal_aborted a1 = false) as Hsig1.
        { unfold signal_aborted in *. by rewrite (kept_signal _ _ Hst). }
        specialize (IH a1 log1 acc1 (List.last (split_nl (buf ++ text)) []) Hsig1).
        destruct (log_pump _ log1 acc1 _) as [? ? ?|? [?|?]];
          destruct IH as (a2 & -> & Hst2); exists a2; split; try done;
          by apply (kept_trans a a1 a2).
      * destruct Hl as (a1 & -> & Hst). by exists a1.
      * destruct Hl as (a1 & -> & Hst). by exists a1.
    + pose proof (kept_tick a) as Hst. simpl in Hst.
      set (a1 := if flushTimer a then flush a else a) in *.
      assert (signal_aborted a1 = false) as Hsig1.
      { unfold signal_aborted in *. by rewrite (kept_signal _ _ Hst). }
      rewrite Hsig1.
      specialize (IH a1 log acc buf Hsig1).
      destruct (log_pump _ log acc buf) as [? ? ?|? [?|?]];
        destruct IH as (a2 & -> & Hst2); exists a2; split; try done;
        by apply (kept_trans a a1 a2).
    + pose proof (kept_render a) as Hst.
      assert (signal_aborted (render a) = false) as Hsig1.
      { unfold signal_aborted in *. by rewrite (kept_signal _ _ Hst). }
      rewrite Hsig1.
      specialize (IH (render a) log acc buf Hsig1).
      destruct (log_pump _ log acc buf) as [? ? ?|? [?|?]];
        destruct IH as (a2 & -> & Hst2); exists a2; split; try done;
        by apply (kept_trans a (render a) a2).
Qed.
End Simulation.

Section Turns.
Context `{JsEngine}.
Variable t : Turn.
Variable w : World.

Lemma pump_sim (done : jsstring -> App -> App) (items : list (ReadItem PageEvent))
      (a : App) (log : list StreamEvent) (acc buf : jsstring) :
  Forall (fun it => it <> Meanwhile StopClicked) items ->
  signal_aborted a = false ->
  match pump log_delta log_done no_event never_aborted (chunks_of (texts_of items))
          log acc buf with
  | Reading _ acc' buf' =>
      exists a', pump (Some onDelta) (Some done) page_event signal_aborted items a acc buf
                 = Reading a' acc' buf' /\ still a a'
  | Left _ (inr acc') =>
      exists a', pump (Some onDelta) (Some done) page_event signal_aborted items a acc buf
                 = Left (done acc' a') (inr acc') /\ still a a'
  | Left _ (inl e) =>
      exists a', pump (Some onDelta) (Some done) page_event signal_aborted items a acc buf
                 = Left a' (inl e) /\ still a a'
  end.
Proof.
  apply (pump_kept done still still_refl still_trans);
    [by split | apply tick_still | apply render_still|].
  by intros a0 a1 [_ ?].
Qed.


Lemma onDelta_durable (piece : json) (acc : jsstring) (a : App) :
  durable (onDelta piece acc a) = durable a.
Proof. done. Qed.


Lemma clean_durable (a : App) : durable (clean a) = durable a.
Proof. apply clean_still. Qed.










(** ** Persisting *)

Lemma attempt_calls {A : Type} (c : ApiCall) (r : ApiResult A)
      (next : App -> App) (a : App) (more : list ApiCall) :
  (forall b, calls (next b) = calls b ++ more) ->
  calls (attempt c r next a)
  = calls a ++ c :: match r with Ok _ => more | Err _ => [] end.
Proof.
  intros Hn. destruct r; simpl.
  - rewrite Hn. simpl. by rewrite <- app_assoc.
  - done.
Qed.


(** What the calls after the append of the user's text leave alone. *)
Definition shown (a : App) := (messages a, ref_when_rendered a, flushTimer a).

Lemma after_append_shown (cid userText final : jsstring) (a : App) :
  shown (attempt (AppendMessage cid (str "assistant") final) (appendAssistant w)
           (attempt (UpdateChat cid (title_of userText) (sendModel t)) (updateChat w)
              (attempt DeleteDraft (deleteDraft w) (call_api ListChats))) a)
  = shown a.
Proof.
  by destruct (appendAssistant w), (updateChat w), (deleteDraft w).
Qed.








(** The state in which [sendChat] starts to converse. *)
Lemma sendChat_cases (a : App) :
  calls (sendChat t w a) = calls a
  \/ exists a0, sendChat t w a = converse t w (trim (prompt a)) a0
                /\ sendModel t <> [] /\ calls a0 = calls a
                /\ abortRef a0 = Some false
                /\ currentChatId a0 = currentChatId a.
Proof.
  unfold sendChat.
  destruct (sendModel t) as [|m ms] eqn:Em.
  - left. destruct (trim (prompt a)), (attachedDoc a); done.
  - destruct (trim (prompt a)) as [|c u] eqn:Ep, (attachedDoc a) eqn:Ed;
      [right | left; done | right | right];
      (eexists; split; [reflexivity | by repeat split]).
Qed.

Lemma sendChat_started (a : App) :
  trim (prompt a) <> [] \/ attachedDoc a = true -> sendModel t <> [] ->
  exists a0, sendChat t w a = converse t w (trim (prompt a)) a0
             /\ calls a0 = calls a /\ abortRef a0 = Some false
             /\ currentChatId a0 = currentChatId a.
Proof.
  intros Hs Hm. unfold sendChat.
  destruct (sendModel t) as [|m ms] eqn:Em; [done|].
  destruct (trim (prompt a)) as [|c u] eqn:Ep, (attachedDoc a) eqn:Ed;
    try (eexists; split; [reflexivity | by repeat split]).
  destruct Hs; done.
Qed.

Lemma main_payload_valid (userText : jsstring) :
  sendModel t <> [] ->
  p_model (main_payload t userText) <> [] /\ p_messages (main_payload t userText) <> [].
Proof. intros Hm. by split. Qed.

(** The first call when the stop button is pressed before any terminal
    record. *)
Lemma main_call_stopped (chatId : option jsstring) (userText : jsstring) (a : App)
      (items rest : list (ReadItem PageEvent))
      (evs : list StreamEvent) (acc buf : jsstring) :
  sendModel t <> [] ->
  abortRef a = Some false ->
  response (mainStream w) = FetchOk ->
  reads (mainStream w) = items ++ Meanwhile StopClicked :: rest ->
  Forall (fun it => it <> Meanwhile StopClicked) items ->
  feed (texts_of items) = Reading evs acc buf ->
  exists a1, main_call t w chatId userText a = (a1, inl AbortError)
             /\ calls a1 = calls a.
Proof.
  intros Hm Hab Hresp Hreads Hns Hfeed.
  unfold main_call, chatWithOllama.
  destruct (main_payload_valid userText Hm) as [Hpm Hps].
  destruct (p_model _); [done|]. destruct (p_messages _); [done|].
  rewrite Hresp. unfold read_body. rewrite Hreads, pump_app.
  set (a0 := send_request _ a).
  assert (signal_aborted a0 = false) as Hsig.
  { unfold signal_aborted. simpl. by rewrite Hab. }
  pose proof (pump_sim (onDone t w chatId userText) items a0 [] [] [] Hns Hsig) as Hsim.
  unfold feed in Hfeed. rewrite Hfeed in Hsim.
  destruct Hsim as (a1 & -> & [Hd Ha]).
  simpl. unfold stop.
  assert (abortRef a1 = Some false) as Hab1 by (by rewrite Ha).
  rewrite Hab1. simpl. eexists. split; [reflexivity|]. simpl.
  unfold durable in Hd. simpl in Hd. congruence.
Qed.


End Turns.

End SessionFacts.

Module SessionClaims.
Import DecoderFacts SessionFacts.

(** C8, where the code departs from it. An answer is cut off inside a
    code block, after a line feed; the interval has shown it and React has
    rendered. The normalization pass takes the line feed at the end away,
    and the text it gives has an open fence. When React puts the updater
    of [onDone] off to its next render, the loop that follows
    [setMessages] reads the ref before that text is written to it: the
    one repair request that it sends carries the text as the interval
    showed it, line feed and all, not the last 800 code units of the
    normalized text. When React has not rendered since the interval
    fired either, the ref is still empty and no repair request is sent at
    all. When React runs the updater inside [setMessages], the request
    carries the normalized text. However that may be, the fence stays
    open: after the repair, which adds [y], no second request is sent, no
    error is set, and the text is appended to the chat as it is. *)
Theorem repair_reads_the_ref_before_it_is_written :
  let raced :=
    sendChat (H := reference_engine) turn_m (world_cut AtNextRender [Rendered]) app_hi in
  let unseen :=
    sendChat (H := reference_engine) turn_m (world_cut AtNextRender []) app_hi in
  let plain :=
    sendChat (H := reference_engine) turn_m (world_cut AtOnce [Rendered]) app_hi in
  let cleaned := str "```js" ++ [NL] ++ str "let x = 1;" in
  normalization_pass cut_text = cleaned
  /\ hasOpenCodeFence cleaned = true
  /\ requests raced = [ main_payload turn_m (str "hi"); repair_payload turn_m cut_text ]
  /\ repair_payload turn_m cut_text
     <> repair_payload turn_m (slice cleaned (-800) None)
  /\ requests unseen = [ main_payload turn_m (str "hi") ]
  /\ requests plain = [ main_payload turn_m (str "hi"); repair_payload turn_m cleaned ]
  /\ (forall a, a = raced \/ a = plain ->
      last_message (messages a)
      = Some {| ui_role := Assistent; ui_content := cleaned ++ str "y" |}
      /\ hasOpenCodeFence (cleaned ++ str "y") = true
      /\ error a = []
      /\ loading a = false
      /\ calls a
         = [ CreateChat None (str "mixtral:latest");
             AppendMessage (str "c1") (str "user") (str "hi");
             AppendMessage (str "c1") (str "assistant") (cleaned ++ str "y");
             UpdateChat (str "c1") (str "hi") (str "mixtral:latest");
             DeleteDraft; ListChats ])
  /\ last_message (messages unseen)
     = Some {| ui_role := Assistent; ui_content := cleaned |}
  /\ error unseen = []
  /\ calls unseen
     = [ CreateChat None (str "mixtral:latest");
         AppendMessage (str "c1") (str "user") (str "hi");
         AppendMessage (str "c1") (str "assistant") cleaned;
         UpdateChat (str "c1") (str "hi") (str "mixtral:latest");
         DeleteDraft; ListChats ].
Proof.
  cbv zeta.
  do 3 (split; [vm_compute; reflexivity|]).
  split; [vm_compute; discriminate|].
  do 2 (split; [vm_compute; reflexivity|]).
  split; [|repeat split; vm_compute; reflexivity].
  intros a [-> | ->]; repeat split; vm_compute; reflexivity.
Qed.

(** C4. When the user presses the stop button while the first stream is
    read, after any number of chunks and timer ticks in which no terminal
    record came, the turn makes no [appendMessage] call: neither for the
    assistant's text nor for the user's. *)
Theorem aborted_turn_appends_nothing `{JsEngine} (t : Turn) (w : World) (a : App)
        (items rest : list (ReadItem PageEvent))
        (evs : list StreamEvent) (acc buf : jsstring) :
  response (mainStream w) = FetchOk ->
  reads (mainStream w) = items ++ Meanwhile StopClicked :: rest ->
  Forall (fun it => it <> Meanwhile StopClicked) items ->
  feed (texts_of items) = Reading evs acc buf ->
  exists added,
    calls (sendChat t w a) = calls a ++ added
    /\ Forall (fun c => is_append c = false) added.
Proof.
  intros Hresp Hreads Hns Hfeed.
  destruct (sendChat_cases t w a) as [Hc | (a0 & -> & Hm & Hc & Hab & Hid)].
  { exists []. rewrite app_nil_r. split; [done | constructor]. }
  unfold converse.
  destruct (negb (incognito t) && negb (truthy_id (currentChatId a0))).
  - destruct (createChat w) as [cid|m].
    + destruct (main_call_stopped t w (Some cid) (trim (prompt a))
                  (setCurrentChatId (Some cid) (call_api (CreateChat None (sendModel t)) a0))
                  items rest evs acc buf Hm Hab Hresp Hreads Hns Hfeed) as (a1 & -> & Hc1).
      exists [CreateChat None (sendModel t)]. split; [|by repeat constructor].
      simpl in *. destruct (loading a1); simpl; congruence.
    + exists [CreateChat None (sendModel t)]. split; [|by repeat constructor].
      simpl. congruence.
  - destruct (main_call_stopped t w (currentChatId a0) (trim (prompt a)) a0
                items rest evs acc buf Hm Hab Hresp Hreads Hns Hfeed) as (a1 & -> & Hc1).
    exists []. rewrite app_nil_r. split; [|constructor]. simpl. congruence.
Qed.


Lemma aborted_turn_appends_nothing_witness :
  response (mainStream world_stopped) = FetchOk
  /\ reads (mainStream world_stopped) = reads_before_stop ++ Meanwhile StopClicked :: []
  /\ Forall (fun it => it <> Meanwhile StopClicked) reads_before_stop
  /\ feed (H := reference_engine) (texts_of reads_before_stop)
     = Reading [ Delta (JStr (str "ab")) (str "ab") ] (str "ab") []
  /\ exists added,
       calls (sendChat (H := reference_engine) turn_m world_stopped app_hi)
       = calls app_hi ++ added
       /\ Forall (fun c => is_append c = false) added.
Proof.
  assert (Forall (fun it => it <> Meanwhile StopClicked) reads_before_stop) as H3
      by (repeat constructor; discriminate).
  assert (feed (H := reference_engine) (texts_of reads_before_stop)
          = Reading [ Delta (JStr (str "ab")) (str "ab") ] (str "ab") []) as H4
      by (vm_compute; reflexivity).
  refine (conj eq_refl (conj eq_refl (conj H3 (conj H4 _)))).
  exact (aborted_turn_appends_nothing (H := reference_engine) turn_m world_stopped app_hi
           reads_before_stop [] _ _ _ eq_refl eq_refl H3 H4).
Defined.



End SessionClaims.

Module RepairClaims.
Import DecoderFacts SessionFacts.

Section Budget.
Context `{JsEngine}.
Variable t : Turn.
Variable w : World.


End Budget.



End RepairClaims.
(* ===================================================================== *)
(** * Facts about the storage API *)
(* ===================================================================== *)

Module BackendFacts.

Lemma fold_max_ge (rs : list MessageRow) (a : Z) :
  (a <= fold_left (fun m x => Z.max m (msg_idx x)) rs a)%Z
  /\ Forall (fun x => (msg_idx x <= fold_left (fun m x => Z.max m (msg_idx x)) rs a)%Z) rs.
Proof.
  revert a. induction rs as [|r rs IH]; simpl; intros a.
  - split; [lia | constructor].
  - destruct (IH (Z.max a (msg_idx r))) as [H1 H2]. split; [lia|].
    constructor; [lia | done].
Qed.

Lemma max_idx_bound (rows : list MessageRow) :
  Forall (fun x => (msg_idx x <= max_idx rows)%Z) rows.
Proof.
  destruct rows as [|r rs]; simpl; [constructor|].
  destruct (fold_max_ge rs (msg_idx r)) as [H1 H2]. by constructor.
Qed.

Lemma select_chat_exists (db : DB) (chat user : jsstring) :
  select_chat db chat user <> [] ->
  existsb (fun c => bool_decide (chat_id c = chat)) (chats_table db) = true.
Proof.
  unfold select_chat. intros Hne.
  destruct (filter _ (chats_table db)) as [|c cs] eqn:E; [by destruct Hne|].
  assert (c ∈ filter (fun c => chat_id c = chat /\ chat_user_id c = user) (chats_table db))
    as Hin by (rewrite E; left).
  apply list_elem_of_filter in Hin as [[Hid _] Hin].
  apply existsb_exists. exists c. split; [by apply list_elem_of_In|].
  by apply bool_decide_eq_true.
Qed.

(** The position after the highest one of the chat is free: the unique key
    never refuses the row of a transaction that runs alone. *)
Lemma next_idx_free (db : DB) (id ts chat role text : jsstring) :
  Forall (fun m => msg_id m <> id) (messages_table db) ->
  forallb (fun m => negb (bool_decide (msg_id m = id))
                    && negb (bool_decide (msg_chat_id m = chat)
                             && (msg_idx m =? select_max_idx db chat + 1)%Z))
          (messages_table db) = true.
Proof.
  intros Hid. apply forallb_forall. intros m Hin.
  apply list_elem_of_In in Hin. rewrite Forall_forall in Hid.
  apply andb_true_iff. split.
  - apply negb_true_iff, bool_decide_eq_false. by apply Hid.
  - apply negb_true_iff, andb_false_iff.
    destruct (decide (msg_chat_id m = chat)) as [Hc|Hc].
    + right. apply Z.eqb_neq.
      assert (m ∈ messages_of db chat) as Hm.
      { unfold messages_of. by apply list_elem_of_filter. }
      pose proof (max_idx_bound (messages_of db chat)) as Hb.
      rewrite Forall_forall in Hb. specialize (Hb m Hm).
      unfold select_max_idx. lia.
    + left. by apply bool_decide_eq_false.
Qed.


End BackendFacts.

Module BackendClaims.
Import BackendFacts.


Ltac rolled_back o :=
  simpl;
  destruct (o (Rollback InCatch)) eqn:?; simpl;
  (split; [done|]);
  (split; [right; apply list_elem_of_In; simpl; tauto|]);
  (split; [intros (? & ? & ?) ?; congruence|]);
  split; intros _ ?; by try congruence.

(** X29. When a step inside the transaction fails, nothing of the
    transaction is committed: the tables are as before, so no message is
    inserted and no [updated_at] has changed. [ROLLBACK] is sent. The reply
    is 404 [not found] when the transaction found no chat of the caller and
    the [ROLLBACK] of the [try] went through. Otherwise the [catch] sends
    [ROLLBACK]: when that goes through the reply is 500 [append failed],
    and when it is rejected the handler replies nothing. Where a
    [ROLLBACK] went through, the connection is left without pending
    work. *)
Theorem failed_append_rolls_back `{JsEngine} (o : Oracle) (id ts user chat : jsstring)
        (r : json) (text : jsstring) (db : DB) :
  truthy r = true ->
  o GetConnection = false ->
  step_fails o db id ts user chat (to_string r) text ->
  let result := post_message o id ts user chat (Some r) (Some (JStr text)) db in
  let missing := finds_no_chat o db chat user in
  committed (fst result) = db
  /\ (Rollback InTry ∈ sent (fst result) \/ Rollback InCatch ∈ sent (fst result))
  /\ (missing -> o (Rollback InTry) = false ->
      snd result = Some (Refused 404 (str "not found")) /\ working (fst result) = db)
  /\ (~ missing \/ o (Rollback InTry) = true ->
      o (Rollback InCatch) = false ->
      snd result = Some (Refused 500 (str "append failed")) /\ working (fst result) = db)
  /\ (~ missing \/ o (Rollback InTry) = true ->
      o (Rollback InCatch) = true ->
      snd result = None).
Proof.
  intros Hr Hconn Hfail result missing. subst result missing.
  unfold finds_no_chat, post_message. rewrite Hr, Hconn.
  unfold append_transaction, mbind, M_bind, beginTransaction, query_chat, rollback,
    statement.
  simpl.
  destruct (o BeginTransaction) eqn:E1.
  { rolled_back o. }
  simpl.
  destruct (o (SelectChat chat user)) eqn:E2.
  { rolled_back o. }
  simpl.
  destruct (select_chat db chat user) as [|c cs] eqn:Ec; simpl.
  { destruct (o (Rollback InTry)) eqn:E8; simpl.
    - destruct (o (Rollback InCatch)) eqn:E9; simpl;
        (split; [done|]);
        (split; [left; apply list_elem_of_In; simpl; tauto|]);
        (split; [intros _ ?; congruence|]);
        split; intros _ ?; by try congruence.
    - split; [done|].
      split; [left; apply list_elem_of_In; simpl; tauto|].
      split; [done|].
      split; intros [Hn | ?] ?; try congruence; by destruct Hn. }
  unfold mbind, M_bind, query_max_for_update, query_insert, query_update, commit,
    statement. simpl.
  destruct (o (SelectMaxIdxForUpdate chat)) eqn:E3.
  { rolled_back o. }
  simpl. fold (new_row db id ts chat (to_string r) text).
  destruct (o (InsertMessage _)) eqn:E4.
  { rolled_back o. }
  simpl.
  destruct (insert_message db _) as [db1|] eqn:E5.
  2: { rolled_back o. }
  simpl.
  destruct (o (UpdateChatTimestamp chat ts)) eqn:E6.
  { rolled_back o. }
  simpl.
  destruct (o Commit) eqn:E7.
  { rolled_back o. }
  unfold step_fails in Hfail. rewrite E1, E2, Ec, E3, E4, E5, E6, E7 in Hfail.
  repeat (destruct Hfail as [Hfail|Hfail]; [done|]). done.
Qed.


Lemma failed_append_rolls_back_witness :
  truthy (H := reference_engine) (JStr (str "user")) = true
  /\ commit_fails GetConnection = false
  /\ step_fails commit_fails db_one_message (str "m2") (str "t2") (str "u1") (str "c1")
       (str "user") (str "hello")
  /\ commit_fails (Rollback InCatch) = false
  /\ committed (fst (post_message (H := reference_engine) commit_fails (str "m2") (str "t2")
                       (str "u1") (str "c1") (Some (JStr (str "user")))
                       (Some (JStr (str "hello"))) db_one_message))
     = db_one_message
  /\ snd (post_message (H := reference_engine) commit_fails (str "m2") (str "t2")
            (str "u1") (str "c1") (Some (JStr (str "user")))
            (Some (JStr (str "hello"))) db_one_message)
     = Some (Refused 500 (str "append failed")).
Proof.
  assert (step_fails commit_fails db_one_message (str "m2") (str "t2") (str "u1") (str "c1")
            (str "user") (str "hello")) as Hf
      by (unfold step_fails; do 7 right; reflexivity).
  assert (~ finds_no_chat commit_fails db_one_message (str "c1") (str "u1")
          \/ commit_fails (Rollback InTry) = true) as Hm
      by (left; intros (_ & _ & Hc); vm_compute in Hc; discriminate).
  refine (conj eq_refl (conj eq_refl (conj Hf (conj eq_refl _)))).
  destruct (failed_append_rolls_back (H := reference_engine) commit_fails
              (str "m2") (str "t2") (str "u1") (str "c1") (JStr (str "user"))
              (str "hello") db_one_message eq_refl eq_refl Hf)
    as (Hc & _ & _ & H500 & _).
  exact (conj Hc (proj1 (H500 Hm eq_refl))).
Defined.

(** C3, where the code departs from it. The chat is there and is the
    caller's; the commit is rejected, and so is the [ROLLBACK] that the
    [catch] sends, as both are on a connection that is lost. Nothing is
    committed, and the connection is released. But [res.status(500)]
    comes after the [await conn.rollback()] that throws: the handler
    replies nothing, neither 404 nor 500. When the [ROLLBACK] goes
    through, the same request is answered 500 [append failed]. *)
Theorem rejected_rollback_surfaces_nothing :
  truthy (H := reference_engine) (JStr (str "user")) = true
  /\ commit_and_rollback_fail GetConnection = false
  /\ step_fails commit_and_rollback_fail db_one_message (str "m2") (str "t2")
       (str "u1") (str "c1") (str "user") (str "hello")
  /\ snd (post_message (H := reference_engine) commit_and_rollback_fail
            (str "m2") (str "t2") (str "u1") (str "c1") (Some (JStr (str "user")))
            (Some (JStr (str "hello"))) db_one_message)
     = None
  /\ committed (fst (post_message (H := reference_engine) commit_and_rollback_fail
                       (str "m2") (str "t2") (str "u1") (str "c1")
                       (Some (JStr (str "user"))) (Some (JStr (str "hello")))
                       db_one_message))
     = db_one_message
  /\ snd (post_message (H := reference_engine) commit_fails
            (str "m2") (str "t2") (str "u1") (str "c1") (Some (JStr (str "user")))
            (Some (JStr (str "hello"))) db_one_message)
     = Some (Refused 500 (str "append failed"))
  /\ sent (fst (post_message (H := reference_engine) commit_and_rollback_fail
                  (str "m2") (str "t2") (str "u1") (str "c1") (Some (JStr (str "user")))
                  (Some (JStr (str "hello"))) db_one_message))
     = [ BeginTransaction; SelectChat (str "c1") (str "u1");
         SelectMaxIdxForUpdate (str "c1");
         InsertMessage {| msg_id := str "m2"; msg_chat_id := str "c1";
                          msg_role := str "user"; msg_content := str "hello";
                          msg_idx := 1; msg_created_at := str "t2" |};
         UpdateChatTimestamp (str "c1") (str "t2"); Commit; Rollback InCatch; Release ].
Proof.
  split; [reflexivity|]. split; [reflexivity|].
  split; [unfold step_fails; do 7 right; reflexivity|].
  repeat split; vm_compute; reflexivity.
Qed.

End BackendClaims.
(* ===================================================================== *)
(** * Facts about the ledger under concurrency *)
(* ===================================================================== *)

Module LedgerFacts.
Import BackendFacts.

(** ** Positions in order *)

Lemma insert_by_idx_front (r : MessageRow) (rows : list MessageRow) (a : Z) (n : nat) :
  (msg_idx r < a)%Z -> map msg_idx rows = seqZ a (Z.of_nat n) ->
  insert_by_idx r rows = r :: rows.
Proof.
  intros Hr Hrows. destruct rows as [|x rest]; [done|]. simpl.
  destruct n as [|n]; [done|].
  rewrite Nat2Z.inj_succ, seqZ_cons in Hrows by lia. simpl in Hrows.
  injection Hrows as Hx _.
  destruct (msg_idx r <? msg_idx x)%Z eqn:E; [done|]. apply Z.ltb_ge in E. lia.
Qed.

Lemma order_by_idx_sorted (rows : list MessageRow) (a : Z) (n : nat) :
  map msg_idx rows = seqZ a (Z.of_nat n) -> order_by_idx rows = rows.
Proof.
  revert a n. induction rows as [|r rows IH]; intros a n Hrows; [done|].
  destruct n as [|n]; [done|].
  rewrite Nat2Z.inj_succ, seqZ_cons in Hrows by lia. simpl in Hrows.
  injection Hrows as Hr Hrest.
  replace (Z.pred (Z.succ (Z.of_nat n))) with (Z.of_nat n) in Hrest by lia.
  unfold order_by_idx in *. simpl. rewrite (IH _ _ Hrest).
  apply (insert_by_idx_front r rows (Z.succ a) n); [lia | done].
Qed.

Lemma max_idx_attained (rows : list MessageRow) :
  rows <> [] -> exists x, x ∈ rows /\ msg_idx x = max_idx rows.
Proof.
  destruct rows as [|r rs]; [done|]. intros _. simpl.
  assert (forall a (l : list MessageRow),
             fold_left (fun m x => Z.max m (msg_idx x)) l a = a
             \/ exists x, x ∈ l /\ msg_idx x = fold_left (fun m x => Z.max m (msg_idx x)) l a)
    as Hfold.
  { intros a l. revert a. induction l as [|y l IH]; simpl; intros a; [by left|].
    destruct (IH (Z.max a (msg_idx y))) as [Heq | (x & Hin & Hx)].
    - destruct (Z.max_spec a (msg_idx y)) as [[_ Hm]|[_ Hm]].
      + right. exists y. split; [left | congruence].
      + left. congruence.
    - right. exists x. split; [by right | done]. }
  destruct (Hfold (msg_idx r) rs) as [Heq | (x & Hin & Hx)].
  - exists r. split; [left | done].
  - exists x. split; [by right | done].
Qed.

Lemma max_idx_seq (rows : list MessageRow) (n : nat) :
  map msg_idx rows = seqZ 0 (Z.of_nat n) -> max_idx rows = (Z.of_nat n - 1)%Z.
Proof.
  intros Hrows. destruct rows as [|r rs] eqn:E.
  - destruct n; [done|]. rewrite Nat2Z.inj_succ, seqZ_cons in Hrows by lia. done.
  - rewrite <- E in *. assert (rows <> []) as Hne by (by rewrite E).
    destruct (max_idx_attained rows Hne) as (x & Hin & Hx).
    assert (msg_idx x ∈ seqZ 0 (Z.of_nat n)) as Hx1.
    { rewrite <- Hrows. apply list_elem_of_fmap. by exists x. }
    apply elem_of_seqZ in Hx1.
    assert (Z.of_nat n - 1 ∈ map msg_idx rows)%Z as Hlast.
    { rewrite Hrows. apply elem_of_seqZ. lia. }
    apply list_elem_of_fmap in Hlast as (y & Hy & Hyin).
    pose proof (max_idx_bound rows) as Hb. rewrite Forall_forall in Hb.
    specialize (Hb y Hyin). lia.
Qed.

(** ** Counting the handlers that succeeded *)

Lemma count_alter (chat : jsstring) (f : Thread -> Thread) (ths : list Thread)
      (i : nat) (th : Thread) :
  ths !! i = Some th ->
  count_appended chat (alter f i ths) + one_if (appended_to chat th)
  = count_appended chat ths + one_if (appended_to chat (f th)).
Proof.
  unfold count_appended. revert i. induction ths as [|x ths IH]; intros i Hi; [done|].
  destruct i as [|i]; simpl in *.
  - injection Hi as ->. rewrite !filter_cons.
    destruct (appended_to chat (f th)), (appended_to chat th);
      repeat case_decide; simpl; try done; lia.
  - specialize (IH i Hi). change (alter f i ths) with (list_alter f i ths) in IH.
    rewrite !filter_cons. case_decide; simpl; lia.
Qed.

Lemma lookup_moved (ths : list Thread) (i j : nat) (p : PC) (th : Thread) :
  alter (moved p) i ths !! j = Some th ->
  (j = i /\ exists th0, ths !! i = Some th0 /\ th = moved p th0)
  \/ (j <> i /\ ths !! j = Some th).
Proof.
  intros Hl. destruct (decide (j = i)) as [->|Hne].
  - left. split; [done|]. rewrite list_lookup_alter_eq in Hl.
    destruct (ths !! i) as [th0|]; [|done]. simpl in Hl. injection Hl as <-.
    by exists th0.
  - right. split; [done|]. by rewrite list_lookup_alter_ne in Hl.
Qed.

(** A move that is not a commit: the count of successes stays. *)
Lemma quiet_count (ths : list Thread) (i : nat) (th : Thread) (p : PC) (chat : jsstring) :
  ths !! i = Some th ->
  appended_to chat (moved p th) = appended_to chat th ->
  count_appended chat (alter (moved p) i ths) = count_appended chat ths.
Proof.
  intros Hi Hs. pose proof (count_alter chat (moved p) ths i th Hi) as Hc.
  rewrite Hs in Hc. lia.
Qed.

Lemma quiet_invariant (w : System) (i : nat) (th : Thread) (p : PC)
      (locks' : gmap jsstring nat) :
  invariant w ->
  threads w !! i = Some th ->
  (forall chat, appended_to chat (moved p th) = appended_to chat th) ->
  (forall m, p = MaxRead m ->
             (-1 <= m < Z.of_nat (successful_appends w (req_chat (request th))))%Z) ->
  (forall row, pending_row p = [row] ->
               msg_chat_id row = req_chat (request th)
               /\ msg_idx row = Z.of_nat (successful_appends w (req_chat (request th)))) ->
  (forall row j thj rj, pending_row p = [row] -> j <> i ->
               threads w !! j = Some thj -> pending_row (pc thj) = [rj] ->
               req_chat (request thj) <> req_chat (request th)) ->
  invariant {| store := store w; locks := locks';
               threads := alter (moved p) i (threads w) |}.
Proof.
  intros Hinv Hi Hsame Hmax Hrow Hsingle.
  assert (forall chat, successful_appends
                         {| store := store w; locks := locks';
                            threads := alter (moved p) i (threads w) |} chat
                       = successful_appends w chat) as Hcount.
  { intros chat. apply (quiet_count _ _ th); done. }
  split; simpl.
  - intros chat. rewrite Hcount. apply Hinv.
  - intros j thj m Hj Hpc. rewrite Hcount.
    apply lookup_moved in Hj as [(-> & th0 & Hi0 & ->) | (Hne & Hj)].
    + rewrite Hi in Hi0. injection Hi0 as <-. by apply Hmax.
    + by apply (inv_max w Hinv j).
  - intros j thj row Hj Hpc. rewrite Hcount.
    apply lookup_moved in Hj as [(-> & th0 & Hi0 & ->) | (Hne & Hj)].
    + rewrite Hi in Hi0. injection Hi0 as <-. by apply Hrow.
    + by apply (inv_row w Hinv j).
  - intros j k thj thk rj rk Hj Hk Hpj Hpk Hchat.
    apply lookup_moved in Hj as [(-> & th0 & Hi0 & ->) | (Hnej & Hj)];
      apply lookup_moved in Hk as [(-> & th1 & Hi1 & ->) | (Hnek & Hk)]; [done| | |].
    + rewrite Hi in Hi0. injection Hi0 as <-. simpl in *.
      by destruct (Hsingle rj k thk rk Hpj Hnek Hk Hpk).
    + rewrite Hi in Hi1. injection Hi1 as <-. simpl in *.
      by destruct (Hsingle rk j thj rj Hpk Hnej Hj Hpj).
    + by apply (inv_single w Hinv j k thj thk rj rk).
Qed.

(** ** The keys *)

Lemma pending_rows_elem (ths : list Thread) (i j : nat) (thj : Thread) (r : MessageRow) :
  j <> i -> ths !! j = Some thj -> pending_row (pc thj) = [r] ->
  r ∈ pending_rows i ths.
Proof.
  intros Hne Hj Hr. unfold pending_rows. apply list_elem_of_In, in_concat.
  exists [r]. split; [|by left].
  apply list_elem_of_In.
  pose proof (elem_of_lookup_imap_2
                (fun j th => if bool_decide (j = i) then [] else pending_row (pc th))
                ths thj j Hj) as Hin.
  simpl in Hin. by rewrite bool_decide_eq_false_2, Hr in Hin.
Qed.

(** What [uq_chat_idx] asks of an insert. *)
Lemma key_free_position (db : DB) (row x : MessageRow) :
  key_free db row = true -> x ∈ messages_table db ->
  msg_chat_id x = msg_chat_id row -> msg_idx x <> msg_idx row.
Proof.
  unfold key_free. intros Hk Hx Hc Hi.
  apply andb_true_iff in Hk as [Hk _]. rewrite forallb_forall in Hk.
  specialize (Hk x (proj1 (list_elem_of_In _ _) Hx)).
  apply andb_true_iff in Hk as [_ Hk].
  rewrite bool_decide_eq_true_2 in Hk by done.
  apply Z.eqb_eq in Hi. by rewrite Hi in Hk.
Qed.

(** The position after a maximum that may be stale is free only when the
    maximum is not stale. *)
Lemma free_position_is_next (db : DB) (row : MessageRow) (m : Z) (n : nat) :
  map msg_idx (messages_of db (msg_chat_id row)) = seqZ 0 (Z.of_nat n) ->
  (-1 <= m < Z.of_nat n)%Z -> msg_idx row = (m + 1)%Z ->
  key_free db row = true ->
  msg_idx row = Z.of_nat n.
Proof.
  intros Hpos Hm Hidx Hk.
  destruct (decide (m + 1 = Z.of_nat n)%Z) as [|Hne]; [congruence|].
  assert (msg_idx row ∈ map msg_idx (messages_of db (msg_chat_id row))) as Hin.
  { rewrite Hpos. apply elem_of_seqZ. lia. }
  apply list_elem_of_fmap in Hin as (x & Hx & Hxin).
  unfold messages_of in Hxin. apply list_elem_of_filter in Hxin as [Hxc Hxin].
  by destruct (key_free_position db row x Hk Hxin Hxc).
Qed.

(** ** The commit *)

Lemma messages_of_commit (db : DB) (row : MessageRow) (chat ts c : jsstring) :
  messages_of (update_chat_timestamp
                 {| chats_table := chats_table db;
                    messages_table := messages_table db ++ [row] |} chat ts) c
  = messages_of db c ++ (if bool_decide (msg_chat_id row = c) then [row] else []).
Proof.
  unfold messages_of. simpl. rewrite filter_app. f_equal.
  rewrite filter_cons, filter_nil. case_decide; case_bool_decide; done.
Qed.

Lemma commit_invariant (w : System) (i : nat) (th : Thread) (row : MessageRow)
      (locks' : gmap jsstring nat) :
  invariant w ->
  threads w !! i = Some th ->
  pc th = Updated row ->
  invariant
    {| store := update_chat_timestamp
                  {| chats_table := chats_table (store w);
                     messages_table := messages_table (store w) ++ [row] |}
                  (req_chat (request th)) (msg_created_at row);
       locks := locks';
       threads := alter (moved (Committed row)) i (threads w) |}.
Proof.
  intros Hinv Hi Hpc.
  set (p := Committed row).
  set (chat := req_chat (request th)).
  set (w' := {| store := _; locks := _; threads := _ |}).
  destruct (inv_row w Hinv i th row Hi) as [Hrc Hri]; [by rewrite Hpc|].
  fold chat in Hrc, Hri.
  assert (forall c, successful_appends w' c
                    = successful_appends w c + one_if (bool_decide (chat = c))) as Hcount.
  { intros c. pose proof (count_alter c (moved p) (threads w) i th Hi) as Hc.
    unfold appended_to in Hc at 1 2. rewrite Hpc in Hc. simpl in Hc.
    fold chat in Hc. unfold successful_appends, w'. cbn [threads].
    unfold count_appended in *.
    destruct (bool_decide (chat = c)); simpl in *; lia. }
  assert (forall j thj rj, j <> i -> threads w !! j = Some thj ->
                           pending_row (pc thj) = [rj] -> req_chat (request thj) <> chat)
    as Hother.
  { intros j thj rj Hne Hj Hpj Heq. apply Hne.
    apply (inv_single w Hinv j i thj th rj row); try done. by rewrite Hpc. }
  split.
  - intros c. rewrite Hcount. unfold w'. cbn [store].
    rewrite messages_of_commit, map_app, (inv_positions w Hinv c).
    rewrite Hrc. destruct (decide (chat = c)) as [<-|Hc].
    + rewrite !bool_decide_eq_true_2 by done. simpl.
      rewrite Hri, Nat2Z.inj_add. simpl. by rewrite seqZ_app, Z.add_0_l by lia.
    + rewrite !bool_decide_eq_false_2 by done. simpl.
      by rewrite app_nil_r, Nat.add_0_r.
  - intros j thj m Hj Hpcj. rewrite Hcount. unfold w' in Hj. cbn [threads] in Hj.
    apply lookup_moved in Hj as [(-> & th0 & Hi0 & ->) | (Hne & Hj)]; [done|].
    pose proof (inv_max w Hinv j thj m Hj Hpcj). lia.
  - intros j thj r Hj Hpcj. rewrite Hcount. unfold w' in Hj. cbn [threads] in Hj.
    apply lookup_moved in Hj as [(-> & th0 & Hi0 & ->) | (Hne & Hj)]; [done|].
    assert (req_chat (request thj) <> chat) as Hc by apply (Hother j thj r Hne Hj Hpcj).
    rewrite bool_decide_eq_false_2 by done. simpl. rewrite Nat.add_0_r.
    by apply (inv_row w Hinv j).
  - intros j k thj thk rj rk Hj Hk Hpj Hpk Hchat. unfold w' in Hj, Hk.
    cbn [threads] in Hj, Hk.
    apply lookup_moved in Hj as [(-> & th0 & Hi0 & ->) | (Hnej & Hj)]; [done|].
    apply lookup_moved in Hk as [(-> & th1 & Hi1 & ->) | (Hnek & Hk)]; [done|].
    by apply (inv_single w Hinv j k thj thk rj rk).
Qed.

Section Steps.
Context `{JsEngine}.
Variable exclusive : DB -> jsstring -> bool.

Lemma initial_thread (chats : list ChatRow) (rqs : list Request) (i : nat) (th : Thread) :
  threads (initial chats rqs) !! i = Some th -> pc th = Arrived.
Proof.
  unfold initial. simpl. intros Hi.
  change (map ?f rqs) with (f <$> rqs) in Hi. rewrite list_lookup_fmap in Hi.
  destruct (rqs !! i); [|done]. by injection Hi as <-.
Qed.

Lemma initial_invariant (chats : list ChatRow) (rqs : list Request) :
  invariant (initial chats rqs).
Proof.
  assert (forall chat, successful_appends (initial chats rqs) chat = 0) as Hz.
  { intros chat. unfold successful_appends, initial. simpl. unfold count_appended.
    induction rqs as [|rq rqs IH]; [done|]. simpl. by rewrite filter_cons_False. }
  split.
  - intros chat. by rewrite Hz.
  - intros i th m Hi Hpc. apply initial_thread in Hi. by rewrite Hi in Hpc.
  - intros i th row Hi Hpc. apply initial_thread in Hi. by rewrite Hi in Hpc.
  - intros i j thi thj ri rj Hi _ Hpc. apply initial_thread in Hi. by rewrite Hi in Hpc.
Qed.

(** The obligations of [quiet_invariant] for a move to a place where the
    handler holds neither a maximum nor a row. *)
Lemma leave_invariant (w : System) (i : nat) (th : Thread) (p : PC)
      (locks' : gmap jsstring nat) :
  invariant w ->
  threads w !! i = Some th ->
  (forall chat, appended_to chat (moved p th) = appended_to chat th) ->
  in_critical p = false ->
  invariant {| store := store w; locks := locks';
               threads := alter (moved p) i (threads w) |}.
Proof.
  intros Hinv Hi Hsame Hp.
  apply (quiet_invariant w i th p locks'); try done.
  - intros m ->. done.
  - intros row Hr. by destruct p.
  - intros row j thj rj Hr. by destruct p.
Qed.

Lemma advance_invariant (fault : bool) (id ts : jsstring) (i : nat) (w w' : System) :
  advance exclusive fault id ts i w = Some w' -> invariant w -> invariant w'.
Proof.
  unfold advance. intros Hstep Hinv.
  destruct (threads w !! i) as [th|] eqn:Hi; [|done].
  destruct (pc th) as [| | | |m|row|row|row|r|] eqn:Hpc; try done.
  - (* Arrived *)
    assert (exists p, w' = set_pc i p w /\ in_critical p = false
                      /\ forall chat, appended_to chat (moved p th) = false)
      as (p & -> & Hp & Hnew).
    { destruct (req_role (request th)) as [r|];
        [destruct (req_content (request th)) as [[]|]|];
        try (injection Hstep as <-; eexists; by repeat split).
      destruct (truthy r); injection Hstep as <-; destruct fault;
        eexists; by repeat split. }
    apply (leave_invariant w i th p (locks w)); try done.
    intros chat. unfold appended_to at 2. by rewrite Hpc.
  - (* Connected *)
    destruct fault; injection Hstep as <-.
    + apply (leave_invariant w i th _ _); try done.
      intros chat. unfold appended_to at 2. by rewrite Hpc.
    + apply (leave_invariant w i th InTransaction (locks w)); try done.
      intros chat. unfold appended_to at 2. by rewrite Hpc.
  - (* InTransaction *)
    destruct fault.
    + injection Hstep as <-. apply (leave_invariant w i th _ _); try done.
      intros chat. unfold appended_to at 2. by rewrite Hpc.
    + destruct (select_chat _ _ _); injection Hstep as <-.
      * apply (leave_invariant w i th (Replied (Refused 404 (str "not found"))) (locks w));
          try done. intros chat; unfold appended_to at 2; by rewrite Hpc.
      * apply (leave_invariant w i th ChatFound (locks w)); try done.
        intros chat; unfold appended_to at 2; by rewrite Hpc.
  - (* ChatFound *)
    destruct fault.
    + injection Hstep as <-. apply (leave_invariant w i th _ _); try done.
      intros chat. unfold appended_to at 2. by rewrite Hpc.
    + assert (exists locks', w' = {| store := store w; locks := locks';
                  threads := alter (moved (MaxRead (select_max_idx (store w)
                                                      (req_chat (request th)))))
                                   i (threads w) |}) as (locks' & ->).
      { unfold locking_read in Hstep. destruct (exclusive _ _).
        - destruct (locks w !! _); [done|]. injection Hstep as <-. by eexists.
        - injection Hstep as <-. by eexists. }
      apply (quiet_invariant w i th (MaxRead _) locks'); try done.
      * intros chat. unfold appended_to at 2. by rewrite Hpc.
      * intros m [= <-]. unfold select_max_idx.
        rewrite (max_idx_seq _ _ (inv_positions w Hinv _)). lia.
  - (* MaxRead *)
    destruct fault.
    + injection Hstep as <-. apply (leave_invariant w i th _ _); try done.
      intros chat. unfold appended_to at 2. by rewrite Hpc.
    + destruct (key_free (store w) _) eqn:Hkey.
      * destruct (key_free _ _) eqn:Hpending in Hstep; [|done]. injection Hstep as <-.
        match type of Hkey with
        | key_free _ ?row = true =>
            pose proof (free_position_is_next (store w) row m _
                          (inv_positions w Hinv _) (inv_max w Hinv i th m Hi Hpc)
                          eq_refl Hkey) as Hnext
        end.
        apply (quiet_invariant w i th (Inserted _) (locks w)); try done.
        -- intros chat. unfold appended_to at 2. by rewrite Hpc.
        -- intros row [= <-]. by split.
        -- intros row j thj rj [= <-] Hne Hj Hpj Hchat.
           destruct (inv_row w Hinv j thj rj Hj Hpj) as [Hjc Hji].
           refine (key_free_position _ _ rj Hpending _ _ _).
           ++ simpl. by apply (pending_rows_elem _ i j thj).
           ++ simpl. congruence.
           ++ rewrite Hnext, Hji. simpl. by rewrite Hchat.
      * injection Hstep as <-. apply (leave_invariant w i th _ _); try done.
        intros chat. unfold appended_to at 2. by rewrite Hpc.
  - (* Inserted *)
    destruct fault; injection Hstep as <-.
    + apply (leave_invariant w i th _ _); try done.
      intros chat. unfold appended_to at 2. by rewrite Hpc.
    + apply (quiet_invariant w i th (Updated row) (locks w)); try done.
      * intros chat. unfold appended_to at 2. by rewrite Hpc.
      * intros r [= <-]. apply (inv_row w Hinv i th row Hi). by rewrite Hpc.
      * intros r j thj rj [= <-] Hne Hj Hpj Hchat. apply Hne.
        apply (inv_single w Hinv j i thj th rj row); try done. by rewrite Hpc.
  - (* Updated *)
    destruct fault; injection Hstep as <-.
    + apply (leave_invariant w i th _ _); try done.
      intros chat. unfold appended_to at 2. by rewrite Hpc.
    + by apply (commit_invariant w i th row).
  - (* Committed *)
    injection Hstep as <-.
    apply (leave_invariant w i th _ (locks w)); try done.
    intros chat. unfold appended_to. simpl. by rewrite Hpc.
Qed.


Lemma replay_reachable (moves : list Move) (w : System) :
  reachable exclusive w -> reachable exclusive (replay exclusive moves w).
Proof.
  revert w. induction moves as [|m rest IH]; simpl; intros w Hw; [done|].
  apply IH. destruct (advance _ _ _ _ _ w) as [w'|] eqn:E; [|done].
  destruct Hw as (chats & rqs & Hrtc). exists chats, rqs.
  eapply rtc_r; [exact Hrtc|]. by exists (mv_fault m), (mv_id m), (mv_ts m), (mv_thread m).
Qed.

Lemma initial_reachable (chats : list ChatRow) (rqs : list Request) :
  reachable exclusive (initial chats rqs).
Proof. by exists chats, rqs. Qed.
End Steps.

(** ** The exclusive lock *)

Lemma quiet_serialized (w : System) (i : nat) (th : Thread) (p : PC)
      (locks' : gmap jsstring nat) :
  serialized w ->
  threads w !! i = Some th ->
  (forall chat, appended_to chat (moved p th) = appended_to chat th) ->
  (forall j thj, j <> i -> threads w !! j = Some thj -> in_critical (pc thj) = true ->
                 locks' !! req_chat (request thj) = Some j) ->
  (in_critical p = true -> locks' !! req_chat (request th) = Some i) ->
  (forall m, p = MaxRead m ->
             m = (Z.of_nat (successful_appends w (req_chat (request th))) - 1)%Z) ->
  serialized {| store := store w; locks := locks';
                threads := alter (moved p) i (threads w) |}.
Proof.
  intros Hser Hi Hsame Hlocks Hown Hmax.
  assert (forall chat, successful_appends
                         {| store := store w; locks := locks';
                            threads := alter (moved p) i (threads w) |} chat
                       = successful_appends w chat) as Hcount.
  { intros chat. apply (quiet_count _ _ th); done. }
  split; simpl.
  - intros j thj Hj Hcrit.
    apply lookup_moved in Hj as [(-> & th0 & Hi0 & ->) | (Hne & Hj)].
    + rewrite Hi in Hi0. injection Hi0 as <-. by apply Hown.
    + by apply Hlocks.
  - intros j thj m Hj Hpc. rewrite Hcount.
    apply lookup_moved in Hj as [(-> & th0 & Hi0 & ->) | (Hne & Hj)].
    + rewrite Hi in Hi0. injection Hi0 as <-. by apply Hmax.
    + by apply (ser_max w Hser j).
Qed.

Lemma locks_kept (w : System) (i : nat) :
  serialized w ->
  forall j thj, j <> i -> threads w !! j = Some thj -> in_critical (pc thj) = true ->
                locks w !! req_chat (request thj) = Some j.
Proof. intros Hser j thj _ Hj Hc. by apply (ser_lock w Hser). Qed.

Lemma locks_released (w : System) (i : nat) (chat : jsstring) :
  serialized w ->
  forall j thj, j <> i -> threads w !! j = Some thj -> in_critical (pc thj) = true ->
                (if bool_decide (locks w !! chat = Some i) then delete chat (locks w)
                 else locks w) !! req_chat (request thj) = Some j.
Proof.
  intros Hser j thj Hne Hj Hc. pose proof (ser_lock w Hser j thj Hj Hc) as Hl.
  case_bool_decide as Hd; [|done].
  destruct (decide (chat = req_chat (request thj))) as [->|Hch].
  - rewrite Hl in Hd. by injection Hd.
  - by rewrite lookup_delete_ne.
Qed.

Lemma locks_acquired (w : System) (i : nat) (chat : jsstring) :
  serialized w -> locks w !! chat = None ->
  forall j thj, j <> i -> threads w !! j = Some thj -> in_critical (pc thj) = true ->
                <[chat := i]> (locks w) !! req_chat (request thj) = Some j.
Proof.
  intros Hser Hfree j thj Hne Hj Hc. pose proof (ser_lock w Hser j thj Hj Hc) as Hl.
  destruct (decide (chat = req_chat (request thj))) as [->|Hch].
  - by rewrite Hl in Hfree.
  - by rewrite lookup_insert_ne.
Qed.

Lemma leave_serialized (w : System) (i : nat) (th : Thread) (p : PC)
      (locks' : gmap jsstring nat) :
  serialized w ->
  threads w !! i = Some th ->
  (forall chat, appended_to chat (moved p th) = appended_to chat th) ->
  in_critical p = false ->
  (forall j thj, j <> i -> threads w !! j = Some thj -> in_critical (pc thj) = true ->
                 locks' !! req_chat (request thj) = Some j) ->
  serialized {| store := store w; locks := locks';
                threads := alter (moved p) i (threads w) |}.
Proof.
  intros Hser Hi Hsame Hp Hlocks.
  apply (quiet_serialized w i th p locks'); try done.
  - intros Hc. by rewrite Hp in Hc.
  - intros m ->. done.
Qed.

Lemma commit_serialized (w : System) (i : nat) (th : Thread) (row : MessageRow) (db : DB) :
  serialized w ->
  threads w !! i = Some th ->
  pc th = Updated row ->
  serialized
    {| store := db;
       locks := if bool_decide (locks w !! req_chat (request th) = Some i)
                then delete (req_chat (request th)) (locks w) else locks w;
       threads := alter (moved (Committed row)) i (threads w) |}.
Proof.
  intros Hser Hi Hpc.
  set (p := Committed row).
  set (chat := req_chat (request th)).
  set (w' := {| store := _; locks := _; threads := _ |}).
  assert (locks w !! chat = Some i) as Hlock.
  { apply (ser_lock w Hser i th Hi). by rewrite Hpc. }
  assert (forall c, successful_appends w' c
                    = successful_appends w c + one_if (bool_decide (chat = c))) as Hcount.
  { intros c. pose proof (count_alter c (moved p) (threads w) i th Hi) as Hc.
    unfold appended_to in Hc at 1 2. rewrite Hpc in Hc. simpl in Hc.
    fold chat in Hc. unfold successful_appends, w'. cbn [threads].
    unfold count_appended in *.
    destruct (bool_decide (chat = c)); simpl in *; lia. }
  split.
  - intros j thj Hj Hcrit. unfold w' in *. cbn [threads locks] in *.
    apply lookup_moved in Hj as [(-> & th0 & Hi0 & ->) | (Hne & Hj)]; [done|].
    by apply locks_released.
  - intros j thj m Hj Hpcj. rewrite Hcount. unfold w' in Hj. cbn [threads] in Hj.
    apply lookup_moved in Hj as [(-> & th0 & Hi0 & ->) | (Hne & Hj)]; [done|].
    assert (req_chat (request thj) <> chat) as Hc.
    { intros Heq. assert (in_critical (pc thj) = true) as Hcr by (by rewrite Hpcj).
      pose proof (ser_lock w Hser j thj Hj Hcr) as Hl.
      rewrite Heq, Hlock in Hl. by injection Hl. }
    rewrite bool_decide_eq_false_2 by done. simpl. rewrite Nat.add_0_r.
    by apply (ser_max w Hser j).
Qed.

Section Serial.
Context `{JsEngine}.

Lemma advance_serialized (fault : bool) (id ts : jsstring) (i : nat) (w w' : System) :
  advance always_exclusive fault id ts i w = Some w' ->
  invariant w -> serialized w -> serialized w'.
Proof.
  unfold advance. intros Hstep Hinv Hser.
  destruct (threads w !! i) as [th|] eqn:Hi; [|done].
  destruct (pc th) as [| | | |m|row|row|row|r|] eqn:Hpc; try done.
  - (* Arrived *)
    assert (exists p, w' = set_pc i p w /\ in_critical p = false
                      /\ forall chat, appended_to chat (moved p th) = false)
      as (p & -> & Hp & Hnew).
    { destruct (req_role (request th)) as [r|];
        [destruct (req_content (request th)) as [[]|]|];
        try (injection Hstep as <-; eexists; by repeat split).
      destruct (truthy r); injection Hstep as <-; destruct fault;
        eexists; by repeat split. }
    apply (leave_serialized w i th p (locks w)); try done.
    + intros chat. unfold appended_to at 2. by rewrite Hpc.
    + by apply locks_kept.
  - (* Connected *)
    destruct fault; injection Hstep as <-.
    + apply (leave_serialized w i th _ _); try done.
      * intros chat. unfold appended_to at 2. by rewrite Hpc.
      * by apply locks_released.
    + apply (leave_serialized w i th InTransaction (locks w)); try done.
      * intros chat. unfold appended_to at 2. by rewrite Hpc.
      * by apply locks_kept.
  - (* InTransaction *)
    destruct fault.
    + injection Hstep as <-. apply (leave_serialized w i th _ _); try done.
      * intros chat. unfold appended_to at 2. by rewrite Hpc.
      * by apply locks_released.
    + destruct (select_chat _ _ _); injection Hstep as <-.
      * apply (leave_serialized w i th (Replied (Refused 404 (str "not found"))) (locks w));
          try done; [intros chat; unfold appended_to at 2; by rewrite Hpc | by apply locks_kept].
      * apply (leave_serialized w i th ChatFound (locks w));
          try done; [intros chat; unfold appended_to at 2; by rewrite Hpc | by apply locks_kept].
  - (* ChatFound *)
    destruct fault.
    + injection Hstep as <-. apply (leave_serialized w i th _ _); try done.
      * intros chat. unfold appended_to at 2. by rewrite Hpc.
      * by apply locks_released.
    + unfold locking_read, always_exclusive in Hstep.
      destruct (locks w !! req_chat (request th)) eqn:Hfree; [done|].
      injection Hstep as <-.
      apply (quiet_serialized w i th (MaxRead _) (<[req_chat (request th) := i]> (locks w)));
        try done.
      * intros chat. unfold appended_to at 2. by rewrite Hpc.
      * by apply locks_acquired.
      * intros _. apply lookup_insert_eq.
      * intros m [= <-]. unfold select_max_idx.
        apply max_idx_seq, (inv_positions w Hinv).
  - (* MaxRead *)
    destruct fault.
    + injection Hstep as <-. apply (leave_serialized w i th _ _); try done.
      * intros chat. unfold appended_to at 2. by rewrite Hpc.
      * by apply locks_released.
    + destruct (key_free (store w) _).
      * destruct (key_free _ _); [|done]. injection Hstep as <-.
        apply (quiet_serialized w i th (Inserted _) (locks w)); try done.
        -- intros chat. unfold appended_to at 2. by rewrite Hpc.
        -- by apply locks_kept.
        -- intros _. apply (ser_lock w Hser i th Hi). by rewrite Hpc.
      * injection Hstep as <-. apply (leave_serialized w i th _ _); try done.
        -- intros chat. unfold appended_to at 2. by rewrite Hpc.
        -- by apply locks_released.
  - (* Inserted *)
    destruct fault; injection Hstep as <-.
    + apply (leave_serialized w i th _ _); try done.
      * intros chat. unfold appended_to at 2. by rewrite Hpc.
      * by apply locks_released.
    + apply (quiet_serialized w i th (Updated row) (locks w)); try done.
      * intros chat. unfold appended_to at 2. by rewrite Hpc.
      * by apply locks_kept.
      * intros _. apply (ser_lock w Hser i th Hi). by rewrite Hpc.
  - (* Updated *)
    destruct fault; injection Hstep as <-.
    + apply (leave_serialized w i th _ _); try done.
      * intros chat. unfold appended_to at 2. by rewrite Hpc.
      * by apply locks_released.
    + by apply (commit_serialized w i th row).
  - (* Committed *)
    injection Hstep as <-.
    apply (leave_serialized w i th _ (locks w)); try done.
    + intros chat. unfold appended_to. simpl. by rewrite Hpc.
    + by apply locks_kept.
Qed.

Lemma initial_serialized (chats : list ChatRow) (rqs : list Request) :
  serialized (initial chats rqs).
Proof.
  split.
  - intros i th Hi Hc. apply initial_thread in Hi. by rewrite Hi in Hc.
  - intros i th m Hi Hpc. apply initial_thread in Hi. by rewrite Hi in Hpc.
Qed.

Lemma reachable_serialized (w : System) :
  reachable always_exclusive w -> invariant w /\ serialized w.
Proof.
  intros (chats & rqs & Hrtc). revert w Hrtc.
  apply (rtc_ind_r (fun w => invariant w /\ serialized w)).
  - split; [apply initial_invariant | apply initial_serialized].
  - intros w2 w3 _ (fault & id & ts & i & Hstep) [Hinv Hser]. split.
    + by apply (advance_invariant always_exclusive fault id ts i w2).
    + by apply (advance_serialized fault id ts i w2).
Qed.

(** Under an exclusive lock, the maximum a handler has read is still the
    maximum of its chat when it inserts, and the position after it is not
    taken by any committed row. *)
Theorem no_conflict_under_lock (w : System) (i : nat) (th : Thread) (m : Z)
        (x : MessageRow) :
  reachable always_exclusive w ->
  threads w !! i = Some th -> pc th = MaxRead m ->
  m = select_max_idx (store w) (req_chat (request th))
  /\ (x ∈ messages_table (store w) ->
      msg_chat_id x = req_chat (request th) -> msg_idx x <> (m + 1)%Z).
Proof.
  intros Hreach Hi Hpc. apply reachable_serialized in Hreach as [Hinv Hser].
  pose proof (ser_max w Hser i th m Hi Hpc) as Hm.
  pose proof (inv_positions w Hinv (req_chat (request th))) as Hpos.
  split.
  - unfold select_max_idx. by rewrite (max_idx_seq _ _ Hpos).
  - intros Hx Hc Hidx.
    assert (msg_idx x ∈ map msg_idx (messages_of (store w) (req_chat (request th)))) as Hin.
    { apply list_elem_of_fmap. exists x. split; [done|].
      unfold messages_of. by apply list_elem_of_filter. }
    rewrite Hpos in Hin. apply elem_of_seqZ in Hin. lia.
Qed.
End Serial.

Section Alone.
Context `{JsEngine}.
Variable exclusive : DB -> jsstring -> bool.
Local Opaque str.

(** ** One handler on its own *)

Lemma key_free_alone (db : DB) (row : MessageRow) :
  key_free db row = true ->
  key_free {| chats_table := chats_table db; messages_table := [] |} row = true.
Proof. unfold key_free. simpl. intros Hk. by apply andb_true_iff in Hk as [_ ->]. Qed.

Ltac move_on := unfold advance, set_pc, fail, unlock, locking_read, row_of, moved; simpl.

Ltac meet o q := destruct (o q); [by move_on|]; simpl; move_on.

Ltac write_and_commit o db chat ts :=
  unfold query_insert, statement, insert_message; simpl;
  match goal with
  | |- context [InsertMessage ?row] => meet o (InsertMessage row)
  end;
  match goal with
  | |- context [key_free db ?row] =>
      let Hk := fresh "Hk" in
      destruct (key_free db row) eqn:Hk; [|by move_on];
      unfold pending_rows; simpl; rewrite (key_free_alone _ _ Hk); simpl; move_on
  end;
  unfold query_update, statement; simpl;
  meet o (UpdateChatTimestamp chat ts);
  unfold commit, statement; simpl;
  meet o Commit.

(** A handler that runs on its own, and whose [ROLLBACK] goes through
    when it sends one, does what [post_message] says: the same tables are
    committed and the same reply is sent, or none. *)
Lemma alone_agrees (o : Oracle) (id ts : jsstring) (db : DB) (rq : Request) :
  (forall place, o (Rollback place) = false) ->
  let w := run_alone exclusive o id ts 8 (alone db rq) in
  let result := post_message o id ts (req_user rq) (req_chat rq)
                             (req_role rq) (req_content rq) db in
  store w = committed (fst result)
  /\ map pc (threads w)
     = [ match snd result with Some r => Replied r | None => Lost end ].
Proof.
  intros Hback. destruct rq as [user chat role content].
  unfold post_message, alone. simpl. move_on.
  destruct role as [r|]; [|by move_on].
  destruct content as [[| | |text| |]|]; try (by move_on).
  destruct (truthy r) eqn:Hr; [|by move_on].
  destruct (o GetConnection) eqn:E0; [by move_on|]. simpl. move_on.
  unfold append_transaction, mbind, M_bind, beginTransaction, query_chat, rollback,
    statement.
  simpl. rewrite !Hback.
  destruct (o BeginTransaction) eqn:E1; [by move_on|]. simpl. move_on.
  destruct (o (SelectChat chat user)) eqn:E2; [by move_on|]. simpl.
  destruct (select_chat db chat user) as [|c cs] eqn:Ec; [by move_on|]. simpl. move_on.
  unfold query_max_for_update, statement. simpl.
  destruct (o (SelectMaxIdxForUpdate chat)) eqn:E3; [by move_on|]. simpl.
  destruct (exclusive db chat); rewrite ?lookup_empty; simpl; move_on.
  all: write_and_commit o db chat ts.
  all: done.
Qed.
End Alone.

End LedgerFacts.

Module LedgerClaims.
Import LedgerFacts.




End LedgerClaims.

(* ===================================================================== *)
(** * More about the decoder: chunks, noise, and the text it hands over *)
(* ===================================================================== *)

Module FramingFacts.

(** ** Lines *)

Lemma split_nl_nonempty (t : jsstring) : split_nl t <> [].
Proof.
  destruct t as [|c t]; simpl; [done|].
  destruct (c =? NL)%N; [done|]. by destruct (split_nl t).
Qed.

Lemma split_nl_no_nl (t : jsstring) : NL ∉ t -> split_nl t = [t].
Proof.
  induction t as [|c t IH]; [done|]. intros Hn. simpl.
  destruct (c =? NL)%N eqn:E.
  - apply N.eqb_eq in E. subst. destruct Hn. left.
  - rewrite IH; [done|]. intros Hin. apply Hn. by right.
Qed.

(** The lines of two texts put together: the last line of the first goes
    on in the second. *)
Lemma split_nl_app (a b : jsstring) :
  split_nl (a ++ b)
  = removelast (split_nl a) ++ split_nl (List.last (split_nl a) [] ++ b).
Proof.
  induction a as [|c a IH]; [done|]. simpl.
  pose proof (split_nl_nonempty a) as Hne. rewrite IH. revert Hne.
  destruct (c =? NL)%N eqn:Ec; destruct (split_nl a) as [|l ls]; try done; intros _.
  destruct ls as [|l2 ls]; simpl; [|done]. by rewrite Ec.
Qed.

Lemma split_nl_line (a b : jsstring) :
  split_nl (a ++ NL :: b) = split_nl a ++ split_nl b.
Proof.
  induction a as [|c a IH]; [done|]. simpl.
  pose proof (split_nl_nonempty a) as Hne. rewrite IH. revert Hne.
  destruct (c =? NL)%N; [done|]. by destruct (split_nl a).
Qed.

Lemma removelast_app_nonempty {A : Type} (l m : list A) :
  m <> [] -> removelast (l ++ m) = l ++ removelast m.
Proof. intros Hm. by apply removelast_app. Qed.

Lemma last_app_nonempty {A : Type} (l m : list A) (d : A) :
  m <> [] -> List.last (l ++ m) d = List.last m d.
Proof.
  intros Hm. induction l as [|x l IH]; [done|]. simpl.
  destruct (l ++ m) eqn:E; [|done].
  apply app_eq_nil in E as [_ ->]. done.
Qed.

Section Chunks.
Context `{JsEngine} {S E : Type}.
Variable onDelta : option (json -> jsstring -> S -> S).
Variable onDone : option (jsstring -> S -> S).
Variable meanwhile : E -> S -> S.
Variable signal_aborted : S -> bool.

Lemma on_lines_app (l m : list jsstring) (s : S) (acc : jsstring) :
  on_lines onDelta onDone (l ++ m) s acc
  = match on_lines onDelta onDone l s acc with
    | Next s' acc' => on_lines onDelta onDone m s' acc'
    | r => r
    end.
Proof.
  revert s acc. induction l as [|x l IH]; intros s acc; simpl; [done|].
  by destruct (on_line onDelta onDone x s acc).
Qed.

(** Two chunks read one after the other are read as the one chunk they
    make together. *)
Lemma pump_merge (t1 t2 : jsstring) (rest : list (ReadItem E))
      (s : S) (acc buf : jsstring) :
  pump onDelta onDone meanwhile signal_aborted (Chunk t1 :: Chunk t2 :: rest) s acc buf
  = pump onDelta onDone meanwhile signal_aborted (Chunk (t1 ++ t2) :: rest) s acc buf.
Proof.
  cbn [pump]. rewrite (app_assoc buf t1 t2), (split_nl_app (buf ++ t1) t2).
  pose proof (split_nl_nonempty (List.last (split_nl (buf ++ t1)) [] ++ t2)) as Hne.
  rewrite (removelast_app_nonempty _ _ Hne), (last_app_nonempty _ _ _ Hne), on_lines_app.
  by destruct (on_lines onDelta onDone (removelast (split_nl (buf ++ t1))) s acc).
Qed.

Lemma pump_chunks (texts : list jsstring) (s : S) (acc buf : jsstring) :
  NL ∉ buf ->
  pump onDelta onDone meanwhile signal_aborted (map Chunk texts) s acc buf
  = pump onDelta onDone meanwhile signal_aborted [Chunk (concat texts)] s acc buf.
Proof.
  intros Hbuf. remember (length texts) as n eqn:Hn. revert texts Hn.
  induction n as [|n IH]; intros texts Hn.
  - destruct texts; [|done]. simpl. by rewrite app_nil_r, (split_nl_no_nl buf Hbuf).
  - destruct texts as [|t1 [|t2 texts]]; [done| |].
    + simpl. by rewrite app_nil_r.
    + change (map Chunk (t1 :: t2 :: texts))
        with (Chunk (E := E) t1 :: Chunk t2 :: map Chunk texts).
      rewrite pump_merge.
      change (Chunk (t1 ++ t2) :: map Chunk texts)
        with (map (Chunk (E := E)) ((t1 ++ t2) :: texts)).
      rewrite (IH ((t1 ++ t2) :: texts)) by (simpl in *; lia).
      simpl. by rewrite <- app_assoc.
Qed.

(** Chunk boundaries do not matter to [chatWithOllama]. *)
Lemma read_body_chunks (texts : list jsstring) (e : Ending) (s : S) :
  read_body onDelta onDone meanwhile signal_aborted (map Chunk texts) e s
  = read_body onDelta onDone meanwhile signal_aborted [Chunk (concat texts)] e s.
Proof. unfold read_body. rewrite pump_chunks; [done | apply not_elem_of_nil]. Qed.
End Chunks.

(** ** The events as a text *)

Section Text.
Context `{JsEngine}.

Lemma reading_start : reading [] [].
Proof. by repeat split. Qed.

Lemma delta_text_app (l m : list StreamEvent) :
  delta_text (l ++ m) = delta_text l ++ delta_text m.
Proof. unfold delta_text. by rewrite flat_map_app. Qed.

Lemma reading_delta (log : list StreamEvent) (acc : jsstring) (piece : json) :
  reading log acc -> truthy piece = true ->
  reading (log ++ [Delta piece (acc ++ to_string piece)]) (acc ++ to_string piece).
Proof.
  intros (Hq & Ha & Hf) Hp. split; [|split].
  - apply Forall_app. split; [done | by repeat constructor].
  - rewrite delta_text_app, <- Ha. simpl. by rewrite app_nil_r.
  - intros more Hm. rewrite <- app_assoc. apply Hf. simpl. by repeat split.
Qed.

Lemma take_fragment_reading (obj : json) (log : list StreamEvent) (acc : jsstring) :
  reading log acc ->
  reading (take_fragment log_delta obj log acc).1 (take_fragment log_delta obj log acc).2.
Proof.
  intros Hr. unfold take_fragment.
  destruct (truthy (fragment_of obj)) eqn:E; simpl; [|done].
  by apply reading_delta.
Qed.

Lemma reading_done (log : list StreamEvent) (acc : jsstring) :
  reading log acc -> returned (log ++ [Done acc]) acc.
Proof.
  intros (Hq & Ha & Hf). split; [|split].
  - by apply Hf.
  - rewrite delta_text_app. simpl. by rewrite app_nil_r.
  - by exists log.
Qed.

Lemma reading_follows (log : list StreamEvent) (acc : jsstring) :
  reading log acc -> follows [] log.
Proof. intros (_ & _ & Hf). specialize (Hf [] I). by rewrite app_nil_r in Hf. Qed.

Lemma on_line_ok (line : jsstring) (log : list StreamEvent) (acc : jsstring) :
  reading log acc -> step_ok (on_line log_delta log_done line log acc).
Proof.
  intros Hr. unfold on_line.
  destruct (trim line); [done|].
  destruct (JSON_parse _) as [obj|]; [|done].
  unfold on_record.
  pose proof (take_fragment_reading obj log acc Hr) as Ht.
  destruct (take_fragment log_delta obj log acc) as [log1 acc1]. simpl in Ht.
  destruct obj; try (destruct (truthy_opt _); simpl; [by apply reading_done | done]).
  simpl. split; [by apply (reading_follows log acc) | apply Hr].
Qed.

Lemma on_lines_ok (lines : list jsstring) (log : list StreamEvent) (acc : jsstring) :
  reading log acc -> step_ok (on_lines log_delta log_done lines log acc).
Proof.
  revert log acc. induction lines as [|l ls IH]; intros log acc Hr; simpl; [done|].
  pose proof (on_line_ok l log acc Hr) as Hl.
  destruct (on_line log_delta log_done l log acc); try done. by apply IH.
Qed.

Lemma pump_ok (items : list (ReadItem Empty_set)) (log : list StreamEvent)
      (acc buf : jsstring) :
  reading log acc ->
  pumped_ok (pump log_delta log_done no_event never_aborted items log acc buf).
Proof.
  revert log acc buf. induction items as [|[text|[]] rest IH]; intros log acc buf Hr; [done|].
  simpl.
  pose proof (on_lines_ok (removelast (split_nl (buf ++ text))) log acc Hr) as Hl.
  destruct (on_lines _ _ _ log acc); try done. by apply IH.
Qed.

Lemma flush_tail_reading (buf : jsstring) (log : list StreamEvent) (acc : jsstring) :
  reading log acc ->
  reading (flush_tail log_delta buf log acc).1 (flush_tail log_delta buf log acc).2.
Proof.
  intros Hr. unfold flush_tail.
  destruct (trim buf); [done|].
  destruct (JSON_parse _) as [obj|]; [|done].
  destruct obj; try done; by apply take_fragment_reading.
Qed.

Lemma decode_ok (texts : list jsstring) :
  match decode texts with
  | (log, inr acc) => returned log acc
  | (log, inl _) => follows [] log /\ Forall (fun e => is_done e = false) log
  end.
Proof.
  unfold decode, read_body.
  pose proof (pump_ok (chunks_of texts) [] [] [] reading_start) as Hp.
  destruct (pump _ _ _ _ _ [] [] []) as [log acc buf|log [e|acc]]; try done.
  pose proof (flush_tail_reading buf log acc Hp) as Hf.
  destruct (flush_tail log_delta buf log acc) as [log1 acc1]. simpl in *.
  by apply reading_done.
Qed.

(** ** Noise *)

Lemma on_line_noise (junk : jsstring) (log : list StreamEvent) (acc : jsstring) :
  noise junk -> on_line log_delta log_done junk log acc = Next log acc.
Proof.
  intros [_ [Hb | Hp]]; unfold on_line.
  - by rewrite Hb.
  - destruct (trim junk); [done|]. by rewrite Hp.
Qed.

Lemma lines_with_noise (a junk b : jsstring) :
  noise junk -> a = [] \/ (exists a', a = a' ++ [NL]) ->
  exists before,
    split_nl (a ++ junk ++ [NL] ++ b) = before ++ [junk] ++ split_nl b
    /\ split_nl (a ++ b) = before ++ split_nl b.
Proof.
  intros [Hn _] [-> | [a' ->]].
  - exists []. simpl. split; [|done].
    by rewrite split_nl_line, (split_nl_no_nl junk Hn).
  - exists (split_nl a'). rewrite <- !app_assoc. simpl.
    by rewrite !split_nl_line, (split_nl_no_nl junk Hn).
Qed.
End Text.

End FramingFacts.

Module FramingClaims.
Import FramingFacts.

(** X1. Where the body is cut into chunks does not matter: the calls that
    [chatWithOllama] makes and what it returns are those for the whole body
    read as one chunk. *)
Theorem chunk_boundaries_do_not_matter `{JsEngine} (texts : list jsstring) :
  decode texts = decode [concat texts].
Proof. unfold decode, chunks_of. apply read_body_chunks. Qed.

(** X2. The calls that [chatWithOllama] makes spell out the text: every
    [onDelta] comes with a fragment that is not falsy and with all
    the fragments so far, one after the other. When the function returns,
    [onDone] was its one last call and came, as the returned value does,
    with all the fragments; when it throws, [onDone] was not called. *)
Theorem calls_spell_out_the_text `{JsEngine} (texts : list jsstring) :
  follows [] (decode texts).1
  /\ match (decode texts).2 with
     | inr acc =>
         acc = delta_text (decode texts).1
         /\ exists before, (decode texts).1 = before ++ [Done acc]
                           /\ Forall (fun e => is_done e = false) before
     | inl _ => Forall (fun e => is_done e = false) (decode texts).1
     end.
Proof.
  pose proof (decode_ok texts) as Hd.
  destruct (decode texts) as [log [e|acc]]; simpl.
  - done.
  - destruct Hd as (Hf & Ha & Hb). done.
Qed.

(** X3. A line that is blank or is not JSON is passed over: the calls and
    the result are those for the body without that line. *)
Theorem noise_is_skipped `{JsEngine} (a junk b : jsstring) :
  noise junk ->
  a = [] \/ (exists a', a = a' ++ [NL]) ->
  decode [a ++ junk ++ [NL] ++ b] = decode [a ++ b].
Proof.
  intros Hn Ha.
  destruct (lines_with_noise a junk b Hn Ha) as (before & H1 & H2).
  unfold decode, read_body, chunks_of. cbn [map pump].
  change ([] ++ (a ++ junk ++ [NL] ++ b)) with (a ++ junk ++ [NL] ++ b).
  change ([] ++ (a ++ b)) with (a ++ b). rewrite H1, H2.
  pose proof (split_nl_nonempty b) as Hb.
  rewrite (removelast_app_nonempty before ([junk] ++ split_nl b)) by done.
  rewrite (removelast_app_nonempty [junk] (split_nl b) Hb).
  rewrite (removelast_app_nonempty before (split_nl b) Hb).
  rewrite (last_app_nonempty before ([junk] ++ split_nl b)) by done.
  rewrite (last_app_nonempty [junk] (split_nl b) _ Hb).
  rewrite (last_app_nonempty before (split_nl b) _ Hb).
  rewrite !on_lines_app.
  destruct (on_lines log_delta log_done before [] []) as [log acc| |]; try done.
  cbn [app on_lines]. by rewrite (on_line_noise junk log acc Hn).
Qed.

Lemma noise_is_skipped_witness :
  noise (str "ping")
  /\ decode (H := reference_engine)
       [ line "{'message':{'content':'ab'}}" ++ str "ping" ++ [NL] ++ line "{'done':true}" ]
     = ( [ Delta (JStr (str "ab")) (str "ab"); Done (str "ab") ], inr (str "ab") ).
Proof.
  assert (noise (str "ping")) as Hn.
  { split; [|right; vm_compute; reflexivity].
    apply (bool_decide_unpack (NL ∉ str "ping")). vm_compute. exact I. }
  split; [exact Hn|].
  rewrite (noise_is_skipped (H := reference_engine)
             (line "{'message':{'content':'ab'}}") (str "ping") (line "{'done':true}") Hn).
  - vm_compute. reflexivity.
  - right. by eexists.
Defined.

End FramingClaims.

(* ===================================================================== *)
(** * Facts about the message view *)
(* ===================================================================== *)

Module MarkdownFacts.

(** ** Counting across a character that is no part of a marker *)

Lemma count_fences_short (t : jsstring) : length t < 3 -> count_fences t = 0.
Proof. destruct t as [|a [|b [|c t]]]; simpl; try done. lia. Qed.

Lemma count_fences_skip (c : N) (b : jsstring) :
  c <> BACKTICK -> count_fences (c :: b) = count_fences b.
Proof.
  intros Hc. destruct b as [|c2 [|c3 rest]]; try done.
  cbn [count_fences]. apply N.eqb_neq in Hc. by rewrite Hc.
Qed.

Lemma count_fences_step (x y z : N) (t : jsstring) :
  count_fences (x :: y :: z :: t)
  = if ((x =? BACKTICK) && (y =? BACKTICK) && (z =? BACKTICK))%N
    then S (count_fences t) else count_fences (y :: z :: t).
Proof. reflexivity. Qed.

Lemma count_fences_across (a : jsstring) (c : N) (b : jsstring) :
  c <> BACKTICK ->
  count_fences (a ++ c :: b) = count_fences a + count_fences b.
Proof.
  intros Hc. apply N.eqb_neq in Hc as Hc'.
  remember (length a) as n eqn:Hn. revert a Hn.
  induction n as [n IH] using lt_wf_ind. intros a ->.
  destruct a as [|x [|y [|z a']]].
  - by apply count_fences_skip.
  - change ([x] ++ c :: b) with (x :: c :: b).
    destruct b as [|c3 rest]; [done|].
    rewrite count_fences_step, Hc', andb_false_r.
    by rewrite (count_fences_skip c (c3 :: rest) Hc).
  - change ([x; y] ++ c :: b) with (x :: y :: c :: b).
    rewrite count_fences_step, Hc', andb_false_r.
    apply (IH 1 ltac:(simpl; lia) [y] eq_refl).
  - change ((x :: y :: z :: a') ++ c :: b) with (x :: y :: z :: (a' ++ c :: b)).
    rewrite !count_fences_step.
    destruct ((x =? BACKTICK) && (y =? BACKTICK) && (z =? BACKTICK))%N.
    + by rewrite (IH (length a') ltac:(simpl; lia) a' eq_refl).
    + apply (IH (length (y :: z :: a')) ltac:(simpl; lia) (y :: z :: a') eq_refl).
Qed.

Lemma count_dollars_skip (c : N) (b : jsstring) :
  c <> DOLLAR -> count_dollars (c :: b) = count_dollars b.
Proof.
  intros Hc. destruct b as [|c2 rest]; [done|].
  cbn [count_dollars]. apply N.eqb_neq in Hc. by rewrite Hc.
Qed.

Lemma count_dollars_step (x y : N) (t : jsstring) :
  count_dollars (x :: y :: t)
  = if ((x =? DOLLAR) && (y =? DOLLAR))%N
    then S (count_dollars t) else count_dollars (y :: t).
Proof. reflexivity. Qed.

Lemma count_dollars_across (a : jsstring) (c : N) (b : jsstring) :
  c <> DOLLAR ->
  count_dollars (a ++ c :: b) = count_dollars a + count_dollars b.
Proof.
  intros Hc. apply N.eqb_neq in Hc as Hc'.
  remember (length a) as n eqn:Hn. revert a Hn.
  induction n as [n IH] using lt_wf_ind. intros a ->.
  destruct a as [|x [|y a']].
  - by apply count_dollars_skip.
  - change ([x] ++ c :: b) with (x :: c :: b).
    rewrite count_dollars_step, Hc', andb_false_r.
    by rewrite (count_dollars_skip c b Hc).
  - change ((x :: y :: a') ++ c :: b) with (x :: y :: (a' ++ c :: b)).
    rewrite !count_dollars_step.
    destruct ((x =? DOLLAR) && (y =? DOLLAR))%N.
    + by rewrite (IH (length a') ltac:(simpl; lia) a' eq_refl).
    + apply (IH (length (y :: a')) ltac:(simpl; lia) (y :: a') eq_refl).
Qed.

Lemma remove_cr_idem (t : jsstring) : remove_cr (remove_cr t) = remove_cr t.
Proof.
  unfold remove_cr. induction t as [|c t IH]; [done|].
  rewrite filter_cons. case_decide; [|done].
  rewrite filter_cons. case_decide; [|done]. by rewrite IH.
Qed.

Lemma remove_cr_app (a b : jsstring) : remove_cr (a ++ b) = remove_cr a ++ remove_cr b.
Proof. unfold remove_cr. apply filter_app. Qed.

Lemma odd_succ_even (n : nat) : Nat.odd n = true -> Nat.odd (n + 1) = false.
Proof.
  intros Ho. rewrite Nat.add_1_r, Nat.odd_succ. unfold Nat.odd in Ho.
  by destruct (Nat.even n).
Qed.

(** What the two steps of [repairMarkdown] come to. *)
Lemma repaired_counts (src : jsstring) :
  Nat.odd (count_fences (repairMarkdown src)) = false
  /\ Nat.odd (count_dollars (repairMarkdown src)) = false.
Proof.
  unfold repairMarkdown. set (s := remove_cr src).
  assert (Nat.odd (count_fences
                     (if Nat.odd (count_fences s) then s ++ NL :: str "```" else s)) = false
          /\ count_dollars (if Nat.odd (count_fences s) then s ++ NL :: str "```" else s)
             = count_dollars s) as [Hf Hd].
  { destruct (Nat.odd (count_fences s)) eqn:E; [|done]. split.
    - rewrite count_fences_across by done. by apply odd_succ_even.
    - rewrite count_dollars_across by done. simpl. lia. }
  set (s1 := if Nat.odd (count_fences s) then _ else _) in *.
  destruct (Nat.odd (count_dollars s1)) eqn:E; [|done]. split.
  - rewrite count_fences_across by done. simpl. by rewrite Nat.add_0_r.
  - rewrite count_dollars_across by done. by apply odd_succ_even.
Qed.

Lemma repaired_no_cr (src : jsstring) :
  remove_cr (repairMarkdown src) = repairMarkdown src.
Proof.
  unfold repairMarkdown. set (s := remove_cr src).
  assert (remove_cr s = s) as Hs by apply remove_cr_idem.
  destruct (Nat.odd (count_fences s)), (Nat.odd (count_dollars _));
    rewrite ?remove_cr_app, ?Hs; done.
Qed.

(** The closing fence has no [$$] in it: whether a closing [$$] is added
    can be told from the text alone. *)
Lemma repaired_extends (src : jsstring) :
  repairMarkdown src
  = remove_cr src
      ++ (if Nat.odd (count_fences (remove_cr src)) then NL :: str "```" else [])
      ++ (if Nat.odd (count_dollars (remove_cr src)) then NL :: str "$$" else []).
Proof.
  unfold repairMarkdown. set (s := remove_cr src).
  assert (count_dollars (s ++ NL :: str "```") = count_dollars s) as Hd.
  { rewrite count_dollars_across by done. simpl. lia. }
  destruct (Nat.odd (count_fences s)); rewrite ?Hd;
    destruct (Nat.odd (count_dollars s)); by rewrite <- ?app_assoc, ?app_nil_r.
Qed.

End MarkdownFacts.

Module MarkdownClaims.
Import MarkdownFacts.

(** X4. What [repairMarkdown] hands to the renderer is balanced, whatever
    the text: the number of fence markers is even, so that
    [hasOpenCodeFence] is false of it, and so is the number of [$$]
    markers. The result is the text without its carriage returns,
    followed by a line feed and a closing fence exactly when that text has
    an odd number of fence markers, and then by a line feed and [$$]
    exactly when it has an odd number of [$$] markers, and by nothing else.
    What is balanced is handed on as it is: repairing twice is repairing
    once. *)
Theorem repaired_text_is_balanced (src : jsstring) :
  hasOpenCodeFence (repairMarkdown src) = false
  /\ Nat.even (count_fences (repairMarkdown src)) = true
  /\ Nat.even (count_dollars (repairMarkdown src)) = true
  /\ repairMarkdown src
     = remove_cr src
         ++ (if Nat.odd (count_fences (remove_cr src)) then NL :: str "```" else [])
         ++ (if Nat.odd (count_dollars (remove_cr src)) then NL :: str "$$" else [])
  /\ repairMarkdown (repairMarkdown src) = repairMarkdown src.
Proof.
  destruct (repaired_counts src) as [Hf Hd].
  split; [exact Hf|].
  split; [unfold Nat.odd in Hf; by destruct (Nat.even (count_fences _))|].
  split; [unfold Nat.odd in Hd; by destruct (Nat.even (count_dollars _))|].
  split; [apply repaired_extends|].
  unfold repairMarkdown at 1. rewrite repaired_no_cr. by rewrite Hf, Hd.
Qed.

End MarkdownClaims.

(* ===================================================================== *)
(** * Facts about the chat storage API *)
(* ===================================================================== *)

Module ServerFacts.
Import BackendFacts LedgerFacts.

(** ** The append, as the other handlers see it *)

Section Append.
Context `{JsEngine}.

Lemma slice_take (t : jsstring) (n : Z) :
  (0 <= n)%Z -> slice t 0 (Some n) = take (Z.to_nat n) t.
Proof.
  intros Hn. unfold slice, clamp_index.
  replace (0 <? 0)%Z with false by done.
  replace (n <? 0)%Z with false by (symmetry; apply Z.ltb_ge; lia).
  rewrite (Z.min_l 0) by lia. change (Z.to_nat 0) with 0%nat.
  rewrite drop_0, Z.sub_0_r.
  destruct (Z.min_spec n (Z.of_nat (length t))) as [[Hlt ->] | [Hge ->]]; [done|].
  rewrite Nat2Z.id, firstn_all. symmetry. apply take_ge. lia.
Qed.

Lemma post_message_committed (o : Oracle) (id ts user chat : jsstring)
      (role content : option json) (db : DB) :
  committed (post_message o id ts user chat role content db).1 = db
  \/ exists row,
       msg_id row = id /\ msg_chat_id row = chat
       /\ msg_idx row = (select_max_idx db chat + 1)%Z
       /\ key_free db row = true
       /\ select_chat db chat user <> []
       /\ committed (post_message o id ts user chat role content db).1
          = update_chat_timestamp
              {| chats_table := chats_table db;
                 messages_table := messages_table db ++ [row] |} chat ts.
Proof.
  unfold post_message.
  destruct role as [r|]; [|by left].
  destruct content as [[| | |text| |]|]; try (by left).
  destruct (truthy r); [|by left].
  destruct (o GetConnection); [by left|].
  unfold append_transaction, mbind, M_bind, beginTransaction, query_chat, rollback,
    statement.
  simpl.
  destruct (o BeginTransaction); [by destruct (o (Rollback InCatch)); left|]. simpl.
  destruct (o (SelectChat chat user)); [by destruct (o (Rollback InCatch)); left|]. simpl.
  destruct (select_chat db chat user) as [|c cs] eqn:Ec;
    [by destruct (o (Rollback InTry)), (o (Rollback InCatch)); left|].
  simpl.
  unfold mbind, M_bind, query_max_for_update, query_insert, query_update, commit,
    statement. simpl.
  destruct (o (SelectMaxIdxForUpdate chat)); [by destruct (o (Rollback InCatch)); left|].
  simpl.
  destruct (o (InsertMessage _)); [by destruct (o (Rollback InCatch)); left|]. simpl.
  unfold insert_message.
  destruct (key_free db _) eqn:Hk; [|by destruct (o (Rollback InCatch)); left]. simpl.
  destruct (o (UpdateChatTimestamp chat ts)); [by destruct (o (Rollback InCatch)); left|].
  simpl.
  destruct (o Commit); [by destruct (o (Rollback InCatch)); left|]. simpl.
  right. eexists. by repeat split.
Qed.
End Append.

(** ** Lists of rows *)

Lemma map_filter_NoDup {A B : Type} (g : A -> B) (P : A -> Prop)
      `{!forall x, Decision (P x)} (l : list A) :
  NoDup (map g l) -> NoDup (map g (filter P l)).
Proof.
  intros Hn. eapply sublist_NoDup; [exact Hn|].
  apply fmap_sublist, sublist_filter.
Qed.

Lemma map_update_same {A B : Type} (g : A -> B) (P : A -> Prop)
      `{!forall x, Decision (P x)} (h : A -> A) (l : list A) :
  (forall x, g (h x) = g x) ->
  map g (map (fun x => if decide (P x) then h x else x) l) = map g l.
Proof.
  intros Hg. induction l as [|x l IH]; [done|]. simpl. rewrite IH.
  by destruct (decide (P x)); rewrite ?Hg.
Qed.

Lemma forallb_fresh {A : Type} `{EqDecision B} (g : A -> B) (b : B) (l : list A) :
  forallb (fun x => negb (bool_decide (g x = b))) l = true -> b ∉ map g l.
Proof.
  intros Hf Hin. apply list_elem_of_fmap in Hin as (x & -> & Hx).
  rewrite forallb_forall in Hf. specialize (Hf x (proj1 (list_elem_of_In _ _) Hx)).
  by rewrite bool_decide_eq_true_2 in Hf.
Qed.

Lemma forallb_stale {A : Type} `{EqDecision B} (g : A -> B) (b : B) (l : list A) :
  forallb (fun x => negb (bool_decide (g x = b))) l = false -> b ∈ map g l.
Proof.
  induction l as [|x l IH]; [done|]. simpl.
  case_bool_decide as E; simpl; [intros _; rewrite <- E; left | intros Hf; right; by apply IH].
Qed.

Lemma NoDup_map_inj {A B : Type} (g : A -> B) (l : list A) (x y : A) :
  NoDup (map g l) -> x ∈ l -> y ∈ l -> g x = g y -> x = y.
Proof.
  induction l as [|z l IH]; intros Hn Hx Hy Hg; [by apply elem_of_nil in Hx|].
  simpl in Hn. apply NoDup_cons in Hn as [Hz Hn].
  apply elem_of_cons in Hx as [-> | Hx], Hy as [-> | Hy]; try done.
  - destruct Hz. rewrite Hg. apply list_elem_of_fmap. by exists y.
  - destruct Hz. rewrite <- Hg. apply list_elem_of_fmap. by exists x.
  - by apply IH.
Qed.

Lemma NoDup_snoc {A : Type} (l : list A) (x : A) :
  NoDup l -> x ∉ l -> NoDup (l ++ [x]).
Proof.
  intros Hn Hx. apply NoDup_app. split; [done|]. split; [|apply NoDup_singleton].
  intros y Hy Hin. apply list_elem_of_singleton in Hin. by subst.
Qed.

(** ** The tables of the chats *)

Lemma messages_of_filter_out (db : DB) (id chat : jsstring) :
  filter (fun m => msg_chat_id m = chat)
         (filter (fun m => msg_chat_id m <> id) (messages_table db))
  = if bool_decide (chat = id) then [] else messages_of db chat.
Proof.
  unfold messages_of. induction (messages_table db) as [|m l IH].
  - by case_bool_decide.
  - rewrite !filter_cons. case_bool_decide as E.
    + subst. repeat case_decide; rewrite ?filter_cons; repeat case_decide; try done.
    + repeat case_decide; rewrite ?filter_cons; repeat case_decide; try done;
        congruence.
Qed.

Lemma touched_ids (db : DB) (chat ts : jsstring) :
  map chat_id (chats_table (update_chat_timestamp db chat ts)) = map chat_id (chats_table db)
  /\ map chat_user_id (chats_table (update_chat_timestamp db chat ts))
     = map chat_user_id (chats_table db).
Proof.
  unfold update_chat_timestamp. simpl.
  induction (chats_table db) as [|c l [IH1 IH2]]; [done|]. simpl.
  rewrite IH1, IH2. by case_bool_decide.
Qed.

(** ** Each handler keeps the tables consistent *)

Section Kept.
Context `{JsEngine}.
Variable f : Faults.

Lemma with_db_same (st : Store) : with_db (chat_db st) st = st.
Proof. by destruct st. Qed.

Lemma auth_granted (key : option jsstring) (st : Store) (user name : jsstring) :
  auth f key st = Granted user name -> user ∈ user_ids st.
Proof.
  unfold auth. destruct key as [[|c k]|]; try done.
  destruct (f _); [done|].
  destruct (select_user_by_key st (c :: k)) as [|u us] eqn:E; [done|].
  intros [= <- <-].
  assert (u ∈ select_user_by_key st (c :: k)) as Hin by (rewrite E; left).
  unfold select_user_by_key in Hin. apply elem_of_take in Hin as (i & Hi & _).
  apply list_elem_of_lookup_2, list_elem_of_filter in Hi as [_ Hu].
  apply list_elem_of_fmap. by exists u.
Qed.

Lemma register_consistent (id apiKey ts : jsstring) (name : option json) (st : Store) :
  consistent st -> consistent (register f id apiKey ts name st).1.
Proof.
  intros Hc. unfold register.
  destruct (slice _ 0 _) as [|c n]; [done|].
  destruct (f _); [done|].
  destruct (user_keys_free st _) eqn:Hk; [|done]. simpl.
  unfold user_keys_free in Hk. simpl in Hk.
  assert ((id ∉ user_ids st) /\ (apiKey ∉ map usr_api_key (users_table st))) as [Hid Hkey].
  { split; apply forallb_fresh; rewrite forallb_forall in Hk |- *; intros u Hu;
      specialize (Hk u Hu); apply andb_true_iff in Hk as [? ?]; done. }
  destruct Hc. split; unfold user_ids, chat_ids in *; simpl; try done.
  - rewrite map_app. by apply NoDup_snoc.
  - rewrite map_app. by apply NoDup_snoc.
  - intros ch Hch. rewrite map_app. apply elem_of_app. left. by apply chats_owned0.
  - intros d Hd. rewrite map_app. apply elem_of_app. left. by apply drafts_owned0.
Qed.

Lemma rekey_ids (apiKey user : jsstring) (us : list UserRow) :
  map usr_id (map (rekey apiKey user) us) = map usr_id us.
Proof.
  induction us as [|u us IH]; [done|]. simpl. rewrite IH.
  unfold rekey. by case_bool_decide.
Qed.

Lemma rekey_keys (apiKey user : jsstring) (us : list UserRow) :
  NoDup (map usr_id us) -> NoDup (map usr_api_key us) ->
  existsb (fun u => bool_decide (usr_api_key u = apiKey)
                    && negb (bool_decide (usr_id u = user))) us = false ->
  NoDup (map usr_api_key (map (rekey apiKey user) us)).
Proof.
  intros Hid Hkey Hex.
  assert (forall u, u ∈ us -> usr_api_key u = apiKey -> usr_id u = user) as Hother.
  { intros u Hu Hk. destruct (decide (usr_id u = user)) as [|Hne]; [done|].
    assert (existsb (fun u => bool_decide (usr_api_key u = apiKey)
                              && negb (bool_decide (usr_id u = user))) us = true) as Ht.
    { apply existsb_exists. exists u. split; [by apply list_elem_of_In|].
      by rewrite bool_decide_eq_true_2, bool_decide_eq_false_2. }
    congruence. }
  rewrite map_map. apply NoDup_fmap_2_strong; [|by apply NoDup_fmap_1 in Hid].
  intros x y Hx Hy. unfold rekey.
  case_bool_decide as Ex; case_bool_decide as Ey; simpl; intros Heq.
  - apply (NoDup_map_inj usr_id us); [done..|congruence].
  - destruct Ey. by apply Hother.
  - destruct Ex. by apply Hother.
  - by apply (NoDup_map_inj usr_api_key us).
Qed.

Lemma rotate_consistent (apiKey user : jsstring) (st : Store) :
  consistent st -> consistent (rotate f apiKey user st).1.
Proof.
  intros Hc. unfold rotate. destruct (f _); [done|].
  destruct (existsb _ _) eqn:Hex; [done|]. simpl.
  destruct Hc. split; unfold user_ids, chat_ids in *; simpl; rewrite ?rekey_ids; try done.
  by apply rekey_keys.
Qed.

Lemma create_chat_consistent (id ts user : jsstring) (title model incognito : option json)
      (st : Store) :
  user ∈ user_ids st ->
  consistent st -> consistent (create_chat f id ts user title model incognito st).1.
Proof.
  intros Hu Hc. unfold create_chat. destruct (f _); [done|].
  destruct (chat_id_free _ _) eqn:Hfree; [|done]. simpl.
  apply forallb_fresh in Hfree.
  destruct Hc. split; unfold user_ids, chat_ids, messages_of in *; simpl; try done.
  - rewrite map_app. by apply NoDup_snoc.
  - intros c Hin. apply elem_of_app in Hin as [Hin | Hin]; [by apply chats_owned0|].
    apply list_elem_of_singleton in Hin. by subst.
  - intros m Hm. rewrite map_app. apply elem_of_app. left. by apply messages_housed0.
  - intros d c Hd Hp. rewrite map_app. apply elem_of_app. left.
    by apply (drafts_point0 d).
Qed.

Lemma update_rows_consistent (g : ChatRow -> ChatRow) (id : jsstring) (st : Store) :
  (forall c, chat_id (g c) = chat_id c) ->
  (forall c, chat_user_id (g c) = chat_user_id c) ->
  consistent st -> consistent (update_rows g id st).
Proof.
  intros Hg1 Hg2 Hc.
  assert (map chat_id (chats_table (chat_db (update_rows g id st)))
          = map chat_id (chats_table (chat_db st))) as Hids.
  { simpl. induction (chats_table (chat_db st)) as [|c l IH]; [done|]. simpl.
    rewrite IH. by case_bool_decide; rewrite ?Hg1. }
  destruct Hc. split; unfold user_ids, chat_ids, messages_of in *;
    rewrite ?Hids; try done.
  intros c Hin. simpl in Hin. apply list_elem_of_fmap in Hin as (c0 & -> & Hin0).
  case_bool_decide; rewrite ?Hg2; by apply chats_owned0.
Qed.

Lemma put_chat_consistent (ts user id : jsstring) (title model : option json)
      (st : Store) :
  consistent st -> consistent (put_chat f ts user id title model st).1.
Proof.
  intros Hc. unfold put_chat. destruct (f _); [done|].
  destruct (select_chat _ _ _); [done|].
  assert (forall st1 : Store, consistent st1 ->
            consistent (match model with
                        | None => (st1, Done200)
                        | Some v =>
                            if f (UpdateModel (slice (to_string v) 0 (Some 120%Z)) ts id)
                            then (st1, Failed 500 (str "update failed"))
                            else (update_rows
                                    (remodelled (slice (to_string v) 0 (Some 120%Z)) ts)
                                    id st1, Done200)
                        end).1) as Hmodel.
  { intros st1 H1. destruct model as [v|]; [|done]. destruct (f _); [done|].
    by apply update_rows_consistent. }
  destruct title as [v|]; [|by apply Hmodel].
  destruct (f _); [done|]. apply Hmodel. by apply update_rows_consistent.
Qed.

Lemma delete_rows_consistent (id : jsstring) (st : Store) :
  consistent st -> consistent (delete_rows id st).
Proof.
  intros Hc. destruct Hc.
  split; unfold user_ids, chat_ids in *; simpl; try done.
  - by apply map_filter_NoDup.
  - intros c Hin. apply list_elem_of_filter in Hin as [_ Hin]. by apply chats_owned0.
  - by apply map_filter_NoDup.
  - intros m Hin. apply list_elem_of_filter in Hin as [Hne Hin].
    specialize (messages_housed0 m Hin).
    apply list_elem_of_fmap in messages_housed0 as (c & Hc & Hcin).
    apply list_elem_of_fmap. exists c. split; [done|].
    apply list_elem_of_filter. split; [congruence | done].
  - intros chat. unfold messages_of. simpl. rewrite messages_of_filter_out.
    case_bool_decide; [done | apply messages_placed0].
  - rewrite map_map.
    replace (map (fun d => dr_user_id (forget_chat id d)) (drafts_table st))
      with (map dr_user_id (drafts_table st)); [done|].
    apply map_ext. intros d. unfold forget_chat. by case_bool_decide.
  - intros d Hin. apply list_elem_of_fmap in Hin as (d0 & -> & Hin0).
    unfold forget_chat. case_bool_decide; simpl; by apply drafts_owned0.
  - intros d c Hin Hp. apply list_elem_of_fmap in Hin as (d0 & -> & Hin0).
    unfold forget_chat in Hp. case_bool_decide as E; simpl in Hp; [done|].
    specialize (drafts_point0 d0 c Hin0 Hp).
    apply list_elem_of_fmap in drafts_point0 as (ch & Hch & Hchin).
    apply list_elem_of_fmap. exists ch. split; [done|].
    apply list_elem_of_filter. split; [|done]. intros Heq. apply E. congruence.
Qed.

Lemma delete_chat_consistent (user id : jsstring) (st : Store) :
  consistent st -> consistent (delete_chat f user id st).1.
Proof.
  intros Hc. unfold delete_chat. destruct (f _); [done|].
  destruct (select_chat _ _ _); [done|]. destruct (f _); [done|].
  by apply delete_rows_consistent.
Qed.

Lemma upsert_users (row : DraftRow) (drafts : list DraftRow) :
  NoDup (map dr_user_id drafts) ->
  NoDup (map dr_user_id (upsert row drafts))
  /\ forall d, d ∈ upsert row drafts -> d = row \/ d ∈ drafts.
Proof.
  intros Hn. unfold upsert. destruct (existsb _ _) eqn:Hex.
  - split.
    + rewrite map_map.
      replace (map (fun d => dr_user_id (if bool_decide (dr_user_id d = dr_user_id row)
                                         then row else d)) drafts)
        with (map dr_user_id drafts); [done|].
      apply map_ext. intros d. by case_bool_decide.
    + intros d Hin. apply list_elem_of_fmap in Hin as (d0 & -> & Hin0).
      case_bool_decide; [by left | by right].
  - split.
    + rewrite map_app. apply NoDup_snoc; [done|].
      intros Hin. apply list_elem_of_fmap in Hin as (d & Hd & Hdin).
      assert (existsb (fun d => bool_decide (dr_user_id d = dr_user_id row)) drafts = true)
        as Ht; [|congruence].
      apply existsb_exists. exists d. split; [by apply list_elem_of_In|].
      by rewrite bool_decide_eq_true_2.
    + intros d Hin. apply elem_of_app in Hin as [Hin | Hin]; [by right|].
      apply list_elem_of_singleton in Hin. by left.
Qed.

Lemma put_draft_consistent (ts user : jsstring) (chatId : option jsstring)
      (text : option json) (st : Store) :
  user ∈ user_ids st ->
  consistent st -> consistent (put_draft f ts user chatId text st).1.
Proof.
  intros Hu Hc. unfold put_draft. destruct (f _); [done|].
  set (row := {| dr_user_id := user; dr_chat_id := _; dr_text := _; dr_updated_at := ts |}).
  assert ((forall c, dr_chat_id row = Some c -> c ∈ chat_ids st) ->
          consistent {| users_table := users_table st; chat_db := chat_db st;
                        drafts_table := upsert row (drafts_table st) |}) as Hput.
  { intros Hrow. destruct Hc.
    destruct (upsert_users row (drafts_table st) drafts_unique0) as [Hn Hin].
    split; unfold user_ids, chat_ids in *; simpl; try done.
    - intros d Hd. destruct (Hin d Hd) as [-> | Hold]; [done | by apply drafts_owned0].
    - intros d c Hd Hp. destruct (Hin d Hd) as [-> | Hold];
        [by apply Hrow | by apply (drafts_point0 d)]. }
  destruct (dr_chat_id row) as [c|] eqn:Ec.
  - destruct (chat_id_free (chat_db st) c) eqn:Hfree; [done|]. simpl.
    apply Hput. intros c' [= <-]. by apply forallb_stale in Hfree.
  - simpl. apply Hput. done.
Qed.

Lemma delete_draft_consistent (user : jsstring) (st : Store) :
  consistent st -> consistent (delete_draft f user st).1.
Proof.
  intros Hc. unfold delete_draft. destruct (f _); [done|]. simpl.
  destruct Hc. split; unfold user_ids, chat_ids in *; simpl; try done.
  - by apply map_filter_NoDup.
  - intros d Hin. apply list_elem_of_filter in Hin as [_ Hin]. by apply drafts_owned0.
  - intros d c Hin Hp. apply list_elem_of_filter in Hin as [_ Hin].
    by apply (drafts_point0 d).
Qed.
Lemma append_consistent (o : Oracle) (id ts user chat : jsstring)
      (role content : option json) (st : Store) :
  consistent st ->
  consistent (with_db (committed (post_message o id ts user chat role content
                                    (chat_db st)).1) st).
Proof.
  intros Hc.
  destruct (post_message_committed o id ts user chat role content (chat_db st))
    as [-> | (row & Hid & Hchat & Hidx & Hfree & _ & ->)]; [by rewrite with_db_same|].
  destruct (touched_ids {| chats_table := chats_table (chat_db st);
                           messages_table := messages_table (chat_db st) ++ [row] |}
              chat ts) as [Hids Howners].
  unfold key_free in Hfree. apply andb_true_iff in Hfree as [Hkeys Hfk].
  assert (msg_id row ∉ map msg_id (messages_table (chat_db st))) as Hnew.
  { apply forallb_fresh. rewrite forallb_forall in Hkeys |- *. intros m Hm.
    specialize (Hkeys m Hm). by apply andb_true_iff in Hkeys as [? _]. }
  assert (msg_chat_id row ∈ chat_ids st) as Hhouse.
  { apply existsb_exists in Hfk as (c & Hcin & Hceq).
    apply bool_decide_eq_true in Hceq. rewrite <- Hceq.
    apply list_elem_of_fmap. exists c. split; [done | by apply list_elem_of_In]. }
  destruct Hc.
  split; unfold user_ids, chat_ids in *; cbn [with_db users_table chat_db drafts_table];
    rewrite ?Hids; try done.
  - intros c Hin.
    assert (chat_user_id c ∈ map chat_user_id (chats_table (chat_db st))) as Hown.
    { change (chats_table (chat_db st)) with
        (chats_table {| chats_table := chats_table (chat_db st);
                        messages_table := messages_table (chat_db st) ++ [row] |}).
      rewrite <- Howners. apply list_elem_of_fmap. by exists c. }
    apply list_elem_of_fmap in Hown as (c0 & -> & Hc0). by apply chats_owned0.
  - simpl. rewrite map_app. by apply NoDup_snoc.
  - simpl. intros m Hin. apply elem_of_app in Hin as [Hin | Hin];
      [by apply messages_housed0|]. apply list_elem_of_singleton in Hin. by subst.
  - intros c.
    rewrite (messages_of_commit (chat_db st) row chat ts c), map_app, length_app.
    rewrite (messages_placed0 c). case_bool_decide as E; simpl.
    + rewrite Hidx. unfold select_max_idx.
      rewrite <- Hchat, E, (max_idx_seq _ _ (messages_placed0 c)).
      rewrite Nat2Z.inj_add, seqZ_app by lia. f_equal.
      change (seqZ (0 + Z.of_nat (length (messages_of (chat_db st) c))) (Z.of_nat 1))
        with [(0 + Z.of_nat (length (messages_of (chat_db st) c)))%Z]. f_equal. lia.
    + by rewrite app_nil_r, Nat.add_0_r.
Qed.

End Kept.

Lemma handle_consistent `{JsEngine} (e : Env) (user name : jsstring) (c : Call)
      (st : Store) :
  user ∈ user_ids st ->
  consistent st -> consistent (handle e user name c st).1.
Proof.
  intros Hu Hc. destruct c; simpl; try done.
  - by apply rotate_consistent.
  - unfold list_chats. by destruct (faults e _).
  - by apply create_chat_consistent.
  - by apply put_chat_consistent.
  - by apply delete_chat_consistent.
  - by apply append_consistent.
  - unfold get_draft. destruct (faults e _); [done|]. by destruct (draft_of _ _).
  - by apply put_draft_consistent.
  - by apply delete_draft_consistent.
Qed.

Lemma serve_consistent `{JsEngine} (e : Env) (r : Route) (st : Store) :
  consistent st -> consistent (serve e r st).1.
Proof.
  intros Hc. destruct r as [name | key c]; simpl.
  - by apply register_consistent.
  - unfold guarded. destruct (auth (faults e) key st) as [user name|] eqn:Ea; [|done].
    apply handle_consistent; try done. by apply (auth_granted (faults e) key st user name).
Qed.

(** ** One user's requests and another user's chats *)

Lemma own_rows (db : DB) (id user : jsstring) :
  NoDup (map chat_id (chats_table db)) -> select_chat db id user <> [] ->
  forall c, c ∈ chats_table db -> chat_id c = id -> chat_user_id c = user.
Proof.
  intros Hn Hs c Hc Hid. unfold select_chat in Hs.
  destruct (filter _ (chats_table db)) as [|c0 cs] eqn:E; [done|].
  assert (c0 ∈ filter (fun c => chat_id c = id /\ chat_user_id c = user) (chats_table db))
    as Hin by (rewrite E; left).
  apply list_elem_of_filter in Hin as [[Hid0 Hu0] Hin].
  rewrite (NoDup_map_inj chat_id (chats_table db) c c0 Hn Hc Hin); [done | congruence].
Qed.

Lemma others_rows_kept (g : ChatRow -> ChatRow) (id user v : jsstring)
      (chats : list ChatRow) :
  (forall c, chat_user_id (g c) = chat_user_id c) ->
  (forall c, c ∈ chats -> chat_id c = id -> chat_user_id c = user) ->
  v <> user ->
  filter (fun c => chat_user_id c = v)
         (map (fun c => if bool_decide (chat_id c = id) then g c else c) chats)
  = filter (fun c => chat_user_id c = v) chats.
Proof.
  intros Hg Hown Hv. induction chats as [|c chats IH]; [done|]. simpl.
  rewrite !filter_cons, IH by (intros c' Hc'; apply Hown; by right).
  case_bool_decide as E; [|done].
  assert (chat_user_id c = user) as Hu by (apply Hown; [left | done]).
  rewrite !decide_False; [done | congruence | rewrite Hg; congruence].
Qed.

Lemma others_rows_left (id user v : jsstring) (chats : list ChatRow) :
  (forall c, c ∈ chats -> chat_id c = id -> chat_user_id c = user) ->
  v <> user ->
  filter (fun c => chat_user_id c = v) (filter (fun c => chat_id c <> id) chats)
  = filter (fun c => chat_user_id c = v) chats.
Proof.
  intros Hown Hv. induction chats as [|c chats IH]; [done|].
  rewrite !filter_cons, <- IH by (intros c' Hc'; apply Hown; by right).
  destruct (decide (chat_id c <> id)) as [Hne | Heq]; [by rewrite filter_cons|].
  assert (chat_user_id c = user) as Hu.
  { apply Hown; [left|]. by destruct (decide (chat_id c = id)). }
  rewrite decide_False; [done | congruence].
Qed.

Lemma untouched_refl (v : jsstring) (st : Store) : untouched v st st.
Proof. by split. Qed.

Lemma untouched_trans (v : jsstring) (st1 st2 st3 : Store) :
  untouched v st1 st2 -> untouched v st2 st3 -> untouched v st1 st3.
Proof.
  intros [Hc1 Hm1] [Hc2 Hm2]. split; [congruence|].
  intros ch Hch. rewrite Hm2, Hm1; [done..|]. by rewrite Hc1.
Qed.

Lemma update_rows_untouched (g : ChatRow -> ChatRow) (id user v : jsstring) (st : Store) :
  (forall c, chat_user_id (g c) = chat_user_id c) ->
  consistent st -> select_chat (chat_db st) id user <> [] -> v <> user ->
  untouched v st (update_rows g id st).
Proof.
  intros Hg Hc Hs Hv. split; [|done].
  unfold chats_of. simpl. apply (others_rows_kept g id user); try done.
  apply own_rows; [apply Hc | done].
Qed.

Lemma delete_rows_untouched (id user v : jsstring) (st : Store) :
  consistent st -> select_chat (chat_db st) id user <> [] -> v <> user ->
  untouched v st (delete_rows id st).
Proof.
  intros Hc Hs Hv.
  pose proof (own_rows (chat_db st) id user (chats_unique st Hc) Hs) as Hown.
  split.
  - unfold chats_of. simpl. by apply (others_rows_left id user).
  - intros ch Hch. unfold chats_of in Hch. apply list_elem_of_filter in Hch as [Hu Hin].
    unfold messages_of at 1. simpl. rewrite messages_of_filter_out.
    rewrite bool_decide_eq_false_2; [done|]. intros Hid.
    specialize (Hown ch Hin Hid). congruence.
Qed.

Lemma append_untouched `{JsEngine} (o : Oracle) (id ts user chat v : jsstring)
      (role content : option json) (st : Store) :
  consistent st -> v <> user ->
  untouched v st
    (with_db (committed (post_message o id ts user chat role content (chat_db st)).1) st).
Proof.
  intros Hc Hv.
  destruct (post_message_committed o id ts user chat role content (chat_db st))
    as [-> | (row & Hid & Hchat & Hidx & Hfree & Hs & ->)].
  { rewrite with_db_same. apply untouched_refl. }
  pose proof (own_rows (chat_db st) chat user (chats_unique st Hc) Hs) as Hown.
  split.
  - unfold chats_of, update_chat_timestamp. simpl.
    apply (others_rows_kept (touch ts) chat user); done.
  - intros ch Hch. unfold chats_of in Hch. apply list_elem_of_filter in Hch as [Hu Hin].
    cbn [with_db chat_db]. rewrite messages_of_commit.
    rewrite bool_decide_eq_false_2; [by rewrite app_nil_r|].
    rewrite Hchat. intros Heq. symmetry in Heq. specialize (Hown ch Hin Heq). congruence.
Qed.

Lemma empty_consistent : consistent empty_store.
Proof.
  split; unfold user_ids, chat_ids; simpl; try apply NoDup_nil_2;
    try (intros ? Hin; by apply elem_of_nil in Hin);
    try (intros ? ? Hin; by apply elem_of_nil in Hin). done.
Qed.

Lemma run_consistent `{JsEngine} (rqs : list (Env * Route)) (st : Store) :
  consistent st -> consistent (run rqs st).
Proof.
  revert st. induction rqs as [|[e r] rqs IH]; intros st Hc; [done|].
  simpl. apply IH. by apply serve_consistent.
Qed.

(** ** Keys and the users they open *)

Lemma filter_none {A : Type} (P : A -> Prop) `{!forall x, Decision (P x)} (l : list A) :
  (forall x, x ∈ l -> ~ P x) -> filter P l = [].
Proof.
  intros Hno. destruct (filter P l) as [|x xs] eqn:E; [done|].
  assert (x ∈ filter P l) as Hin by (rewrite E; left).
  apply list_elem_of_filter in Hin as [Hp Hin]. by destruct (Hno x Hin).
Qed.

Lemma filter_only {A B : Type} `{EqDecision B} (g : A -> B) (b : B) (l : list A) (x : A) :
  NoDup (map g l) -> x ∈ l -> g x = b -> filter (fun y => g y = b) l = [x].
Proof.
  induction l as [|z l IH]; intros Hn Hx Hg; [by apply elem_of_nil in Hx|].
  simpl in Hn. apply NoDup_cons in Hn as [Hz Hn]. rewrite filter_cons.
  apply elem_of_cons in Hx as [-> | Hx].
  - rewrite decide_True by done. f_equal. apply filter_none.
    intros y Hy Hgy. destruct Hz. rewrite Hg, <- Hgy. apply list_elem_of_fmap. by exists y.
  - rewrite decide_False; [by apply IH|].
    intros Hgz. destruct Hz. rewrite Hgz, <- Hg. apply list_elem_of_fmap. by exists x.
Qed.

Lemma auth_known (f : Faults) (k : jsstring) (st : Store) (u : UserRow) :
  k <> [] -> f (SelectUserByKey k) = false ->
  NoDup (map usr_api_key (users_table st)) ->
  u ∈ users_table st -> usr_api_key u = k ->
  auth f (Some k) st = Granted (usr_id u) (usr_name u).
Proof.
  intros Hk Hf Hn Hu Hkey. unfold auth. destruct k as [|c k]; [done|].
  rewrite Hf. unfold select_user_by_key.
  by rewrite (filter_only usr_api_key (c :: k) _ u Hn Hu Hkey).
Qed.

Lemma auth_unknown (f : Faults) (k : jsstring) (st : Store) :
  k <> [] -> f (SelectUserByKey k) = false ->
  (forall u, u ∈ users_table st -> usr_api_key u <> k) ->
  auth f (Some k) st = Denied 401 (str "invalid api key").
Proof.
  intros Hk Hf Hno. unfold auth. destruct k as [|c k]; [done|].
  rewrite Hf. unfold select_user_by_key. by rewrite (filter_none _ _ Hno).
Qed.

Lemma auth_holder (f : Faults) (k : jsstring) (st : Store) (user name : jsstring) :
  auth f (Some k) st = Granted user name ->
  k <> [] /\ f (SelectUserByKey k) = false
  /\ exists u, u ∈ users_table st /\ usr_api_key u = k
               /\ usr_id u = user /\ usr_name u = name.
Proof.
  unfold auth. destruct k as [|c k]; [done|].
  destruct (f _); [done|].
  destruct (select_user_by_key st (c :: k)) as [|u us] eqn:E; [done|].
  intros [= <- <-]. split; [done|]. split; [done|].
  assert (u ∈ select_user_by_key st (c :: k)) as Hin by (rewrite E; left).
  unfold select_user_by_key in Hin. apply elem_of_take in Hin as (i & Hi & _).
  apply list_elem_of_lookup_2, list_elem_of_filter in Hi as [Hk Hu].
  by exists u.
Qed.

Lemma existsb_none {A : Type} (p : A -> bool) (l : list A) :
  existsb p l = false -> forall x, x ∈ l -> p x = false.
Proof.
  intros Hex x Hx. destruct (p x) eqn:E; [|done].
  assert (existsb p l = true) as Ht; [|congruence].
  apply existsb_exists. exists x. split; [by apply list_elem_of_In | done].
Qed.

End ServerFacts.

Module ServerClaims.
Import BackendFacts LedgerFacts ServerFacts.

(** X5. Whatever requests the server has answered since it started with
    empty tables, registrations, rotations, chats created, changed and
    deleted, appends, drafts, with whatever failures in between: no two
    users share an id or an API key, no two chats an id, no two messages
    an id; every chat has its user, every message its chat, every draft
    its user and, if it names a chat, that chat; a user has one draft at
    most; and the positions of the messages of each chat are, in table
    order, 0, 1, 2 and so on. *)
Theorem tables_stay_consistent `{JsEngine} (rqs : list (Env * Route)) :
  consistent (run rqs empty_store).
Proof. apply run_consistent, empty_consistent. Qed.



(** X7. A request whose key is missing or is no user's key changes
    nothing, whatever its route, and is answered 401, or 500 when the
    query of [auth] fails: no handler behind [auth] runs. *)
Theorem no_key_no_effect `{JsEngine} (e : Env) (key : option jsstring) (c : Call)
        (st : Store) :
  (forall u, u ∈ users_table st -> Some (usr_api_key u) <> key) ->
  (guarded e key c st).1 = st
  /\ ((guarded e key c st).2 = Failed 401 (str "missing api key")
      \/ (guarded e key c st).2 = Failed 401 (str "invalid api key")
      \/ (guarded e key c st).2 = Failed 500 (str "auth error"))
  /\ ((forall q, faults e q = false) -> exists error, (guarded e key c st).2 = Failed 401 error).
Proof.
  intros Hnone. unfold guarded, auth.
  destruct key as [[|k0 k]|]; try (split; [done|]; split; [by left | by eexists]).
  assert (select_user_by_key st (k0 :: k) = []) as ->.
  { unfold select_user_by_key.
    destruct (filter _ (users_table st)) as [|u us] eqn:E; [done|].
    assert (u ∈ filter (fun u => usr_api_key u = k0 :: k) (users_table st)) as Hin
        by (rewrite E; left).
    apply list_elem_of_filter in Hin as [Hk Hin]. destruct (Hnone u Hin). by rewrite Hk. }
  destruct (faults e _) eqn:Ef.
  - split; [done|]. split; [by right; right|]. intros Hq. by rewrite Hq in Ef.
  - split; [done|]. split; [by right; left | by eexists].
Qed.

Lemma no_key_no_effect_witness :
  (forall u, u ∈ users_table two_users -> Some (usr_api_key u) <> Some (str "k3"))
  /\ guarded (H := reference_engine) (met "c9" "" "t9") (Some (str "k3"))
       (DeleteChat (str "c1")) two_users
     = (two_users, Failed 401 (str "invalid api key")).
Proof.
  assert (forall u, u ∈ users_table two_users -> Some (usr_api_key u) <> Some (str "k3"))
    as Hn.
  { intros u Hu. vm_compute in Hu.
    repeat (apply elem_of_cons in Hu as [-> | Hu]; [vm_compute; discriminate|]).
    by apply elem_of_nil in Hu. }
  split; [exact Hn|].
  destruct (no_key_no_effect (H := reference_engine) (met "c9" "" "t9") (Some (str "k3"))
              (DeleteChat (str "c1")) two_users Hn) as (Hst & _ & _).
  apply injective_projections; [exact Hst | vm_compute; reflexivity].
Defined.

(** X8. A request about a chat that is not the caller's, be it to read
    it, to change it, to delete it or to append to it, changes nothing.
    When no query fails it is answered 404 [not found] (the append, when
    its body passes the check). *)
Theorem foreign_chat_is_refused `{JsEngine} (e : Env) (user name id : jsstring)
        (c : Call) (st : Store) :
  about c = Some id ->
  select_chat (chat_db st) id user = [] ->
  (handle e user name c st).1 = st
  /\ ((forall q, faults e q = false) -> (forall q, oracle e q = false) ->
      match c with
      | GetChat _ => (handle e user name c st).2 = ChatRead (NoListing 404 (str "not found"))
      | PostMessages _ (Some r) (Some (JStr _)) =>
          truthy r = true ->
          (handle e user name c st).2 = Append (Some (Refused 404 (str "not found")))
      | PostMessages _ _ _ =>
          (handle e user name c st).2
          = Append (Some (Refused 400 (str "role and content required")))
      | _ => (handle e user name c st).2 = Failed 404 (str "not found")
      end).
Proof.
  intros Habout Hnone.
  destruct c as [| | | |id'|id' ? ?|id'|id' rl ct| | |]; try done;
    injection Habout as ->; simpl.
  - (* GET *)
    split; [done|]. intros _ Ho. unfold get_chat. by rewrite Ho, Hnone.
  - (* PUT *)
    unfold put_chat. rewrite Hnone. split.
    + by destruct (faults e _).
    + intros Hf _. by rewrite Hf.
  - (* DELETE *)
    unfold delete_chat. rewrite Hnone. split.
    + by destruct (faults e _).
    + intros Hf _. by rewrite Hf.
  - (* POST messages *)
    split.
    + destruct (post_message_committed (oracle e) (fresh_id e) (env_now e) user id
                  rl ct (chat_db st)) as [-> | (row & _ & _ & _ & _ & Hc & _)];
        [apply with_db_same | done].
    + intros _ Ho. unfold post_message.
      destruct rl as [r|]; [|done].
      destruct ct as [[| | |text| |]|]; try (by destruct (truthy r)).
      intros ->. rewrite Ho.
      unfold append_transaction, mbind, M_bind, beginTransaction, query_chat, rollback,
        statement.
      simpl. rewrite !Ho. simpl. rewrite Hnone. simpl. by rewrite ?Ho.
Qed.

Lemma foreign_chat_is_refused_witness :
  about (DeleteChat (str "c1")) = Some (str "c1")
  /\ select_chat (chat_db two_users) (str "c1") (str "u2") = []
  /\ handle (H := reference_engine) (met "" "" "t9") (str "u2") (str "bob")
       (DeleteChat (str "c1")) two_users
     = (two_users, Failed 404 (str "not found")).
Proof.
  assert (select_chat (chat_db two_users) (str "c1") (str "u2") = []) as Hs
      by (vm_compute; reflexivity).
  refine (conj eq_refl (conj Hs _)).
  destruct (foreign_chat_is_refused (H := reference_engine) (met "" "" "t9") (str "u2")
              (str "bob") (str "c1") (DeleteChat (str "c1")) two_users eq_refl Hs)
    as [Hst Hr].
  apply injective_projections; [exact Hst | by apply Hr].
Defined.

(** X9. When a delete is answered [ok], the chat is gone and with it its
    messages; no draft names it any more, the drafts keeping their texts;
    and the messages of the other chats are as they were. Whoever then
    asks for the chat, with whatever key [auth] lets through, is answered
    404 [not found] when the query for it is not rejected, and 500
    [get chat failed] when it is: no listing either way. *)
Theorem deleted_chat_is_gone `{JsEngine} (f : Faults) (user id : jsstring)
        (st st' : Store) :
  delete_chat f user id st = (st', Done200) ->
  (id ∉ chat_ids st')
  /\ messages_of (chat_db st') id = []
  /\ (forall d, d ∈ drafts_table st' -> dr_chat_id d <> Some id)
  /\ map dr_text (drafts_table st') = map dr_text (drafts_table st)
  /\ (forall c, c <> id -> messages_of (chat_db st') c = messages_of (chat_db st) c)
  /\ users_table st' = users_table st
  /\ (forall (e : Env) (v name : jsstring),
        handle e v name (GetChat id) st'
        = (st', ChatRead (if oracle e (SelectChat id v)
                          then NoListing 500 (str "get chat failed")
                          else NoListing 404 (str "not found")))).
Proof.
  unfold delete_chat. destruct (f _); [done|].
  destruct (select_chat _ _ _); [done|]. destruct (f _); [done|].
  intros [= <-]. unfold chat_ids. simpl. repeat split.
  - intros Hin. apply list_elem_of_fmap in Hin as (ch & -> & Hch).
    by apply list_elem_of_filter in Hch as [Hne _].
  - unfold messages_of. simpl. rewrite messages_of_filter_out.
    by rewrite bool_decide_eq_true_2.
  - intros d Hin. apply list_elem_of_fmap in Hin as (d0 & -> & _).
    unfold forget_chat. by case_bool_decide.
  - rewrite map_map. apply map_ext. intros d. unfold forget_chat. by case_bool_decide.
  - intros ch Hch. unfold messages_of at 1. simpl. rewrite messages_of_filter_out.
    by rewrite bool_decide_eq_false_2.
  - intros e v name. f_equal. f_equal. unfold get_chat.
    destruct (oracle e (SelectChat id v)); [done|].
    unfold select_chat. simpl.
    assert (filter (fun c => chat_id c = id /\ chat_user_id c = v)
              (filter (fun c => chat_id c <> id) (chats_table (chat_db st))) = []) as ->;
      [|done].
    induction (chats_table (chat_db st)) as [|row rows IH]; [done|].
    rewrite filter_cons. case_decide as Hrow; [|exact IH].
    rewrite filter_cons. case_decide as Hd; [by destruct Hd|exact IH].
Qed.

Lemma deleted_chat_is_gone_witness :
  delete_chat quiet (str "u1") (str "c1") two_users
  = (delete_rows (str "c1") two_users, Done200)
  /\ messages_of (chat_db (delete_rows (str "c1") two_users)) (str "c1") = []
  /\ map dr_chat_id (drafts_table (delete_rows (str "c1") two_users)) = [None]
  /\ (exists meta,
        (handle (H := reference_engine) (met "" "" "t9") (str "u1") (str "ann")
           (GetChat (str "c1")) two_users).2
        = ChatRead (Listing meta (messages_of (chat_db two_users) (str "c1"))))
  /\ (handle (H := reference_engine) (met "" "" "t9") (str "u1") (str "ann")
        (GetChat (str "c1")) (delete_rows (str "c1") two_users)).2
     = ChatRead (NoListing 404 (str "not found")).
Proof.
  assert (delete_chat quiet (str "u1") (str "c1") two_users
          = (delete_rows (str "c1") two_users, Done200)) as Hd by (vm_compute; reflexivity).
  split; [exact Hd|].
  destruct (deleted_chat_is_gone (H := reference_engine) quiet (str "u1") (str "c1")
              two_users _ Hd) as (_ & Hm & _ & _ & _ & _ & Hget).
  split; [exact Hm|]. split; [vm_compute; reflexivity|].
  split; [eexists; vm_compute; reflexivity|].
  by rewrite (Hget (met "" "" "t9") (str "u1") (str "ann")).
Defined.

(** X10. What a user asks for never changes the chats of another user or
    their messages, whatever the route and whatever fails. *)
Theorem others_chats_are_untouched `{JsEngine} (e : Env) (user name v : jsstring)
        (c : Call) (st : Store) :
  consistent st -> v <> user ->
  chats_of (chat_db (handle e user name c st).1) v = chats_of (chat_db st) v
  /\ forall ch, ch ∈ chats_of (chat_db st) v ->
       messages_of (chat_db (handle e user name c st).1) (chat_id ch)
       = messages_of (chat_db st) (chat_id ch).
Proof.
  intros Hc Hv. change (untouched v st (handle e user name c st).1).
  destruct c as [| | |title model incognito|id|id title model|id|id rl ct| |chatId text|];
    simpl; try apply untouched_refl.
  - unfold rotate. destruct (faults e _); [apply untouched_refl|].
    destruct (existsb _ _); [apply untouched_refl | by split].
  - unfold list_chats. destruct (faults e _); apply untouched_refl.
  - unfold create_chat. destruct (faults e _); [apply untouched_refl|].
    destruct (chat_id_free _ _); [|apply untouched_refl]. split; [|done].
    unfold chats_of. simpl. rewrite filter_app, filter_cons, filter_nil.
    rewrite decide_False by (simpl; congruence). by rewrite app_nil_r.
  - unfold put_chat. destruct (faults e _); [apply untouched_refl|].
    destruct (select_chat (chat_db st) id user) as [|c0 cs] eqn:Es; [apply untouched_refl|].
    assert (select_chat (chat_db st) id user <> []) as Hs by (by rewrite Es).
    assert (forall t, untouched v st (update_rows (retitled t (env_now e)) id st)) as Ht.
    { intros t. by apply (update_rows_untouched _ id user). }
    assert (forall st1 m, untouched v st st1 ->
              chats_table (chat_db st1) = chats_table (chat_db st)
              \/ (exists t, st1 = update_rows (retitled t (env_now e)) id st) ->
              untouched v st (update_rows (remodelled m (env_now e)) id st1)) as Hm.
    { intros st1 m H1 Hst1. apply (untouched_trans v st st1); [done|].
      split; [|done]. unfold chats_of. simpl.
      apply (others_rows_kept _ id user); try done.
      intros c1 Hin Hid. destruct Hst1 as [Heq | [t ->]].
      - rewrite Heq in Hin. by apply (own_rows (chat_db st) id user (chats_unique st Hc) Hs).
      - simpl in Hin. apply list_elem_of_fmap in Hin as (c2 & -> & Hin2).
        case_bool_decide as E; simpl in *;
          by apply (own_rows (chat_db st) id user (chats_unique st Hc) Hs). }
    destruct title as [tv|], model as [mv|]; simpl;
      repeat (destruct (faults e _); simpl); try apply untouched_refl; try apply Ht.
    + apply Hm; [apply Ht | right; by eexists].
    + apply Hm; [apply untouched_refl | by left].
  - unfold delete_chat. destruct (faults e _); [apply untouched_refl|].
    destruct (select_chat (chat_db st) id user) as [|c0 cs] eqn:Es; [apply untouched_refl|].
    destruct (faults e _); [apply untouched_refl|].
    apply (delete_rows_untouched id user); try done. by rewrite Es.
  - by apply append_untouched.
  - unfold get_draft. destruct (faults e _); [apply untouched_refl|].
    destruct (draft_of _ _); apply untouched_refl.
  - unfold put_draft. destruct (faults e _); [apply untouched_refl|].
    destruct chatId as [[|c0 cid]|]; simpl; try (by split).
    destruct (chat_id_free _ _); [apply untouched_refl | by split].
  - unfold delete_draft. destruct (faults e _); [apply untouched_refl | by split].
Qed.

Lemma others_chats_are_untouched_witness :
  consistent two_users
  /\ str "u2" <> str "u1"
  /\ map chat_id (chats_of (chat_db (handle (H := reference_engine) (met "" "" "t9")
                                       (str "u1") (str "ann") (DeleteChat (str "c1"))
                                       two_users).1) (str "u2"))
     = [str "c2"].
Proof.
  assert (consistent two_users) as Hc
      by apply (run_consistent (H := reference_engine)), empty_consistent.
  assert (str "u2" <> str "u1") as Hv by (vm_compute; discriminate).
  refine (conj Hc (conj Hv _)).
  rewrite (proj1 (others_chats_are_untouched (H := reference_engine) (met "" "" "t9")
                    (str "u1") (str "ann") (str "u2") (DeleteChat (str "c1")) two_users
                    Hc Hv)).
  vm_compute. reflexivity.
Defined.

(** X11. A chat that [POST /chats] has created is the caller's and is
    empty: read by the caller it lists no message, with the title and the
    model of the request cut to 255 and 120 code units; read by anyone
    else it is not found. *)
Theorem created_chat_is_listed_empty `{JsEngine} (f : Faults) (id ts user : jsstring)
        (title model incognito : option json) (st st' : Store) (id' : jsstring) :
  consistent st ->
  create_chat f id ts user title model incognito st = (st', Created id') ->
  id' = id
  /\ (exists meta,
        get_chat no_faults user id (chat_db st') = Listing meta []
        /\ chat_title meta = clipped title 255
        /\ chat_model meta = clipped model 120
        /\ chat_created_at meta = ts /\ chat_updated_at meta = ts)
  /\ (forall v, v <> user ->
        get_chat no_faults v id (chat_db st') = NoListing 404 (str "not found"))
  /\ (forall t, clipped title 255 = Some t -> length t <= 255).
Proof.
  intros Hc. unfold create_chat. destruct (f _); [done|].
  destruct (chat_id_free _ _) eqn:Hfree; [|done]. intros [= <- <-].
  apply forallb_fresh in Hfree.
  assert (forall v, filter (fun c => chat_id c = id /\ chat_user_id c = v)
                           (chats_table (chat_db st)) = []) as Hnone.
  { intros v. destruct (filter _ _) as [|c cs] eqn:E; [done|].
    assert (c ∈ filter (fun c => chat_id c = id /\ chat_user_id c = v)
              (chats_table (chat_db st))) as Hin by (rewrite E; left).
    apply list_elem_of_filter in Hin as [[Hid _] Hin]. destruct Hfree.
    apply list_elem_of_fmap. by exists c. }
  assert (messages_of (chat_db st) id = []) as Hempty.
  { unfold messages_of. destruct (filter _ _) as [|m ms] eqn:E; [done|].
    assert (m ∈ filter (fun m => msg_chat_id m = id) (messages_table (chat_db st)))
      as Hin by (rewrite E; left).
    apply list_elem_of_filter in Hin as [Hid Hin]. destruct Hfree.
    rewrite <- Hid. by apply (messages_housed st Hc). }
  split; [done|]. split; [|split].
  - eexists. unfold get_chat, select_chat. simpl.
    rewrite filter_app, Hnone, filter_cons, filter_nil.
    rewrite decide_True by done. simpl. unfold messages_of in *. simpl.
    rewrite Hempty. split; [reflexivity | done].
  - intros v Hv. unfold get_chat, select_chat. simpl.
    rewrite filter_app, Hnone, filter_cons, filter_nil.
    rewrite decide_False; [done|]. simpl. intros [_ Hu]. congruence.
  - intros t. unfold clipped. destruct title as [w|]; [|done].
    destruct (truthy w); [|done]. intros [= <-].
    rewrite slice_take, length_take by lia. lia.
Qed.

Lemma created_chat_is_listed_empty_witness :
  consistent two_users
  /\ (create_chat (H := reference_engine) quiet (str "c3") (str "t9") (str "u1")
        (text "third") None None two_users).2 = Created (str "c3")
  /\ exists meta,
       get_chat no_faults (str "u1") (str "c3")
         (chat_db (create_chat (H := reference_engine) quiet (str "c3") (str "t9")
                     (str "u1") (text "third") None None two_users).1)
       = Listing meta [].
Proof.
  assert (consistent two_users) as Hc
      by apply (run_consistent (H := reference_engine)), empty_consistent.
  refine (conj Hc (conj eq_refl _)).
  destruct (created_chat_is_listed_empty (H := reference_engine) quiet (str "c3") (str "t9")
              (str "u1") (text "third") None None two_users _ (str "c3") Hc eq_refl)
    as (_ & (meta & Hget & _) & _).
  by exists meta.
Defined.

(** X12. A draft that [PUT /drafts/current] has saved is what
    [GET /drafts/current] then gives the same user: the text of the
    request cut to 20000 code units, the chat it names (none for an empty
    name), and the time of the save. Once the draft is deleted, what is
    given is the blank draft. *)
Theorem saved_draft_is_read_back `{JsEngine} (f : Faults) (ts user : jsstring)
        (chatId : option jsstring) (body : option json) (st st' : Store)
        (ts' : jsstring) :
  put_draft f ts user chatId body st = (st', DraftSaved ts') ->
  f (SelectDraft user) = false ->
  ts' = ts
  /\ (exists draft,
        get_draft f user st' = (st', DraftRead (match chatId with
                                                | Some (_ :: _) => chatId
                                                | _ => None
                                                end) draft (Some ts))
        /\ draft = slice (string_or_empty body) 0 (Some 20000%Z)
        /\ (Z.of_nat (length draft) <= 20000)%Z)
  /\ (f (DeleteDraftOf user) = false ->
      (get_draft f user (delete_draft f user st').1).2 = DraftRead None [] None).
Proof.
  intros Hput Hsel.
  assert (forall drafts row, dr_user_id row = user ->
            take 1 (filter (fun d => dr_user_id d = user) (upsert row drafts)) = [row])
    as Hfirst.
  { intros drafts row Hu. unfold upsert. destruct (existsb _ _) eqn:Hex.
    - apply existsb_exists in Hex as (d0 & Hin & Hd0).
      apply bool_decide_eq_true in Hd0. apply list_elem_of_In in Hin.
      induction drafts as [|d drafts IH]; [by apply elem_of_nil in Hin|].
      simpl. rewrite filter_cons. case_bool_decide as E.
      + by rewrite decide_True.
      + rewrite decide_False by congruence.
        apply elem_of_cons in Hin as [-> | Hin]; [done | by apply IH].
    - rewrite filter_app, filter_cons, filter_nil, decide_True by done.
      assert (filter (fun d => dr_user_id d = user) drafts = []) as ->; [|done].
      destruct (filter _ drafts) as [|d ds] eqn:E; [done|].
      assert (d ∈ filter (fun d => dr_user_id d = user) drafts) as Hin by (rewrite E; left).
      apply list_elem_of_filter in Hin as [Hd Hin].
      assert (existsb (fun d => bool_decide (dr_user_id d = dr_user_id row)) drafts = true)
        as Ht; [|congruence].
      apply existsb_exists. exists d. split; [by apply list_elem_of_In|].
      rewrite bool_decide_eq_true_2; [done | congruence]. }
  assert (forall st0, (get_draft f user (delete_draft f user st0).1).2
                      = if f (DeleteDraftOf user)
                        then (get_draft f user st0).2 else DraftRead None [] None) as Hdel.
  { intros st0. unfold delete_draft. destruct (f (DeleteDraftOf user)); [done|]. simpl.
    unfold get_draft, draft_of. rewrite Hsel. simpl.
    rewrite list_filter_filter.
    assert (filter (fun d => dr_user_id d = user /\ dr_user_id d <> user) (drafts_table st0)
            = []) as ->; [|done].
    induction (drafts_table st0) as [|d l IH]; [done|].
    rewrite filter_cons, decide_False; [done | by intros [? ?]]. }
  unfold put_draft in Hput. destruct (f (UpsertDraft _)); [done|].
  set (row := {| dr_user_id := user; dr_chat_id := _; dr_text := _; dr_updated_at := ts |})
    in *.
  assert (st' = {| users_table := users_table st; chat_db := chat_db st;
                   drafts_table := upsert row (drafts_table st) |} /\ ts' = ts)
    as [-> ->].
  { destruct (dr_chat_id row) as [c|]; [destruct (chat_id_free _ _); [done|]|];
      by injection Hput as <- <-. }
  split; [done|]. split.
  - eexists. unfold get_draft, draft_of. rewrite Hsel. simpl.
    rewrite (Hfirst _ row eq_refl). split; [reflexivity|]. split; [done|].
    subst row. simpl. rewrite slice_take, length_take by lia. lia.
  - intros Hd. by rewrite Hdel, Hd.
Qed.

Lemma saved_draft_is_read_back_witness :
  put_draft (H := reference_engine) quiet (str "t9") (str "u2") (Some []) (text "new")
    two_users
  = ((put_draft (H := reference_engine) quiet (str "t9") (str "u2") (Some []) (text "new")
        two_users).1, DraftSaved (str "t9"))
  /\ quiet (SelectDraft (str "u2")) = false
  /\ (get_draft quiet (str "u2")
        (put_draft (H := reference_engine) quiet (str "t9") (str "u2") (Some []) (text "new")
           two_users).1).2
     = DraftRead None (str "new") (Some (str "t9")).
Proof.
  assert (put_draft (H := reference_engine) quiet (str "t9") (str "u2") (Some []) (text "new")
            two_users
          = ((put_draft (H := reference_engine) quiet (str "t9") (str "u2") (Some [])
                (text "new") two_users).1, DraftSaved (str "t9"))) as Hp
      by (vm_compute; reflexivity).
  refine (conj Hp (conj eq_refl _)).
  destruct (saved_draft_is_read_back (H := reference_engine) quiet (str "t9") (str "u2")
              (Some []) (text "new") two_users _ _ Hp eq_refl)
    as (_ & (draft & Hget & -> & _) & _).
  rewrite Hget. vm_compute. reflexivity.
Defined.

(** X13. The key that a registration answers opens the new account and
    no other: a request with it is let through as the new user, under
    the name that was stored, which is the name of the request without
    the white space around it, cut to 80 code units, and not empty. What
    every other key opens is as before. *)
Theorem registered_key_opens_the_account `{JsEngine} (f : Faults) (id key ts : jsstring)
        (name : option json) (st st' : Store) (id' n key' : jsstring) :
  register f id key ts name st = (st', Registered id' n key') ->
  key <> [] ->
  f (SelectUserByKey key) = false ->
  id' = id /\ key' = key
  /\ n = slice (trim (string_or_empty name)) 0 (Some 80%Z)
  /\ n <> [] /\ length n <= 80
  /\ auth f (Some key) st' = Granted id n
  /\ forall k, k <> key -> auth f (Some k) st' = auth f (Some k) st.
Proof.
  unfold register. destruct (slice _ 0 _) as [|c0 n0] eqn:En; [done|].
  destruct (f (InsertUser _)); [done|].
  destruct (user_keys_free st _) eqn:Hfree; [|done].
  intros [= <- <- <- <-] Hkey Hf.
  assert (key ∉ map usr_api_key (users_table st)) as Hnew.
  { apply forallb_fresh. unfold user_keys_free in Hfree. simpl in Hfree.
    rewrite forallb_forall in Hfree |- *. intros u Hu.
    by apply Hfree, andb_true_iff in Hu as [_ Hu]. }
  repeat split; try done.
  - rewrite <- En, slice_take, length_take by lia. lia.
  - unfold auth. destruct key as [|c k]; [done|]. rewrite Hf.
    unfold select_user_by_key. simpl. rewrite filter_app, filter_cons, filter_nil.
    rewrite decide_True by done. rewrite filter_none; [done|].
    intros u Hu Hk. destruct Hnew. rewrite <- Hk. apply list_elem_of_fmap. by exists u.
  - intros k Hk. unfold auth, select_user_by_key. simpl.
    rewrite filter_app, filter_cons, filter_nil, decide_False by done.
    by rewrite app_nil_r.
Qed.

Lemma registered_key_opens_the_account_witness :
  register (H := reference_engine) quiet (str "u3") (str "k3") (str "t9") (text " cy  ")
    two_users
  = ((register (H := reference_engine) quiet (str "u3") (str "k3") (str "t9") (text " cy  ")
        two_users).1, Registered (str "u3") (str "cy") (str "k3"))
  /\ str "k3" <> []
  /\ quiet (SelectUserByKey (str "k3")) = false
  /\ auth quiet (Some (str "k3"))
       (register (H := reference_engine) quiet (str "u3") (str "k3") (str "t9") (text " cy  ")
          two_users).1
     = Granted (str "u3") (str "cy").
Proof.
  assert (register (H := reference_engine) quiet (str "u3") (str "k3") (str "t9")
            (text " cy  ") two_users
          = ((register (H := reference_engine) quiet (str "u3") (str "k3") (str "t9")
                (text " cy  ") two_users).1, Registered (str "u3") (str "cy") (str "k3")))
    as Hr by (vm_compute; reflexivity).
  assert (str "k3" <> []) as Hk by (vm_compute; discriminate).
  refine (conj Hr (conj Hk (conj eq_refl _))).
  exact (proj1 (proj2 (proj2 (proj2 (proj2 (proj2
           (registered_key_opens_the_account (H := reference_engine) quiet (str "u3")
              (str "k3") (str "t9") (text " cy  ") two_users _ _ _ _ Hr Hk eq_refl))))))).
Defined.



(** X15. When a rotation is answered with a new key, that key opens the
    caller's account from then on and the key the caller came with opens
    nothing; the keys of the others open what they opened, and no chat
    and no draft has changed. *)
Theorem rotated_key_replaces_the_old `{JsEngine} (f : Faults) (key old user name : jsstring)
        (st st' : Store) (key' : jsstring) :
  consistent st ->
  auth f (Some old) st = Granted user name ->
  rotate f key user st = (st', Rotated key') ->
  key <> [] -> old <> key -> f (SelectUserByKey key) = false ->
  key' = key
  /\ auth f (Some key) st' = Granted user name
  /\ auth f (Some old) st' = Denied 401 (str "invalid api key")
  /\ (forall k, k <> key -> k <> old -> auth f (Some k) st' = auth f (Some k) st)
  /\ chat_db st' = chat_db st /\ drafts_table st' = drafts_table st.
Proof.
  intros Hc Hold Hrot Hkey Hne Hf.
  apply auth_holder in Hold as (Hold & Hfo & u & Hu & Hku & Hidu & Hnu).
  unfold rotate in Hrot. destruct (f (UpdateApiKey _ _)); [done|].
  destruct (existsb _ _) eqn:Hex; [done|]. injection Hrot as <- <-.
  set (st' := {| users_table := map (rekey key user) (users_table st);
                 chat_db := chat_db st; drafts_table := drafts_table st |}).
  pose proof (existsb_none _ _ Hex) as Hfree. simpl in Hfree.
  pose proof (users_unique st Hc) as Hids. pose proof (keys_unique st Hc) as Hkeys.
  assert (NoDup (map usr_api_key (users_table st'))) as Hkeys' by by apply rekey_keys.
  assert (forall w, w ∈ users_table st -> usr_id w = user -> w = u) as Hone.
  { intros w Hw Hid. apply (NoDup_map_inj usr_id (users_table st)); try done. congruence. }
  split; [done|]. split; [|split; [|split; [|done]]].
  - assert (rekey key user u ∈ users_table st') as Hin
        by (apply list_elem_of_fmap; by exists u).
    rewrite (auth_known f key st' (rekey key user u) Hkey Hf Hkeys' Hin).
    + unfold rekey. rewrite bool_decide_eq_true_2 by done. simpl. by rewrite Hidu, Hnu.
    + unfold rekey. by rewrite bool_decide_eq_true_2 by done.
  - apply auth_unknown; [done | done |]. simpl.
    intros w' Hw'. apply list_elem_of_fmap in Hw' as (w & -> & Hw). unfold rekey.
    case_bool_decide as Ew; simpl; [congruence|].
    intros Hk. destruct Ew. rewrite <- Hidu. f_equal.
    apply (NoDup_map_inj usr_api_key (users_table st)); try done. congruence.
  - intros k Hk Hko. destruct k as [|c k]; [done|].
    destruct (f (SelectUserByKey (c :: k))) eqn:Hfk; [unfold auth; by rewrite Hfk|].
    destruct (decide (c :: k ∈ map usr_api_key (users_table st))) as [Hin | Hout].
    + apply list_elem_of_fmap in Hin as (w & Hkw & Hw).
      assert (usr_id w <> user) as Hid.
      { intros Hid. rewrite (Hone w Hw Hid) in Hkw. congruence. }
      assert (rekey key user w = w) as Hsame
          by (unfold rekey; by rewrite bool_decide_eq_false_2).
      assert (w ∈ users_table st') as Hw'
          by (apply list_elem_of_fmap; exists w; by rewrite Hsame).
      rewrite (auth_known f (c :: k) st' w); try done.
      by rewrite (auth_known f (c :: k) st w).
    + rewrite !auth_unknown; try done.
      * intros w Hw Hkw. destruct Hout. rewrite <- Hkw. apply list_elem_of_fmap. by exists w.
      * simpl. intros w' Hw'. apply list_elem_of_fmap in Hw' as (w & -> & Hw). unfold rekey.
        case_bool_decide as Ew; simpl; [congruence|].
        intros Hkw. destruct Hout. rewrite <- Hkw. apply list_elem_of_fmap. by exists w.
Qed.

Lemma rotated_key_replaces_the_old_witness :
  consistent two_users
  /\ auth quiet (Some (str "k1")) two_users = Granted (str "u1") (str "ann")
  /\ rotate quiet (str "k9") (str "u1") two_users
     = ((rotate quiet (str "k9") (str "u1") two_users).1, Rotated (str "k9"))
  /\ str "k9" <> [] /\ str "k1" <> str "k9"
  /\ quiet (SelectUserByKey (str "k9")) = false
  /\ auth quiet (Some (str "k1")) (rotate quiet (str "k9") (str "u1") two_users).1
     = Denied 401 (str "invalid api key").
Proof.
  assert (consistent two_users) as Hc
      by apply (run_consistent (H := reference_engine)), empty_consistent.
  assert (auth quiet (Some (str "k1")) two_users = Granted (str "u1") (str "ann")) as Ha
      by (vm_compute; reflexivity).
  assert (rotate quiet (str "k9") (str "u1") two_users
          = ((rotate quiet (str "k9") (str "u1") two_users).1, Rotated (str "k9"))) as Hr
      by (vm_compute; reflexivity).
  assert (str "k9" <> []) as Hk by (vm_compute; discriminate).
  assert (str "k1" <> str "k9") as Hne by (vm_compute; discriminate).
  refine (conj Hc (conj Ha (conj Hr (conj Hk (conj Hne (conj eq_refl _)))))).
  exact (proj1 (proj2 (proj2
           (rotated_key_replaces_the_old (H := reference_engine) quiet (str "k9") (str "k1")
              (str "u1") (str "ann") two_users _ _ Hc Ha Hr Hk Hne eq_refl)))).
Defined.


End ServerClaims.

(* ===================================================================== *)
(** * Facts about the client of the storage API *)
(* ===================================================================== *)

Module ClientFacts.
Import BackendFacts LedgerFacts ServerFacts Client ClientExamples.

Section Facts.
Context `{JsEngine}.

Lemma fetch_traffic (n : Net) (r : Route) (w : Site) :
  traffic (fetch n r w).1 = traffic w ++ [r] /\ storage (fetch n r w).1 = storage w.
Proof. by destruct n as [| | |[]]. Qed.

Lemma fetch_rejected (n : Net) (r : Route) (w w' : Site) (m : jsstring) :
  fetch n r w = (w', Rejected m) -> throws n m.
Proof.
  destruct n as [|e|e|[e|] m']; simpl; try done.
  - by destruct (status_of _).
  - intros [= _ ->]. by eexists.
  - intros [= _ ->]. by eexists.
Qed.

Lemma signed_up_traffic (w : Site) (r : Response) :
  traffic (signed_up w r).1 = traffic w.
Proof. unfold signed_up. by destruct (is_ok r). Qed.

Lemma signed_up_rejected (w : Site) (r : Response) (m : jsstring) (w' : Site) :
  signed_up w r = (w', Rejected m) -> m = str "register_failed" /\ w' = w.
Proof. unfold signed_up. destruct (is_ok r); [done|]. by intros [= <- <-]. Qed.

(** [ensureApiKeyInteractive] sends registrations only, two at most, and
    one at least when no key is stored. *)
Lemma ensure_traffic (a : Asked) (w : Site) :
  exists regs, traffic (ensureApiKeyInteractive a w).1 = traffic w ++ regs
               /\ length regs <= 2
               /\ Forall is_registration regs
               /\ (getKey (storage w) = [] -> regs <> []).
Proof.
  assert (forall name, is_registration (register_request name)) as Hreg by by eexists.
  unfold ensureApiKeyInteractive.
  destruct (getKey (storage w)) as [|k0 k] eqn:Hk.
  2: { exists []. rewrite app_nil_r. split; [done|]. split; [simpl; lia|]. by split. }
  set (name := or_else _ _).
  pose proof (fetch_traffic (first_try a) (register_request name) w) as [Ht1 _].
  destruct (fetch (first_try a) (register_request name) w) as [w1 [r1|m1|]] eqn:E1;
    simpl in Ht1.
  2, 3: (exists [register_request name]; simpl; split; [done|]; split; [lia|];
         split; [by repeat constructor | done]).
  case_bool_decide as E409.
  - set (name2 := or_else _ _).
    pose proof (fetch_traffic (second_try a) (register_request name2) w1) as [Ht2 _].
    exists [register_request name; register_request name2].
    assert (traffic (fetch (second_try a) (register_request name2) w1).1
            = traffic w ++ [register_request name; register_request name2]) as Hall
        by (rewrite Ht2, Ht1, <- app_assoc; done).
    split; [|split; [simpl; lia | split; [by repeat constructor | done]]].
    destruct (fetch (second_try a) (register_request name2) w1) as [w2 [r2|m2|]];
      simpl in Hall |- *; [by rewrite signed_up_traffic | done | done].
  - exists [register_request name]. rewrite signed_up_traffic, Ht1.
    split; [done|]. split; [simpl; lia|]. split; [by repeat constructor | done].
Qed.

(** When it throws, the store of the browser is as it was, and the
    error is [register_failed] or what a [fetch] of a registration has
    thrown. *)
Lemma ensure_rejected (a : Asked) (w w' : Site) (m : jsstring) :
  ensureApiKeyInteractive a w = (w', Rejected m) ->
  storage w' = storage w
  /\ (m = str "register_failed" \/ throws (first_try a) m \/ throws (second_try a) m).
Proof.
  unfold ensureApiKeyInteractive.
  destruct (getKey (storage w)) as [|k0 k]; [|done].
  set (name := or_else _ _).
  pose proof (fetch_traffic (first_try a) (register_request name) w) as [_ Hs1].
  destruct (fetch (first_try a) (register_request name) w) as [w1 [r1|m1|]] eqn:E1;
    [| |done].
  2: { intros [= <- <-]. split; [done|]. right. left.
       by apply (fetch_rejected _ _ _ _ _ E1). }
  simpl in Hs1. case_bool_decide as E409.
  - set (name2 := or_else _ _).
    pose proof (fetch_traffic (second_try a) (register_request name2) w1) as [_ Hs2].
    destruct (fetch (second_try a) (register_request name2) w1) as [w2 [r2|m2|]] eqn:E2;
      [| |done].
    + simpl in Hs2. intros Hr. apply signed_up_rejected in Hr as [-> ->].
      split; [congruence | by left].
    + simpl in Hs2. intros [= <- <-]. split; [congruence|]. right. right.
      by apply (fetch_rejected _ _ _ _ _ E2).
  - intros Hr. apply signed_up_rejected in Hr as [-> ->]. split; [done | by left].
Qed.

(** The key of an accepted registration opens the account. *)
Lemma register_opens (f f' : Faults) (id key ts : jsstring) (name : option json)
      (st st' : Store) (id' n key' : jsstring) :
  register f id key ts name st = (st', Registered id' n key') ->
  id' = id /\ key' = key
  /\ (id ∉ user_ids st) /\ (key ∉ map usr_api_key (users_table st))
  /\ chat_db st' = chat_db st /\ drafts_table st' = drafts_table st
  /\ (key <> [] -> f' (SelectUserByKey key) = false ->
      auth f' (Some key) st' = Granted id n)
  /\ (forall k, k <> key -> auth f' (Some k) st' = auth f' (Some k) st).
Proof.
  unfold register. destruct (slice _ 0 _) as [|c0 n0] eqn:En; [done|].
  destruct (f (InsertUser _)); [done|].
  destruct (user_keys_free st _) eqn:Hfree; [|done].
  intros [= <- <- <- <-].
  assert ((id ∉ user_ids st) /\ (key ∉ map usr_api_key (users_table st))) as [Hid Hnew].
  { unfold user_keys_free in Hfree. simpl in Hfree.
    split; apply forallb_fresh; rewrite forallb_forall in Hfree |- *; intros u Hu;
      by apply Hfree, andb_true_iff in Hu as [Hu1 Hu2]. }
  repeat split; try done.
  - intros Hkey Hf. unfold auth. destruct key as [|c k]; [done|]. rewrite Hf.
    unfold select_user_by_key. simpl. rewrite filter_app, filter_cons, filter_nil.
    rewrite decide_True by done. rewrite filter_none; [done|].
    intros u Hu Hk. destruct Hnew. rewrite <- Hk. apply list_elem_of_fmap. by exists u.
  - intros k Hk. unfold auth, select_user_by_key. simpl.
    rewrite filter_app, filter_cons, filter_nil, decide_False by done.
    by rewrite app_nil_r.
Qed.

(** The three requests about a chat, for a chat that is not the
    caller's. *)
Lemma not_found (e : Env) (user name chat : jsstring) (c : Call) (st : Store) :
  about c = Some chat ->
  match c with PostMessages _ _ _ => False | _ => True end ->
  select_chat (chat_db st) chat user = [] ->
  (forall q, faults e q = false) -> (forall q, oracle e q = false) ->
  (handle e user name c st).1 = st
  /\ status_of (handle e user name c st).2 = Some 404%Z.
Proof.
  intros Habout Hc Hnone Hf Ho.
  destruct c as [| | | |id'|id' ? ?|id'|id' rl ct| | |]; try done;
    injection Habout as ->; simpl.
  - unfold get_chat. by rewrite Ho, Hnone.
  - unfold put_chat. by rewrite Hf, Hnone.
  - unfold delete_chat. by rewrite Hf, Hnone.
Qed.

(** What a call with a key is, for the server. *)
Lemma authed_answered (e : Env) (c : Call) (w : Site) (user name : jsstring) :
  auth (faults e) (Some (getKey (storage w))) (server w) = Granted user name ->
  authed (Answered e) c w
  = ({| storage := storage w; server := (handle e user name c (server w)).1;
        traffic := traffic w ++ [WithKey (Some (getKey (storage w))) c] |},
     match status_of (handle e user name c (server w)).2 with
     | Some _ => Fulfilled (handle e user name c (server w)).2
     | None => Unsettled
     end).
Proof. intros Ha. unfold authed, fetch, serve, guarded. by rewrite Ha. Qed.

(** The second half of [fetchWithAuth], when the registration is
    accepted at once. *)
Lemma renewed (c : Call) (v : Visit) (e1 e2 : Env) (st0 : Store) (tr : list Route)
      (st1 : Store) (id n key : jsstring) :
  first_try (asked v) = Answered e1 -> second v = Answered e2 ->
  serve e1 (register_request (or_else (display_name (asked v)) (str "User"))) st0
  = (st1, Registered id n key) ->
  key <> [] -> faults e2 (SelectUserByKey key) = false ->
  match ensureApiKeyInteractive (asked v)
          {| storage := clearAuth; server := st0; traffic := tr |} with
  | (w3, Fulfilled _) => fetchWithAuth_again (second v) c w3
  | (w3, Rejected m) => (w3, Rejected m)
  | (w3, Unsettled) => (w3, Unsettled)
  end
  = ({| storage := credentials id n key;
        server := (handle e2 id n c st1).1;
        traffic := tr
                   ++ [register_request (or_else (display_name (asked v)) (str "User"));
                       WithKey (Some key) c] |},
     match status_of (handle e2 id n c st1).2 with
     | Some _ => Fulfilled (handle e2 id n c st1).2
     | None => Unsettled
     end).
Proof.
  intros H1 H2 Hreg Hkey Hf.
  unfold ensureApiKeyInteractive.
  cbn [storage clearAuth no_items getKey or_else ls_chat_api_key ls_chat_user_name
       server traffic].
  rewrite H1. unfold fetch at 1.
  cbn [storage server traffic]. rewrite Hreg. cbn [fst snd status_of].
  rewrite bool_decide_eq_false_2 by done.
  unfold signed_up, is_ok.
  cbn [status_of Z.leb Z.compare Pos.compare Pos.compare_cont andb server traffic].
  unfold fetchWithAuth_again. rewrite H2.
  change (setAuth (Registered id n key)) with (credentials id n key).
  assert (getKey (credentials id n key) = key) as Hget
      by (unfold getKey; simpl; by destruct key).
  unfold register_request, serve in Hreg.
  destruct (register_opens _ (faults e2) _ _ _ _ _ _ _ _ _ Hreg)
    as (Eid & Ekey & _ & _ & _ & _ & Hopen & _).
  rewrite <- Eid, <- Ekey in Hopen.
  rewrite (authed_answered e2 c _ id n);
    cbn [storage server traffic]; rewrite ?Hget; [|by apply Hopen].
  by rewrite <- app_assoc.
Qed.

End Facts.
End ClientFacts.

Module ClientClaims.
Import BackendFacts LedgerFacts ServerFacts Client ClientExamples ClientFacts.

(** X16. A request that is answered 401, 403 or 404 is sent once more,
    and then for a new user: when the registration in between is
    accepted, the store of the browser holds the new credentials, the
    second request carries the new key, and its answer, which is what the
    call returns, is what the server makes of the request for the new
    user. *)
Theorem retry_is_served_as_the_new_user `{JsEngine} (c : Call) (v : Visit)
        (e0 e1 e2 : Env) (w : Site) (st0 st1 : Store) (r0 : Response)
        (id n key : jsstring) :
  first v = Answered e0 -> first_try (asked v) = Answered e1 -> second v = Answered e2 ->
  serve e0 (WithKey (Some (getKey (storage w))) c) (server w) = (st0, r0) ->
  retried r0 = true ->
  serve e1 (register_request (or_else (display_name (asked v)) (str "User"))) st0
  = (st1, Registered id n key) ->
  key <> [] -> faults e2 (SelectUserByKey key) = false ->
  fetchWithAuth c v w
  = ({| storage := credentials id n key;
        server := (handle e2 id n c st1).1;
        traffic := traffic w
                   ++ [WithKey (Some (getKey (storage w))) c;
                       register_request (or_else (display_name (asked v)) (str "User"));
                       WithKey (Some key) c] |},
     match status_of (handle e2 id n c st1).2 with
     | Some _ => Fulfilled (handle e2 id n c st1).2
     | None => Unsettled
     end).
Proof.
  intros H0 H1 H2 Hfirst Hretry Hreg Hkey Hf.
  unfold fetchWithAuth, authed. rewrite H0. unfold fetch at 1. rewrite Hfirst. simpl.
  assert (exists s, status_of r0 = Some s) as [s Hs]
      by (unfold retried in Hretry; destruct (status_of r0); [by eexists | done]).
  rewrite Hs, Hretry. cbn [server traffic fst snd].
  rewrite (renewed c v e1 e2 st0 _ st1 id n key H1 H2 Hreg Hkey Hf).
  by rewrite <- app_assoc.
Qed.

Lemma retry_is_served_as_the_new_user_witness :
  retried (Failed 401 (str "missing api key")) = true
  /\ str "k3" <> []
  /\ (fetchWithAuth (H := reference_engine) (PostChats None None None) (typing "cy")
        newcomer).2 = Fulfilled (Created (str "c3"))
  /\ storage (fetchWithAuth (H := reference_engine) (PostChats None None None)
                (typing "cy") newcomer).1
     = credentials (str "u3") (str "cy") (str "k3").
Proof.
  assert (str "k3" <> []) as Hk by (vm_compute; discriminate).
  assert (serve (H := reference_engine) (met "" "" "t7")
            (WithKey (Some (getKey (storage newcomer))) (PostChats None None None))
            (server newcomer)
          = (two_users, Failed 401 (str "missing api key"))) as Hfirst
      by (vm_compute; reflexivity).
  assert (serve (H := reference_engine) (met "u3" "k3" "t8")
            (register_request (or_else (display_name (asked (typing "cy"))) (str "User")))
            two_users
          = ((serve (H := reference_engine) (met "u3" "k3" "t8")
                (register_request (str "cy")) two_users).1,
             Registered (str "u3") (str "cy") (str "k3"))) as Hreg
      by (vm_compute; reflexivity).
  pose proof (retry_is_served_as_the_new_user (H := reference_engine)
                (PostChats None None None) (typing "cy")
                (met "" "" "t7") (met "u3" "k3" "t8") (met "c3" "" "t9") newcomer
                two_users _ _ (str "u3") (str "cy") (str "k3")
                eq_refl eq_refl eq_refl Hfirst eq_refl Hreg Hk eq_refl) as Hrun.
  split; [done|]. split; [exact Hk|].
  rewrite Hrun. split; vm_compute; reflexivity.
Defined.

(** X17. Asking for a chat that is not there costs the account. A
    visitor with a valid key who reads, changes or deletes a chat that is
    not theirs (one that was deleted elsewhere, say) is answered 404,
    which makes the client drop the key and register anew. When that
    registration is accepted, the call is answered 404 again; the browser
    then holds the key of a new user who has no chats; and the old
    account, with its chats, is in the tables as before, its key no longer
    in the browser. *)
Theorem missing_chat_costs_the_account `{JsEngine} (c : Call) (chat : jsstring)
        (v : Visit) (e0 e1 e2 : Env) (w : Site) (key0 user uname : jsstring)
        (st1 : Store) (id n key : jsstring) :
  consistent (server w) ->
  ls_chat_api_key (storage w) = Some key0 ->
  auth (faults e0) (Some key0) (server w) = Granted user uname ->
  about c = Some chat ->
  match c with PostMessages _ _ _ => False | _ => True end ->
  select_chat (chat_db (server w)) chat user = [] ->
  first v = Answered e0 -> first_try (asked v) = Answered e1 -> second v = Answered e2 ->
  (forall q, faults e0 q = false) -> (forall q, oracle e0 q = false) ->
  (forall q, faults e2 q = false) -> (forall q, oracle e2 q = false) ->
  serve e1 (register_request (or_else (display_name (asked v)) (str "User"))) (server w)
  = (st1, Registered id n key) ->
  key <> [] ->
  exists r,
    fetchWithAuth c v w
    = ({| storage := credentials id n key; server := st1;
          traffic := traffic w
                     ++ [WithKey (Some key0) c;
                         register_request (or_else (display_name (asked v)) (str "User"));
                         WithKey (Some key) c] |},
       Fulfilled r)
    /\ status_of r = Some 404%Z
    /\ key <> key0
    /\ auth (faults e0) (Some key0) st1 = Granted user uname
    /\ chats_of (chat_db st1) id = []
    /\ chat_db st1 = chat_db (server w).
Proof.
  intros Hc Hstored Hauth Habout Hnot Hnone H0 H1 H2 Hf0 Ho0 Hf2 Ho2 Hreg Hkey.
  pose proof (auth_holder _ _ _ _ _ Hauth) as (Hkey0 & _ & u & Hu & Hku & Hidu & Hnu).
  assert (getKey (storage w) = key0) as Hget
      by (unfold getKey; rewrite Hstored; by destruct key0).
  destruct (register_opens _ (faults e2) _ _ _ _ _ _ _ _ _ Hreg)
    as (-> & -> & Hid & Hnew & Hdb & _ & Hopen & _).
  destruct (register_opens _ (faults e0) _ _ _ _ _ _ _ _ _ Hreg)
    as (_ & _ & _ & _ & _ & _ & _ & Hothers).
  assert (fresh_key e1 <> key0) as Hne.
  { intros E. destruct Hnew. rewrite E, <- Hku. apply list_elem_of_fmap. by exists u. }
  assert (chats_of (chat_db st1) (fresh_id e1) = []) as Hnochats.
  { rewrite Hdb. unfold chats_of. apply filter_none. intros ch Hch Hown.
    destruct Hid. rewrite <- Hown. by apply (chats_owned _ Hc). }
  assert (select_chat (chat_db st1) chat (fresh_id e1) = []) as Hnone1.
  { unfold select_chat. rewrite Hdb, filter_none; [done|]. intros ch Hch [_ Hown].
    destruct Hid. rewrite <- Hown. by apply (chats_owned _ Hc). }
  destruct (not_found e0 user uname chat c (server w) Habout Hnot Hnone Hf0 Ho0)
    as [Hst0 Hs0].
  destruct (not_found e2 (fresh_id e1) n chat c st1 Habout Hnot Hnone1 Hf2 Ho2)
    as [Hst2 Hs2].
  exists (handle e2 (fresh_id e1) n c st1).2.
  split; [|by rewrite Hothers].
  unfold fetchWithAuth. rewrite H0, (authed_answered e0 c w user uname) by by rewrite Hget.
  rewrite Hst0, Hs0. unfold retried. rewrite Hs0.
  cbn [Z.eqb orb server traffic].
  rewrite (renewed c v e1 e2 (server w) _ st1 (fresh_id e1) n (fresh_key e1) H1 H2 Hreg
             Hkey (Hf2 _)).
  rewrite Hst2, Hs2, Hget. by rewrite <- app_assoc.
Qed.

Lemma missing_chat_costs_the_account_witness :
  consistent (server ann_at_home)
  /\ auth quiet (Some (str "k1")) two_users = Granted (str "u1") (str "ann")
  /\ select_chat (chat_db two_users) (str "c2") (str "u1") = []
  /\ str "k3" <> []
  /\ getChat (H := reference_engine) (typing "ann") (str "c2") ann_at_home
     = ({| storage := credentials (str "u3") (str "ann") (str "k3");
           server := (serve (H := reference_engine) (met "u3" "k3" "t8")
                        (register_request (str "ann")) two_users).1;
           traffic := [WithKey (Some (str "k1")) (GetChat (str "c2"));
                       register_request (str "ann");
                       WithKey (Some (str "k3")) (GetChat (str "c2"))] |},
        Rejected (str "getChat failed")).
Proof.
  assert (consistent (server ann_at_home)) as Hc
      by apply (run_consistent (H := reference_engine)), empty_consistent.
  assert (str "k3" <> []) as Hk by (vm_compute; discriminate).
  assert (auth quiet (Some (str "k1")) two_users = Granted (str "u1") (str "ann")) as Ha
      by (vm_compute; reflexivity).
  assert (select_chat (chat_db two_users) (str "c2") (str "u1") = []) as Hn
      by (vm_compute; reflexivity).
  assert (serve (H := reference_engine) (met "u3" "k3" "t8")
            (register_request (or_else (display_name (asked (typing "ann"))) (str "User")))
            (server ann_at_home)
          = ((serve (H := reference_engine) (met "u3" "k3" "t8")
                (register_request (str "ann")) two_users).1,
             Registered (str "u3") (str "ann") (str "k3"))) as Hreg
      by (vm_compute; reflexivity).
  destruct (missing_chat_costs_the_account (H := reference_engine)
              (GetChat (str "c2")) (str "c2") (typing "ann")
              (met "" "" "t7") (met "u3" "k3" "t8") (met "c3" "" "t9") ann_at_home
              (str "k1") (str "u1") (str "ann") _ (str "u3") (str "ann") (str "k3")
              Hc eq_refl Ha eq_refl I Hn eq_refl eq_refl eq_refl
              (fun _ => eq_refl) (fun _ => eq_refl) (fun _ => eq_refl) (fun _ => eq_refl)
              Hreg Hk) as (r & Hrun & Hs & _).
  refine (conj Hc (conj Ha (conj Hn (conj Hk _)))).
  unfold getChat. rewrite Hrun. unfold checked, is_ok. rewrite Hs.
  vm_compute. reflexivity.
Defined.

(** X18. A call of [fetchWithAuth] throws in three ways only. Its first
    [fetch] throws: the store of the browser is as it was. Or the first
    request is answered 401, 403 or 404 and the registration fails: the
    error is [register_failed], the one error that the code makes itself,
    or what a [fetch] of a registration has thrown, and then the browser
    has no credentials any more, for the answer had them removed before
    the registration was tried. Or, after such an answer, the registration
    is accepted and the [fetch] that sends the request again throws: the
    store holds what the registration gave. *)
Theorem failed_registration_leaves_no_key `{JsEngine} (c : Call) (v : Visit)
        (w w' : Site) (m : jsstring) :
  fetchWithAuth c v w = (w', Rejected m) ->
  (throws (first v) m /\ storage w' = storage w)
  \/ (exists w1 r0,
        authed (first v) c w = (w1, Fulfilled r0) /\ retried r0 = true
        /\ ((storage w' = no_items
             /\ (m = str "register_failed"
                 \/ throws (first_try (asked v)) m \/ throws (second_try (asked v)) m))
            \/ (throws (second v) m
                /\ exists r, is_ok r = true /\ storage w' = setAuth r))).
Proof.
  unfold fetchWithAuth.
  pose proof (fetch_traffic (first v) (WithKey (Some (getKey (storage w))) c) w)
    as [_ Hs1].
  unfold authed at 1 2.
  destruct (fetch (first v) _ w) as [w1 [r|m1|]] eqn:E1; simpl in Hs1; [| |done].
  2: { intros [= <- <-]. left. split; [|exact Hs1].
       by apply (fetch_rejected _ _ _ _ _ E1). }
  destruct (retried r) eqn:Er; [|done].
  intros Hrun. right. exists w1, r. split; [done|]. split; [done|]. revert Hrun.
  destruct (ensureApiKeyInteractive _ _) as [w3 [k|m'|]] eqn:E; [| |done].
  - unfold fetchWithAuth_again. intros E2. right.
    pose proof (fetch_traffic (second v) (WithKey (Some (getKey (storage w3))) c) w3)
      as [_ Hs3].
    unfold authed in E2. rewrite E2 in Hs3. simpl in Hs3.
    split; [by apply (fetch_rejected _ _ _ _ _ E2)|].
    rewrite Hs3. clear E2 Hs3.
    unfold ensureApiKeyInteractive in E. simpl in E.
    destruct (fetch (first_try (asked v)) _ _) as [w4 [r4|m4|]]; [| done | done].
    assert (forall w5 r5, signed_up w5 r5 = (w3, Fulfilled k) ->
                          exists r0, is_ok r0 = true /\ storage w3 = setAuth r0) as Hup.
    { intros w5 r5. unfold signed_up. destruct (is_ok r5) eqn:Eok; [|done].
      intros [= <- _]. by exists r5. }
    case_bool_decide; [|by apply (Hup _ _ E)].
    destruct (fetch (second_try (asked v)) _ _) as [w6 [r6|m6|]]; [| done | done].
    by apply (Hup _ _ E).
  - intros [= <- <-]. left. by apply ensure_rejected in E as [-> Hm].
Qed.

Lemma failed_registration_leaves_no_key_witness :
  fetchWithAuth (H := reference_engine) (GetChat (str "c2")) (typing "  ") ann_at_home
  = ((fetchWithAuth (H := reference_engine) (GetChat (str "c2")) (typing "  ")
        ann_at_home).1, Rejected (str "register_failed"))
  /\ storage ann_at_home = credentials (str "u1") (str "ann") (str "k1")
  /\ storage (fetchWithAuth (H := reference_engine) (GetChat (str "c2")) (typing "  ")
                ann_at_home).1 = no_items
  /\ fetchWithAuth (H := reference_engine) (GetChat (str "c2")) offline ann_at_home
     = ({| storage := storage ann_at_home; server := server ann_at_home;
           traffic := [WithKey (Some (str "k1")) (GetChat (str "c2"))] |},
        Rejected (str "Failed to fetch")).
Proof.
  assert (fetchWithAuth (H := reference_engine) (GetChat (str "c2")) (typing "  ")
            ann_at_home
          = ((fetchWithAuth (H := reference_engine) (GetChat (str "c2")) (typing "  ")
                ann_at_home).1, Rejected (str "register_failed"))) as Hrun
      by (vm_compute; reflexivity).
  split; [exact Hrun|]. split; [reflexivity|].
  split; [|vm_compute; reflexivity].
  destruct (failed_registration_leaves_no_key (H := reference_engine) _ _ _ _ _ Hrun)
    as [[[h Hh] _] | (w1 & r0 & _ & _ & [[Hs _] | [[h Hh] _]])];
    [discriminate Hh | exact Hs | discriminate Hh].
Defined.

(** X19. A call of [fetchWithAuth] sends its request, with the stored
    key, and then at most two registrations followed by at most one more
    sending of the request: there is one retry at most, whatever the
    answers. When it registers nothing, it has sent the request once and
    the store of the browser is as it was. *)
Theorem at_most_one_retry `{JsEngine} (c : Call) (v : Visit) (w : Site) :
  exists regs rest,
    traffic (fetchWithAuth c v w).1
    = traffic w ++ [WithKey (Some (getKey (storage w))) c] ++ regs ++ rest
    /\ length regs <= 2
    /\ Forall is_registration regs
    /\ (rest = [] \/ exists key, rest = [WithKey (Some key) c])
    /\ (regs = [] -> rest = [] /\ storage (fetchWithAuth c v w).1 = storage w).
Proof.
  unfold fetchWithAuth, authed.
  pose proof (fetch_traffic (first v) (WithKey (Some (getKey (storage w))) c) w)
    as [Ht1 Hs1].
  destruct (fetch (first v) _ w) as [w1 [r|m1|]]; simpl in Ht1, Hs1.
  2, 3: (exists [], []; simpl; rewrite Ht1;
         split; [done|]; split; [lia|]; split; [done|]; split; [by left | done]).
  destruct (retried r).
  2: { exists [], []. simpl. rewrite Ht1.
       split; [done|]. split; [lia|]. split; [done|]. split; [by left | done]. }
  destruct (ensure_traffic (asked v)
              {| storage := clearAuth; server := server w1; traffic := traffic w1 |})
    as (regs & Ht & Hlen & Hregs & Hsome).
  specialize (Hsome eq_refl).
  destruct (ensureApiKeyInteractive _ _) as [w3 [k|m'|]]; simpl in Ht.
  - unfold fetchWithAuth_again, authed.
    pose proof (fetch_traffic (second v) (WithKey (Some (getKey (storage w3))) c) w3)
      as [Ht3 _].
    exists regs, [WithKey (Some (getKey (storage w3))) c].
    assert (traffic (fetch (second v) (WithKey (Some (getKey (storage w3))) c) w3).1
            = traffic w ++ [WithKey (Some (getKey (storage w))) c] ++ regs
              ++ [WithKey (Some (getKey (storage w3))) c]) as Hall
        by (rewrite Ht3, Ht, Ht1, <- !app_assoc; done).
    by split; [|split; [done|split; [done|split; [right; by eexists | done]]]].
  - exists regs, []. simpl. rewrite Ht, Ht1, app_nil_r, <- app_assoc.
    split; [done|]. split; [done|]. split; [done|]. split; [by left | done].
  - exists regs, []. simpl. rewrite Ht, Ht1, app_nil_r, <- app_assoc.
    split; [done|]. split; [done|]. split; [done|]. split; [by left | done].
Qed.

End ClientClaims.

(* ===================================================================== *)
(** * Facts about the history *)
(* ===================================================================== *)

Module HistoryFacts.
Import BackendFacts LedgerFacts ServerFacts.

Section Facts.
Context `{JsEngine}.

(** What a listing says about the tables. *)
Lemma listing_rows (st : Store) (user chat : jsstring) (meta : ChatRow)
      (rows : list MessageRow) :
  consistent st ->
  get_chat no_faults user chat (chat_db st) = Listing meta rows ->
  select_chat (chat_db st) chat user = [meta]
  /\ chat_id meta = chat /\ chat_user_id meta = user
  /\ rows = messages_of (chat_db st) chat.
Proof.
  intros Hc. unfold get_chat. simpl.
  destruct (select_chat (chat_db st) chat user) as [|c cs] eqn:Es; [done|].
  intros [= <- <-].
  assert (c ∈ select_chat (chat_db st) chat user) as Hin by (rewrite Es; left).
  unfold select_chat in Hin. apply elem_of_take in Hin as (i & Hi & _).
  apply list_elem_of_lookup_2, list_elem_of_filter in Hi as [[Hid Hu] _].
  assert (cs = []) as ->.
  { assert (length (select_chat (chat_db st) chat user) <= 1) as Hlen
        by (unfold select_chat; rewrite length_take; lia).
    rewrite Es in Hlen. destruct cs; [done | simpl in Hlen; lia]. }
  repeat split; try done. rewrite Hid.
  apply (order_by_idx_sorted _ 0 (length (messages_of (chat_db st) chat))).
  apply (messages_placed _ Hc).
Qed.

(** The chat of a listing after its [updated_at] is set. *)
Lemma select_touched (db : DB) (chat user ts : jsstring) (meta : ChatRow) :
  select_chat db chat user = [meta] ->
  select_chat (update_chat_timestamp db chat ts) chat user = [touch ts meta].
Proof.
  unfold select_chat, update_chat_timestamp. simpl.
  set (g := fun c => if bool_decide (chat_id c = chat) then touch ts c else c).
  assert (forall l, filter (fun c => chat_id c = chat /\ chat_user_id c = user) (map g l)
                    = map g (filter (fun c => chat_id c = chat /\ chat_user_id c = user) l))
    as Hcomm.
  { induction l as [|c l IH]; [done|]. simpl. rewrite !filter_cons, IH.
    assert (chat_id (g c) = chat_id c /\ chat_user_id (g c) = chat_user_id c) as [-> ->]
        by (unfold g; by case_bool_decide).
    by destruct (decide _). }
  rewrite Hcomm. intros Hsel.
  destruct (filter _ (chats_table db)) as [|c cs] eqn:E; [done|].
  assert (c ∈ filter (fun c => chat_id c = chat /\ chat_user_id c = user) (chats_table db))
    as Hin by (rewrite E; left).
  apply list_elem_of_filter in Hin as [[Hid _] _].
  simpl in *. injection Hsel as ->. unfold g. by rewrite bool_decide_eq_true_2.
Qed.

(** An append that nothing hinders, and the listing after it. *)
Lemma append_listed (e : Env) (user name chat : jsstring) (r : json) (text : jsstring)
      (st : Store) (meta : ChatRow) (rows : list MessageRow) :
  consistent st ->
  get_chat no_faults user chat (chat_db st) = Listing meta rows ->
  truthy r = true ->
  oracle e = no_faults ->
  fresh_id e ∉ map msg_id (messages_table (chat_db st)) ->
  let row := {| msg_id := fresh_id e; msg_chat_id := chat; msg_role := to_string r;
                msg_content := text; msg_idx := Z.of_nat (length rows);
                msg_created_at := env_now e |} in
  let out := handle e user name (PostMessages chat (Some r) (Some (JStr text))) st in
  out.2 = Append (Some (Appended (fresh_id e) (Z.of_nat (length rows)) (env_now e)))
  /\ consistent out.1
  /\ messages_table (chat_db out.1) = messages_table (chat_db st) ++ [row]
  /\ get_chat no_faults user chat (chat_db out.1)
     = Listing (touch (env_now e) meta) (rows ++ [row]).
Proof.
  intros Hc Hlist Hr Ho Hfresh row out.
  destruct (listing_rows st user chat meta rows Hc Hlist) as (Hsel & Hid & Hu & ->).
  assert (Forall (fun m => msg_id m <> fresh_id e) (messages_table (chat_db st))) as Hids.
  { apply Forall_forall. intros m Hm E. destruct Hfresh. rewrite <- E.
    apply list_elem_of_fmap. by exists m. }
  assert (select_max_idx (chat_db st) chat + 1
          = Z.of_nat (length (messages_of (chat_db st) chat)))%Z as Hnext.
  { unfold select_max_idx.
    rewrite (max_idx_seq _ (length (messages_of (chat_db st) chat))); [lia|].
    apply (messages_placed _ Hc). }
  assert (post_message no_faults (fresh_id e) (env_now e) user chat (Some r)
            (Some (JStr text)) (chat_db st)
          = ({| committed := update_chat_timestamp
                               {| chats_table := chats_table (chat_db st);
                                  messages_table := messages_table (chat_db st) ++ [row] |}
                               chat (env_now e);
                working := update_chat_timestamp
                             {| chats_table := chats_table (chat_db st);
                                messages_table := messages_table (chat_db st) ++ [row] |}
                             chat (env_now e);
                sent := [ BeginTransaction; SelectChat chat user; SelectMaxIdxForUpdate chat;
                          InsertMessage row; UpdateChatTimestamp chat (env_now e); Commit;
                          Release ] |},
             Some (Appended (fresh_id e) (Z.of_nat (length (messages_of (chat_db st) chat)))
                     (env_now e)))) as Hpost.
  { unfold post_message. rewrite Hr. simpl.
    unfold append_transaction, mbind, M_bind, beginTransaction, query_chat, statement.
    simpl. rewrite Hsel.
    unfold mbind, M_bind, query_max_for_update, query_insert, statement. simpl.
    unfold insert_message, key_free. simpl.
    rewrite (next_idx_free (chat_db st) (fresh_id e) (env_now e) chat (to_string r) text
               Hids).
    rewrite (select_chat_exists (chat_db st) chat user) by (by rewrite Hsel).
    simpl. subst row. by rewrite Hnext. }
  assert (user ∈ user_ids st) as Huser.
  { rewrite <- Hu. apply (chats_owned _ Hc).
    assert (meta ∈ select_chat (chat_db st) chat user) as Hin by (rewrite Hsel; left).
    unfold select_chat in Hin. apply elem_of_take in Hin as (i & Hi & _).
    by apply list_elem_of_lookup_2, list_elem_of_filter in Hi as [_ Hi]. }
  pose proof (handle_consistent e user name
                (PostMessages chat (Some r) (Some (JStr text))) st Huser Hc) as Hc'.
  subst out. cbn [handle] in Hc' |- *. rewrite Ho, Hpost in Hc'. rewrite Ho, Hpost.
  cbn [fst snd committed with_db chat_db] in Hc' |- *.
  split; [done|]. split; [done|]. split; [done|].
  unfold get_chat. cbn [no_faults].
  rewrite (select_touched _ chat user (env_now e) meta) by done.
  cbn [touch chat_id]. rewrite Hid.
  pose proof (messages_of_commit (chat_db st) row chat (env_now e) chat) as Hm.
  rewrite bool_decide_eq_true_2 in Hm by done.
  pose proof (messages_placed _ Hc' chat) as Hp.
  change (chat_db (with_db ?d st)) with d in Hp.
  rewrite Hm in Hp |- *. f_equal.
  by apply (order_by_idx_sorted _ 0 (length (messages_of (chat_db st) chat ++ [row]))).
Qed.

End Facts.
End HistoryFacts.

Module HistoryClaims.
Import BackendFacts LedgerFacts ServerFacts HistoryFacts.

(** X20. A turn that was kept is shown again when the chat is loaded. When
    nothing hinders the two appends of a turn, to a chat of the caller
    that lists [rows] before, the chat then lists the same messages
    followed by the two new ones, at the positions that follow, and
    [loadChat] shows them last, in this order: the user's text under [Du]
    and the answer under [Assistent], both unchanged. *)
Theorem kept_turn_is_shown_again `{JsEngine} (e1 e2 : Env) (user name chat : jsstring)
        (userTextRaw finalText : jsstring) (st : Store) (meta : ChatRow)
        (rows : list MessageRow) :
  consistent st ->
  get_chat no_faults user chat (chat_db st) = Listing meta rows ->
  oracle e1 = no_faults -> oracle e2 = no_faults ->
  fresh_id e1 ∉ map msg_id (messages_table (chat_db st)) ->
  fresh_id e2 ∉ map msg_id (messages_table (chat_db st)) ->
  fresh_id e2 <> fresh_id e1 ->
  exists rows',
    get_chat no_faults user chat
      (chat_db (keep_turn e1 e2 user name chat userTextRaw finalText st))
    = Listing (touch (env_now e2) meta) (rows ++ rows')
    /\ map msg_idx rows' = [Z.of_nat (length rows); (Z.of_nat (length rows) + 1)%Z]
    /\ map shown (rows ++ rows')
       = map shown rows ++ [ {| ui_role := Du; ui_content := userTextRaw |};
                             {| ui_role := Assistent; ui_content := finalText |} ].
Proof.
  intros Hc Hlist Ho1 Ho2 Hf1 Hf2 Hne. unfold keep_turn.
  destruct (append_listed e1 user name chat (JStr (str "user")) userTextRaw st meta rows
              Hc Hlist eq_refl Ho1 Hf1) as (_ & Hc1 & Ht1 & Hl1).
  set (st1 := (handle e1 user name _ st).1) in *.
  assert (fresh_id e2 ∉ map msg_id (messages_table (chat_db st1))) as Hf2'.
  { rewrite Ht1, map_app. intros Hin. apply elem_of_app in Hin as [Hin | Hin]; [done|].
    simpl in Hin. by apply list_elem_of_singleton in Hin. }
  destruct (append_listed e2 user name chat (JStr (str "assistant")) finalText st1 _ _
              Hc1 Hl1 eq_refl Ho2 Hf2') as (_ & _ & _ & Hl2).
  eexists [_; _]. rewrite Hl2. split.
  - f_equal. by rewrite <- app_assoc.
  - split.
    + simpl. rewrite length_app. simpl. do 2 f_equal. lia.
    + rewrite map_app. f_equal.
Qed.

Lemma kept_turn_is_shown_again_witness :
  consistent two_users
  /\ map shown (messages_of (chat_db (keep_turn (H := reference_engine)
                                        (met "m8" "" "t8") (met "m9" "" "t9")
                                        (str "u1") (str "ann") (str "c1")
                                        (str "why?") (str "because") two_users))
                  (str "c1"))
     = [ {| ui_role := Du; ui_content := str "hi" |};
         {| ui_role := Assistent; ui_content := str "hello" |};
         {| ui_role := Du; ui_content := str "why?" |};
         {| ui_role := Assistent; ui_content := str "because" |} ].
Proof.
  assert (consistent two_users) as Hc
      by apply (run_consistent (H := reference_engine)), empty_consistent.
  split; [exact Hc|].
  assert (get_chat no_faults (str "u1") (str "c1") (chat_db two_users)
          = Listing (touch (str "t4")
                       {| chat_id := str "c1"; chat_user_id := str "u1";
                          chat_title := Some (str "first"); chat_model := None;
                          chat_incognito := false; chat_created_at := str "t1";
                          chat_updated_at := str "t1" |})
                    (messages_of (chat_db two_users) (str "c1"))) as Hg
      by (vm_compute; reflexivity).
  assert (str "m8" ∉ map msg_id (messages_table (chat_db two_users))) as H8.
  { vm_compute. intros Hin. repeat (apply elem_of_cons in Hin as [[=] | Hin]).
    by apply elem_of_nil in Hin. }
  assert (str "m9" ∉ map msg_id (messages_table (chat_db two_users))) as H9.
  { vm_compute. intros Hin. repeat (apply elem_of_cons in Hin as [[=] | Hin]).
    by apply elem_of_nil in Hin. }
  assert (str "m9" <> str "m8") as Hne by (vm_compute; discriminate).
  destruct (kept_turn_is_shown_again (H := reference_engine)
              (met "m8" "" "t8") (met "m9" "" "t9") (str "u1") (str "ann") (str "c1")
              (str "why?") (str "because") two_users _ _ Hc Hg eq_refl eq_refl H8 H9 Hne)
    as (rows' & _ & _ & _).
  vm_compute. reflexivity.
Defined.

End HistoryClaims.

(* ===================================================================== *)
(** * More about the text helpers: what they leave and what they keep *)
(* ===================================================================== *)

Module TidyFacts.
Import TextFacts.

(** ** Runs of line feeds *)

Lemma short_runs_no_triple (t : jsstring) (k : nat) :
  short_runs k t = true -> forall a b, t <> a ++ [NL; NL; NL] ++ b.
Proof.
  revert k. induction t as [|c t IH]; intros k Hs a b E.
  - by destruct a.
  - destruct a as [|c' a].
    + simpl in E. injection E as -> ->. simpl in Hs.
      apply short_runs_bound in Hs. lia.
    + simpl in E. injection E as <- ->. simpl in Hs.
      destruct (c =? NL)%N.
      * by apply (IH _ Hs a b).
      * apply andb_true_iff in Hs as [_ Hs]. by apply (IH _ Hs a b).
Qed.

Lemma no_triple_short_runs (t : jsstring) (k : nat) :
  k < 3 ->
  (forall a b, repeat NL k ++ t <> a ++ [NL; NL; NL] ++ b) ->
  short_runs k t = true.
Proof.
  revert k. induction t as [|c t IH]; intros k Hk Hno; simpl.
  - by apply Nat.ltb_lt.
  - destruct (c =? NL)%N eqn:Ec.
    + apply N.eqb_eq in Ec. subst c. apply IH.
      * destruct (decide (k = 2)) as [-> | ?]; [|lia].
        by destruct (Hno [] t).
      * intros a b E. apply (Hno a b). rewrite <- E.
        change (NL :: t) with ([NL] ++ t). rewrite app_assoc. f_equal.
        change [NL] with (repeat NL 1). rewrite <- repeat_app.
        f_equal. lia.
    + apply andb_true_iff. split; [by apply Nat.ltb_lt|].
      apply IH; [lia|]. intros a b E. simpl in E.
      apply (Hno (repeat NL k ++ c :: a) b). rewrite E, <- app_assoc. done.
Qed.

(** ** What [sanitizeAssistant] cuts *)

Lemma indexOf_least (c : N) (t : jsstring) : (-1 <= indexOf c t)%Z.
Proof.
  induction t as [|d t IH]; simpl; [lia|].
  destruct (d =? c)%N; [lia|]. destruct (_ <? 0)%Z; lia.
Qed.

Lemma slice_rest (t : jsstring) (i : Z) :
  (0 <= i)%Z -> exists a, t = a ++ slice t i None.
Proof.
  intros Hi. unfold slice, clamp_index.
  replace (i <? 0)%Z with false by (symmetry; apply Z.ltb_ge; lia).
  exists (take (Z.to_nat (Z.min i (Z.of_nat (length t)))) t).
  rewrite (take_ge (drop _ t)) by (rewrite length_drop; lia).
  by rewrite take_drop.
Qed.

Lemma meta_loop_rest (n : nat) (t : jsstring) : exists a, t = a ++ meta_loop n t.
Proof.
  revert t. induction n as [|n IH]; intros t; simpl; [by exists []|].
  destruct (metaLine_test _); [|by exists []].
  destruct (slice_rest t (indexOf NL t + 1)) as [a Ha];
    [pose proof (indexOf_least NL t); lia|].
  destruct (IH (slice t (indexOf NL t + 1) None)) as [a' Ha'].
  exists (a ++ a'). rewrite <- app_assoc, <- Ha'. exact Ha.
Qed.

End TidyFacts.

Module TidyClaims.
Import TextFacts TidyFacts.

(** X21. [normalizeText] gives a normal form: its result has no carriage
    return, no three line feeds in a row and no white space at its ends,
    and it leaves exactly the texts of this kind as they are; so it is
    idempotent, for every text. *)
Theorem normalizeText_gives_a_normal_form (t : jsstring) :
  ((CR ∉ normalizeText t)
   /\ (forall a b, normalizeText t <> a ++ [NL; NL; NL] ++ b)
   /\ trim (normalizeText t) = normalizeText t)
  /\ (normalizeText t = t
      <-> (CR ∉ t) /\ (forall a b, t <> a ++ [NL; NL; NL] ++ b) /\ trim t = t)
  /\ normalizeText (normalizeText t) = normalizeText t.
Proof.
  assert ((CR ∉ normalizeText t)
          /\ (forall a b, normalizeText t <> a ++ [NL; NL; NL] ++ b)
          /\ trim (normalizeText t) = normalizeText t) as Hout.
  { split; [apply normalizeText_no_cr|]. split; [|apply normalizeText_trimmed].
    apply (short_runs_no_triple _ 0), normalizeText_short_runs. }
  split; [exact Hout|]. split; [|apply normalizeText_idem]. split.
  - intros E. by rewrite <- E.
  - intros (Hcr & Hno & Htrim). apply normalizeText_fixed; [done | | done].
    by apply no_triple_short_runs; [lia|].
Qed.

(** X22. [sanitizeAssistant] only removes: its result is one piece of the
    text it is given, with something cut off in front and at the end, and
    has no white space at its ends. When the first line of the text,
    white space aside, starts with none of the meta phrases, all that is
    cut is the white space at the two ends. *)
Theorem sanitizeAssistant_only_removes (s : jsstring) :
  (exists a b, s = a ++ sanitizeAssistant s ++ b)
  /\ trim (sanitizeAssistant s) = sanitizeAssistant s
  /\ (metaLine_test (trim (first_line (trimStart s))) = false ->
      sanitizeAssistant s = trim s).
Proof.
  unfold sanitizeAssistant. split; [|split].
  - destruct (trimStart_suffix s) as [a0 H0].
    destruct (meta_loop_rest 2 (trimStart s)) as [a1 H1].
    destruct (trim_infix (meta_loop 2 (trimStart s))) as (a2 & b & H2).
    exists (a0 ++ a1 ++ a2), b.
    rewrite <- !app_assoc, <- H2, <- H1. exact H0.
  - apply trim_idem.
  - intros Hno. simpl. rewrite Hno. apply trim_trimStart.
Qed.

End TidyClaims.

(* ===================================================================== *)
(** * Facts about pictures *)
(* ===================================================================== *)

Module SdFacts.

Lemma strip_slashes_end (t : jsstring) : forall v, strip_slashes t <> v ++ [SLASH].
Proof.
  induction t as [|c t IH]; intros v E; simpl in E; [by destruct v|].
  destruct (strip_slashes t) as [|d r] eqn:Et.
  - destruct (c =? SLASH)%N eqn:Ec; [by destruct v|].
    destruct v as [|c' [|? ?]]; try done. injection E as ->. by rewrite N.eqb_refl in Ec.
  - destruct v as [|c' v]; [done|]. injection E as _ E. by apply (IH v).
Qed.

Lemma strip_slashes_rest (t : jsstring) :
  exists v, t = strip_slashes t ++ v /\ Forall (eq SLASH) v.
Proof.
  induction t as [|c t (v & Ht & Hv)]; [by exists []|]. simpl.
  destruct (strip_slashes t) as [|d r] eqn:Et.
  - simpl in Ht. subst v. destruct (c =? SLASH)%N eqn:Ec.
    + apply N.eqb_eq in Ec. exists (c :: t). split; [done | by constructor].
    + by exists t.
  - exists v. split; [|done]. simpl in *. congruence.
Qed.

Lemma strip_slashes_fixed (t : jsstring) :
  (forall v, t <> v ++ [SLASH]) -> strip_slashes t = t.
Proof.
  induction t as [|c t IH]; intros Hno; [done|]. simpl.
  destruct t as [|d t'].
  - simpl. destruct (c =? SLASH)%N eqn:Ec; [|done].
    apply N.eqb_eq in Ec. subst c. by destruct (Hno []).
  - rewrite IH.
    + done.
    + intros v E. apply (Hno (c :: v)). by rewrite E.
Qed.

Lemma strip_slashes_idem (t : jsstring) :
  strip_slashes (strip_slashes t) = strip_slashes t.
Proof. apply strip_slashes_fixed, strip_slashes_end. Qed.

Section Calls.
Context `{JsEngine}.
Variable null_read : jsstring -> jsstring.

Lemma read_field_value (body : Body) (k : jsstring) (v : option json) :
  read_field null_read body k = Client.Fulfilled v ->
  exists j, body = Json j /\ get_prop j k = v.
Proof.
  destruct body as [m| |j]; try done. destruct j; try done; intros [= <-]; by eexists.
Qed.

Lemma read_field_truthy (j : json) (k : jsstring) :
  truthy_opt (get_prop j k) = true ->
  read_field null_read (Json j) k = Client.Fulfilled (get_prop j k).
Proof. by destruct j. Qed.

(** The probe: one request, and it is fulfilled exactly for a server
    that says it is ready. *)
Lemma pingSd_sent (base : jsstring) (w : SdWorld) (log : list SdRequest) :
  (pingSd null_read base w log).1
  = log ++ [GetStatus (strip_slashes base ++ str "/status")].
Proof.
  unfold pingSd. destruct (probe w) as [m| |status body]; try done.
  destruct (is_2xx status); [|done].
  destruct (read_field _ _ _) as [v|m|]; try done. by destruct (truthy_opt v).
Qed.

Lemma pingSd_ready (base : jsstring) (w : SdWorld) (log : list SdRequest) :
  (exists x, (pingSd null_read base w log).2 = Client.Fulfilled x)
  <-> ready_of (probe w) = true.
Proof.
  unfold pingSd, ready_of. destruct (probe w) as [m| |status body].
  - split; [by intros [? ?] | done].
  - split; [by intros [? ?] | done].
  - destruct (is_2xx status); [|split; [by intros [? ?] | by destruct body]].
    destruct (read_field _ _ _) as [v|m|] eqn:E.
    + apply read_field_value in E as (j & -> & <-). simpl.
      destruct (truthy_opt _); split; try done; [by eexists | by intros [? ?]].
    + split; [by intros [? ?]|]. destruct body as [?| |j]; try done. simpl.
      intros Hr. by rewrite (read_field_truthy _ _ Hr) in E.
    + split; [by intros [? ?]|]. destruct body as [?| |j]; try done. simpl.
      intros Hr. by rewrite (read_field_truthy _ _ Hr) in E.
Qed.

(** How [generateImage] ends, by what the two answers carry. *)
Lemma generateImage_sent (base prompt : jsstring) (w : SdWorld) (log : list SdRequest) :
  (generateImage null_read base prompt w log).1
  = log ++ GetStatus (strip_slashes base ++ str "/status")
           :: (if ready_of (probe w)
               then [PostTxt2img (strip_slashes base ++ str "/txt2img") prompt] else []).
Proof.
  unfold generateImage.
  pose proof (pingSd_sent (strip_slashes base) w log) as Hs.
  pose proof (pingSd_ready (strip_slashes base) w log) as Hr.
  rewrite strip_slashes_idem in Hs.
  destruct (pingSd _ _ _ _) as [log1 [x|m|]]; simpl in Hs, Hr; subst log1.
  - rewrite (proj1 Hr) by by eexists. rewrite <- app_assoc.
    destruct (generation w) as [m| |status body]; try done.
    destruct (is_2xx status); [|done].
    destruct (read_field _ _ _) as [v|m|]; try done. by destruct (truthy_opt v).
  - destruct (ready_of (probe w)); [|done]. by destruct (proj2 Hr eq_refl).
  - destruct (ready_of (probe w)); [|done]. by destruct (proj2 Hr eq_refl).
Qed.

Lemma generateImage_url (base prompt : jsstring) (w : SdWorld) (log : list SdRequest) :
  (generateImage null_read base prompt w log).2
  = match picture w with
    | Some image => Client.Fulfilled (str "data:image/png;base64," ++ to_string image)
    | None => (generateImage null_read base prompt w log).2
    end
  /\ (picture w = None ->
      forall url, (generateImage null_read base prompt w log).2 <> Client.Fulfilled url)
  /\ (forall image, picture w = Some image -> truthy image = true).
Proof.
  unfold generateImage, picture.
  pose proof (pingSd_ready (strip_slashes base) w log) as Hr.
  destruct (pingSd _ _ _ _) as [log1 [x|m|]]; simpl in Hr.
  2, 3: destruct (ready_of (probe w)); [by destruct (proj2 Hr eq_refl) | done].
  rewrite (proj1 Hr) by by eexists.
  destruct (generation w) as [m| |status body]; try done.
  destruct (is_2xx status); [|by destruct body]. simpl.
  destruct body as [m| |j]; try done.
  destruct (truthy_opt (get_prop j (str "image_base64"))) eqn:Ht.
  - rewrite (read_field_truthy _ _ Ht), Ht.
    destruct (get_prop j (str "image_base64")) as [image|]; [|done].
    split; [done|]. split; [done|]. by intros ? [= <-].
  - destruct (read_field _ _ _) as [v|m|] eqn:E; try done.
    apply read_field_value in E as (j' & [= <-] & <-). by rewrite Ht.
Qed.


End Calls.

End SdFacts.

Module SdClaims.
Import SdFacts.

(** X23. [generateImage] asks for a picture only of a server that has
    just said that it is ready. It sends the status probe, and the
    generation request after it only when the probe was answered ok with
    a truthy [ready]; both go to the base address without the slashes at
    its end, however many there are. When it resolves, the generation was
    answered ok with a truthy [image_base64], and the [url] is that value
    after [data:image/png;base64,]. *)
Theorem generation_is_asked_of_a_ready_server `{JsEngine} (null_read : jsstring -> jsstring)
        (base prompt : jsstring) (w : SdWorld) (log : list SdRequest) :
  let u := strip_slashes base in
  let out := generateImage null_read base prompt w log in
  (forall v, u <> v ++ [SLASH])
  /\ (exists v, base = u ++ v /\ Forall (eq SLASH) v)
  /\ (out.1 = log ++ [GetStatus (u ++ str "/status")] /\ ready_of (probe w) = false
      \/ out.1 = log ++ [GetStatus (u ++ str "/status");
                         PostTxt2img (u ++ str "/txt2img") prompt]
         /\ ready_of (probe w) = true)
  /\ (forall url, out.2 = Client.Fulfilled url ->
        exists image, picture w = Some image /\ truthy image = true
                      /\ url = str "data:image/png;base64," ++ to_string image).
Proof.
  intros u out. split; [apply strip_slashes_end|]. split; [apply strip_slashes_rest|].
  subst out u. rewrite generateImage_sent.
  destruct (generateImage_url null_read base prompt w log) as (Hurl & Hnone & Htruthy).
  split.
  - destruct (ready_of (probe w)); [by right | by left].
  - intros url E. destruct (picture w) as [image|] eqn:Hp.
    + exists image. split; [done|]. split; [by apply Htruthy|]. congruence.
    + by destruct (Hnone eq_refl url).
Qed.



End SdClaims.

(* ===================================================================== *)
(** * More about a turn: how it ends *)
(* ===================================================================== *)

Module TurnFacts.
Import DecoderFacts SessionFacts.

(** ** A call that returns has called [onDone] last *)

Section Returned.
Context `{JsEngine} {S E : Type}.
Variable onDelta : option (json -> jsstring -> S -> S).
Variable done : jsstring -> S -> S.
Variable meanwhile : E -> S -> S.
Variable signal_aborted : S -> bool.
Variable send : Payload -> S -> S.

Lemma on_lines_finished (lines : list jsstring) (s s' : S) (acc acc' : jsstring) :
  on_lines onDelta (Some done) lines s acc = Finished s' acc' ->
  exists s1, s' = done acc' s1.
Proof.
  revert s acc. induction lines as [|l ls IH]; simpl; intros s acc; [done|].
  destruct (on_line onDelta (Some done) l s acc) as [s1 a1|s1 a1|s1 e] eqn:El.
  - apply IH.
  - intros [= <- <-]. unfold on_line in El. destruct (trim l); [done|].
    destruct (JSON_parse _) as [obj|]; [|done]. unfold on_record in El.
    destruct (take_fragment onDelta obj s acc) as [s2 a2].
    destruct obj; try done; destruct (truthy_opt _); try done;
      injection El as <- <-; unfold call_done; by eexists.
  - done.
Qed.

Lemma pump_returned (items : list (ReadItem E)) (s s' : S) (acc buf acc' : jsstring) :
  pump onDelta (Some done) meanwhile signal_aborted items s acc buf = Left s' (inr acc') ->
  exists s1, s' = done acc' s1.
Proof.
  revert s acc buf. induction items as [|[text|ev] rest IH]; simpl; intros s acc buf.
  - done.
  - destruct (on_lines _ _ _ s acc) as [s1 a1|s1 a1|s1 e] eqn:El.
    + apply IH.
    + intros [= <- <-]. by apply on_lines_finished in El.
    + done.
  - destruct (signal_aborted _); [done | apply IH].
Qed.

Lemma chatWithOllama_returned (p : Payload) (net : Transport E) (s s' : S)
      (acc : jsstring) :
  chatWithOllama onDelta (Some done) meanwhile signal_aborted send p net s = (s', inr acc) ->
  exists s1, s' = done acc s1.
Proof.
  unfold chatWithOllama.
  destruct (p_model p); [done|]. destruct (p_messages p); [done|].
  destruct (response net); try done. unfold read_body.
  destruct (pump _ _ _ _ _ _ _ _) as [s1 a1 b1|s1 r] eqn:Ep.
  - destruct (ending net); [|done].
    destruct (flush_tail onDelta b1 s1 a1) as [s2 a2]. intros [= <- <-]. by eexists.
  - intros [= -> ->]. by apply pump_returned in Ep.
Qed.
End Returned.

End TurnFacts.

Module TurnClaims.
Import DecoderFacts SessionFacts TurnFacts.

(** X25. The spinner goes off at the end of every turn. Whatever the
    storage API and the streams do, a turn that was started (there is
    text or a document, and a model) ends with [loading] false: when the
    stream is read to its end, when it fails, when the user stops it,
    when the chat cannot be created. The abort controller is let go as
    well, but for the case that the chat could not be created, where it
    stays in [abortRef]. *)
Theorem started_turn_ends_idle `{JsEngine} (t : Turn) (w : World) (a : App) :
  trim (prompt a) <> [] \/ attachedDoc a = true ->
  sendModel t <> [] ->
  loading (sendChat t w a) = false
  /\ (abortRef (sendChat t w a) = None
      \/ abortRef (sendChat t w a) = Some false
         /\ incognito t = false /\ truthy_id (currentChatId a) = false
         /\ exists m, createChat w = Err m
                      /\ error (sendChat t w a)
                         = str "Chat-Erstellung fehlgeschlagen: " ++ m).
Proof.
  intros Hs Hm.
  destruct (sendChat_started t w a Hs Hm) as (a0 & -> & _ & Hab & Hid).
  assert (forall chatId a1,
             loading match main_call t w chatId (trim (prompt a)) a1 with
                     | (a2, inr _) => a2
                     | (a2, inl e) => on_rejected e a2
                     end = false
             /\ abortRef match main_call t w chatId (trim (prompt a)) a1 with
                         | (a2, inr _) => a2
                         | (a2, inl e) => on_rejected e a2
                         end = None) as Hrun.
  { intros chatId a1.
    destruct (main_call t w chatId (trim (prompt a)) a1) as [a2 [e|acc]] eqn:Ec.
    - by destruct e.
    - unfold main_call in Ec. apply chatWithOllama_returned in Ec as [s1 ->].
      unfold onDone. by destruct (keepDoc t). }
  unfold converse. rewrite <- Hid.
  destruct (incognito t); simpl.
  - destruct (Hrun (currentChatId a0) a0) as [Hl Hr]. split; [exact Hl | by left].
  - destruct (truthy_id (currentChatId a0)) eqn:Et; simpl.
    + destruct (Hrun (currentChatId a0) a0) as [Hl Hr]. split; [exact Hl | by left].
    + destruct (createChat w) as [cid|m] eqn:Ecr.
      * destruct (Hrun (Some cid) (setCurrentChatId (Some cid)
                                     (call_api (CreateChat None (sendModel t)) a0)))
          as [Hl Hr]. split; [exact Hl | by left].
      * split; [done|]. right. simpl. split; [done|]. split; [done|]. split; [done|].
        by exists m.
Qed.

Lemma started_turn_ends_idle_witness :
  (trim (prompt app_hi) <> [] \/ attachedDoc app_hi = true)
  /\ sendModel turn_m <> []
  /\ loading (sendChat (H := reference_engine) turn_m world_refused app_hi) = false.
Proof.
  assert (trim (prompt app_hi) <> [] \/ attachedDoc app_hi = true) as Hs
      by (left; vm_compute; discriminate).
  assert (sendModel turn_m <> []) as Hm by (vm_compute; discriminate).
  split; [exact Hs|]. split; [exact Hm|].
  exact (proj1 (started_turn_ends_idle (H := reference_engine) turn_m world_refused
                  app_hi Hs Hm)).
Defined.

Local Opaque str.

(** X26. A turn that the backend refuses keeps nothing but may leave an
    empty chat behind. When [fetch] rejects with an error other than an
    abort, or answers with a status that is not ok, the error shown is
    [Fehler: ] and the message; the user's text and an empty answer stay
    in the log; one request was sent to the model and none is sent again;
    nothing is appended to the chat. The chat that was created for the
    turn, when there was none, is there all the same and is now the
    current chat. *)
Theorem refused_turn_keeps_nothing `{JsEngine} (t : Turn) (w : World) (a : App)
        (m : jsstring) :
  trim (prompt a) <> [] ->
  sendModel t <> [] ->
  response (mainStream w) = FetchNotOk m
  \/ response (mainStream w) = FetchRejects (Failure m) ->
  (incognito t = false -> truthy_id (currentChatId a) = false ->
   exists cid, createChat w = Ok cid) ->
  let a' := sendChat t w a in
  error a' = str "Fehler: " ++ m
  /\ loading a' = false /\ abortRef a' = None
  /\ flushTimer a' = false /\ liveBuffer a' = []
  /\ messages a'
     = messages a ++ [ {| ui_role := Assistent; ui_content := contextNote t |};
                       {| ui_role := Du; ui_content := trim (prompt a) |};
                       {| ui_role := Assistent; ui_content := [] |} ]
  /\ requests a' = requests a ++ [main_payload t (trim (prompt a))]
  /\ (if incognito t || truthy_id (currentChatId a)
      then calls a' = calls a /\ currentChatId a' = currentChatId a
      else calls a' = calls a ++ [CreateChat None (sendModel t)]
           /\ createChat w = Ok (default [] (currentChatId a'))).
Proof.
  intros Hp Hm Hresp Hcreate a'. subst a'. unfold sendChat.
  destruct (trim (prompt a)) as [|c u] eqn:Ep; [done|].
  destruct (sendModel t) as [|c0 md] eqn:Em; [done|].
  assert (forall chatId a0,
             match main_call t w chatId (c :: u) a0 with
             | (a2, inr _) => a2
             | (a2, inl e) => on_rejected e a2
             end
             = on_rejected (Failure m) (send_request (main_payload t (c :: u)) a0)) as Hrun.
  { intros chatId a0. unfold main_call, chatWithOllama.
    assert (p_model (main_payload t (c :: u)) = c0 :: md) as -> by (by simpl; rewrite Em).
    assert (exists x xs, p_messages (main_payload t (c :: u)) = x :: xs) as (x & xs & ->)
        by (simpl; by eexists _, _).
    by destruct Hresp as [-> | ->]. }
  unfold converse.
  destruct (incognito t) eqn:Ei; simpl.
  - rewrite Hrun. simpl. by rewrite <- app_assoc.
  - destruct (truthy_id (currentChatId a)) eqn:Et; simpl.
    + rewrite Hrun. simpl. by rewrite <- app_assoc.
    + destruct (Hcreate eq_refl eq_refl) as [cid Hc].
      rewrite Hc, Hrun. simpl. by rewrite <- app_assoc, Em.
Qed.

Lemma refused_turn_keeps_nothing_witness :
  trim (prompt app_hi) <> []
  /\ sendModel turn_m <> []
  /\ error (sendChat (H := reference_engine) turn_m world_refused app_hi)
     = str "Fehler: Ollama HTTP 404: model not found"
  /\ calls (sendChat (H := reference_engine) turn_m world_refused app_hi)
     = [CreateChat None (sendModel turn_m)].
Proof.
  assert (trim (prompt app_hi) <> []) as Hp by (vm_compute; discriminate).
  assert (sendModel turn_m <> []) as Hm by (vm_compute; discriminate).
  destruct (refused_turn_keeps_nothing (H := reference_engine) turn_m world_refused
              app_hi (str "Ollama HTTP 404: model not found") Hp Hm (or_introl eq_refl)
              (fun _ _ => ex_intro _ (str "c1") eq_refl))
    as (He & _).
  split; [exact Hp|]. split; [exact Hm|]. split; [exact He|].
  vm_compute. reflexivity.
Defined.

End TurnClaims.

(* ===================================================================== *)
(** * Facts about the append handler when the locking read excludes *)
(* ===================================================================== *)

Module LockFacts.
Import BackendFacts LedgerFacts ServerFacts.

Section Steps.
Context `{JsEngine}.
Variable exclusive : DB -> jsstring -> bool.

(** What a step changes: the place of the handler that moves, and of the
    chats no identifier. *)
Lemma advance_shape (fault : bool) (id ts : jsstring) (i : nat) (w w' : System) :
  advance exclusive fault id ts i w = Some w' ->
  exists th p,
    threads w !! i = Some th
    /\ threads w' = alter (moved p) i (threads w)
    /\ map chat_id (chats_table (store w')) = map chat_id (chats_table (store w))
    /\ (past_the_chat p = true ->
        past_the_chat (pc th) = true
        \/ select_chat (store w) (req_chat (request th)) (req_user (request th)) <> []).
Proof.
  unfold advance. cbv zeta. intros Hstep.
  destruct (threads w !! i) as [th|] eqn:Hi; [|done].
  exists th.
  destruct (pc th) as [| | | |m|row|row|row|r|] eqn:Hpc; try done.
  - destruct (req_role (request th)) as [r|];
      [destruct (req_content (request th)) as [[| | |t| |]|]|];
      try (injection Hstep as <-; by eexists).
    destruct (truthy r); injection Hstep as <-; [|by eexists].
    destruct fault; by eexists.
  - destruct fault; injection Hstep as <-; by eexists.
  - destruct fault; [injection Hstep as <-; by eexists|].
    destruct (select_chat _ _ _) as [|c cs] eqn:Es; injection Hstep as <-;
      [by eexists|].
    exists ChatFound. repeat split; try done. intros _. by right.
  - destruct fault; [injection Hstep as <-; by eexists|].
    unfold locking_read in Hstep. destruct (exclusive _ _).
    + destruct (locks w !! _); [done|]. injection Hstep as <-.
      eexists. repeat split; try done. by left.
    + injection Hstep as <-. eexists. repeat split; try done. by left.
  - destruct fault; [injection Hstep as <-; by eexists|].
    destruct (key_free (store w) _); [|injection Hstep as <-; by eexists].
    destruct (key_free _ _); [|done]. injection Hstep as <-.
    eexists. repeat split; try done. by left.
  - destruct fault; injection Hstep as <-; [by eexists|].
    eexists. repeat split; try done. by left.
  - destruct fault; injection Hstep as <-; [by eexists|].
    exists (Committed row). repeat split; try done.
    unfold unlock. simpl. apply touched_ids.
  - injection Hstep as <-. by eexists.
Qed.

Lemma advance_known (fault : bool) (id ts : jsstring) (i : nat) (w w' : System) :
  advance exclusive fault id ts i w = Some w' -> chats_known w -> chats_known w'.
Proof.
  intros Hstep Hk j thj Hj Hpast.
  destruct (advance_shape _ _ _ _ _ _ Hstep) as (th & p & Hi & Hth & Hids & Hp).
  rewrite Hids. rewrite Hth in Hj.
  apply lookup_moved in Hj as [(-> & th0 & Hi0 & ->) | (Hne & Hj)].
  - rewrite Hi in Hi0. injection Hi0 as <-. simpl in *.
    destruct (Hp Hpast) as [Hold | Hsel]; [by apply (Hk i th)|].
    destruct (select_chat _ _ _) as [|c cs] eqn:Es; [done|].
    assert (c ∈ select_chat (store w) (req_chat (request th)) (req_user (request th)))
      as Hin by (rewrite Es; left).
    unfold select_chat in Hin. apply elem_of_take in Hin as (k & Hk' & _).
    apply list_elem_of_lookup_2, list_elem_of_filter in Hk' as [[Hid _] Hc].
    rewrite <- Hid. apply list_elem_of_fmap. by exists c.
  - by apply (Hk j thj).
Qed.

Lemma reachable_known (w : System) : reachable exclusive w -> chats_known w.
Proof.
  intros (chats & rqs & Hrtc). revert w Hrtc. apply (rtc_ind_r chats_known).
  - intros i th Hi Hpast. apply initial_thread in Hi. by rewrite Hi in Hpast.
  - intros w2 w3 _ (fault & id & ts & i & Hstep) Hk.
    by apply (advance_known fault id ts i w2).
Qed.

(** Whose row a pending row is. *)
Lemma pending_rows_owner (ths : list Thread) (i : nat) (r : MessageRow) :
  r ∈ pending_rows i ths ->
  exists j thj, j <> i /\ ths !! j = Some thj /\ pending_row (pc thj) = [r].
Proof.
  unfold pending_rows. intros Hin. apply list_elem_of_In, in_concat in Hin as (l & Hl & Hr).
  apply list_elem_of_In, elem_of_lookup_imap_1 in Hl as (j & thj & -> & Hj).
  case_bool_decide as Hji; [by apply in_nil in Hr|].
  exists j, thj. split; [done|]. split; [done|].
  destruct (pc thj); try (by apply in_nil in Hr);
    simpl in *; destruct Hr as [-> | []]; done.
Qed.
End Steps.

End LockFacts.

Module LockClaims.
Import BackendFacts LedgerFacts ServerFacts LockFacts.

(** X27. When the locking read excludes, no append is lost to another.
    On an engine whose [SELECT ... FOR UPDATE] keeps the other handlers
    of the chat out until the transaction ends, however the handlers are
    interleaved, a handler that has read the maximum finds the position
    after it free: its insert, when the call is not rejected and the
    identifier is new, is neither refused nor made to wait, and the
    position is the number of appends to the chat that have succeeded. *)
Theorem locked_insert_is_not_refused `{JsEngine} (w : System) (i : nat) (th : Thread)
        (m : Z) (id ts : jsstring) :
  reachable always_exclusive w ->
  threads w !! i = Some th -> pc th = MaxRead m ->
  id ∉ map msg_id (messages_table (store w) ++ pending_rows i (threads w)) ->
  advance always_exclusive false id ts i w
  = Some (set_pc i (Inserted (row_of (request th) m id ts)) w)
  /\ msg_idx (row_of (request th) m id ts)
     = Z.of_nat (successful_appends w (req_chat (request th))).
Proof.
  intros Hreach Hi Hpc Hid.
  pose proof (reachable_known always_exclusive w Hreach) as Hknown.
  pose proof (reachable_serialized w Hreach) as [Hinv Hser].
  pose proof (ser_max w Hser i th m Hi Hpc) as Hm.
  split; [|simpl; lia].
  assert (forall x, x ∈ messages_table (store w) ->
                    msg_chat_id x = req_chat (request th) -> msg_idx x <> (m + 1)%Z)
    as Hfree.
  { intros x Hx Hc. by apply (no_conflict_under_lock w i th m x Hreach Hi Hpc). }
  assert (existsb (fun c => bool_decide (chat_id c = req_chat (request th)))
            (chats_table (store w)) = true) as Hchat.
  { assert (req_chat (request th) ∈ map chat_id (chats_table (store w))) as Hin
        by (apply (Hknown i th Hi); by rewrite Hpc).
    apply list_elem_of_fmap in Hin as (c & Hc & Hin).
    apply existsb_exists. exists c. split; [by apply list_elem_of_In|].
    by apply bool_decide_eq_true_2. }
  assert (locks w !! req_chat (request th) = Some i) as Hlock
      by (apply (ser_lock w Hser i th Hi); by rewrite Hpc).
  unfold advance. rewrite Hi, Hpc. unfold key_free. simpl. rewrite Hchat.
  rewrite map_app in Hid.
  assert (forallb (fun x => negb (bool_decide (msg_id x = id))
                            && negb (bool_decide (msg_chat_id x = req_chat (request th))
                                     && (msg_idx x =? m + 1)%Z))
            (messages_table (store w)) = true) as ->.
  { apply forallb_forall. intros x Hx. apply list_elem_of_In in Hx.
    apply andb_true_iff. split; apply negb_true_iff.
    - apply bool_decide_eq_false_2. intros E. destruct Hid. apply elem_of_app. left.
      rewrite <- E. apply list_elem_of_fmap. by exists x.
    - destruct (bool_decide _) eqn:Ec; [|done]. apply bool_decide_eq_true in Ec.
      simpl. apply Z.eqb_neq. by apply Hfree. }
  assert (forallb (fun x => negb (bool_decide (msg_id x = id))
                            && negb (bool_decide (msg_chat_id x = req_chat (request th))
                                     && (msg_idx x =? m + 1)%Z))
            (pending_rows i (threads w)) = true) as ->; [|done].
  apply forallb_forall. intros x Hx. apply list_elem_of_In in Hx.
  apply andb_true_iff. split; apply negb_true_iff.
  - apply bool_decide_eq_false_2. intros E. destruct Hid. apply elem_of_app. right.
    rewrite <- E. apply list_elem_of_fmap. by exists x.
  - apply pending_rows_owner in Hx as (j & thj & Hne & Hj & Hrow).
    destruct (inv_row w Hinv j thj x Hj Hrow) as [Hcx _].
    assert (in_critical (pc thj) = true) as Hcrit by (by destruct (pc thj)).
    pose proof (ser_lock w Hser j thj Hj Hcrit) as Hlj.
    rewrite bool_decide_eq_false_2; [done|]. intros E.
    rewrite <- Hcx, E, Hlock in Hlj. by injection Hlj as ->.
Qed.

Lemma locked_insert_is_not_refused_witness :
  reachable (H := reference_engine) always_exclusive second_in_line
  /\ map pc (threads second_in_line)
     = [ Replied (Appended (str "m-a") 0 (str "t1")); MaxRead 0; ChatFound ]
  /\ successful_appends second_in_line (str "c1") = 1
  /\ advance (H := reference_engine) always_exclusive false (str "m-c") (str "t2") 2
       second_in_line
     = None
  /\ option_map (fun w => map pc (threads w))
       (advance (H := reference_engine) always_exclusive false (str "m-b") (str "t2") 1
          second_in_line)
     = Some [ Replied (Appended (str "m-a") 0 (str "t1"));
              Inserted {| msg_id := str "m-b"; msg_chat_id := str "c1";
                          msg_role := str "assistant"; msg_content := str "hello";
                          msg_idx := 1; msg_created_at := str "t2" |};
              ChatFound ].
Proof.
  assert (reachable (H := reference_engine) always_exclusive second_in_line) as Hr
      by apply replay_reachable, initial_reachable.
  split; [exact Hr|]. do 3 (split; [vm_compute; reflexivity|]).
  assert (threads second_in_line !! 1%nat
          = Some {| request := say "assistant" "hello"; pc := MaxRead 0 |}) as Hi
      by (vm_compute; reflexivity).
  assert (str "m-b" ∉ map msg_id (messages_table (store second_in_line)
                                  ++ pending_rows 1 (threads second_in_line))) as Hid.
  { vm_compute. intros Hin. apply list_elem_of_In in Hin. simpl in Hin.
    destruct Hin as [Hin|[]]. discriminate Hin. }
  destruct (locked_insert_is_not_refused (H := reference_engine) second_in_line 1 _ 0
              (str "m-b") (str "t2") Hr Hi eq_refl Hid) as [-> _].
  vm_compute. reflexivity.
Defined.

End LockClaims.
